(** * useInterval: the shared interval scheduler of react-hooks

    A shallow embedding of [src/main/useInterval.ts].  The module-level
    [schedulers] map, the environment of each scheduler closure
    ([callbacks], [timeout], [ms]), the host's pending timers and the
    interval managers made by [createIntervalManager] are explicit
    components of a [state]; every function of the source is a state
    transformer over it.  Closures are identified by the order in which
    they are created.  User functions are a parameter: a [program] says
    which [schedule] and [cancel] calls a function makes when a tick calls
    it, and whether it throws.  The [for ... of] loop of [invokeCallbacks]
    runs on fuel; it is shown to return once the fuel exceeds a bound read
    off the state. *)

From Stdlib Require Import ZArith Lia.
From stdpp Require Import base option list sorting gmap.

(** ** JavaScript numbers and the partition key [Math.max(ms | 0, 0)] *)

(** A JavaScript number is NaN, an infinity, or a finite double; every
    finite double is [m * 2^e] for integers [m] and [e]. *)
Inductive number :=
  | NaN
  | Infinity (negative : bool)
  | Finite (m e : Z).

(** The integral part of [m * 2^e], rounding towards zero. *)
Definition truncate (m e : Z) : Z :=
  if (0 <=? e)%Z then (m * 2 ^ e)%Z else (m ÷ 2 ^ (- e))%Z.

(** ECMAScript [ToInt32]: NaN and the infinities go to 0, a finite number is
    truncated, reduced modulo 2^32 and read as a signed 32-bit integer. *)
Definition ToInt32 (x : number) : Z :=
  match x with
  | NaN | Infinity _ => 0%Z
  | Finite m e =>
      let int32bit := (truncate m e mod 2 ^ 32)%Z in
      if (2 ^ 31 <=? int32bit)%Z then (int32bit - 2 ^ 32)%Z else int32bit
  end.

(** [Math.max(ms | 0, 0)], the argument of [getOrCreateScheduler] in
    [doSchedule]. *)
Definition delay_key (ms : number) : Z :=
  Z.max (Z.lor (ToInt32 ms) 0) 0.

(** ** Identities *)

Definition gid := nat.  (** a scheduler closure: its [callbacks] and [timeout] *)
Definition cid := nat.  (** a wrapper closure [() => { cb(...args) }] *)
Definition tid := nat.  (** a [NodeJS.Timeout] handle *)
Definition hid := nat.  (** an interval manager, one per [useInterval] call site *)
Definition fid := nat.  (** a user function passed to [schedule] *)
Definition value := Z.  (** an element of [args] *)
Definition error := nat. (** a thrown value *)

(** ** User code

    What a user function does when a tick calls it: it may call the
    [schedule] and [cancel] functions of any interval manager, and it may
    throw at the end. *)
Inductive call :=
  | Schedule (h : hid) (cb : fid) (ms : number) (args : list value)
  | Cancel (h : hid).

Record behaviour := Behaviour {
  calls : list call;
  throws : option error;
}.

(** ** State *)

(** The environment of one scheduler closure created by
    [getOrCreateScheduler(ms)]. *)
Record group := Group {
  g_ms : Z;
  g_callbacks : list cid;
  g_timeout : option tid;
}.

(** What a pending host timer runs when it fires. *)
Inductive task :=
  | InvokeCallbacks (g : gid)
  | Rethrow (e : error).

Record timer := Timer {
  t_task : task;
  t_delay : Z;
}.

(** [doSchedule]/[doCancel] of an interval manager: both are [noop], or both
    are the closures made by the running effect, which share the variable
    [abort].  An abort function is the closure returned by [scheduler(cb)]:
    it captures the scheduler environment and [cb]. *)
Inductive manager :=
  | Noop
  | Effect (abort : option (gid * cid)).

Inductive event :=
  | Invoked (c : cid)
  | Pushed (g : gid) (c : cid)
  | Spliced (g : gid) (c : cid)
  | Caught (c : cid) (e : error)
  | Uncaught (e : error).

Record state := State {
  schedulers : gmap Z gid;
  groups : gmap gid group;
  next_gid : gid;
  closures : gmap cid (fid * list value);
  next_cid : cid;
  timers : gmap tid timer;
  next_tid : tid;
  managers : gmap hid manager;
  log : list event;
}.

(** The user functions: what [cb(...args)] does, which may depend on
    everything that has happened so far. *)
Definition program := fid → list value → state → behaviour.

Definition init : state :=
  State ∅ ∅ 0 ∅ 0 ∅ 0 ∅ [].

Definition set_schedulers (f : gmap Z gid → gmap Z gid) (st : state) : state :=
  State (f (schedulers st)) (groups st) (next_gid st) (closures st)
        (next_cid st) (timers st) (next_tid st) (managers st) (log st).

Definition set_group (g : gid) (grp : group) (st : state) : state :=
  State (schedulers st) (<[g := grp]> (groups st)) (next_gid st) (closures st)
        (next_cid st) (timers st) (next_tid st) (managers st) (log st).

Definition set_manager (h : hid) (m : manager) (st : state) : state :=
  State (schedulers st) (groups st) (next_gid st) (closures st)
        (next_cid st) (timers st) (next_tid st) (<[h := m]> (managers st))
        (log st).

Definition emit (e : event) (st : state) : state :=
  State (schedulers st) (groups st) (next_gid st) (closures st)
        (next_cid st) (timers st) (next_tid st) (managers st) (log st ++ [e]).

Definition manager_of (st : state) (h : hid) : manager :=
  default Noop (managers st !! h).

Definition callbacks_of (g : gid) (st : state) : list cid :=
  from_option g_callbacks [] (groups st !! g).

(** ** Host timers *)

Definition setTimeout (k : task) (delay : Z) (st : state) : tid * state :=
  let t := next_tid st in
  (t, State (schedulers st) (groups st) (next_gid st) (closures st)
            (next_cid st) (<[t := Timer k delay]> (timers st)) (S t)
            (managers st) (log st)).

Definition clearTimeout (o : option tid) (st : state) : state :=
  match o with
  | None => st
  | Some t =>
      State (schedulers st) (groups st) (next_gid st) (closures st)
            (next_cid st) (delete t (timers st)) (next_tid st)
            (managers st) (log st)
  end.

(** ** The scheduler registry *)

(** [Array.prototype.indexOf]; [None] stands for -1. *)
Fixpoint indexOf (c : cid) (l : list cid) : option nat :=
  match l with
  | [] => None
  | x :: l' => if decide (x = c) then Some 0 else S <$> indexOf c l'
  end.

(** [getOrCreateScheduler(ms)] up to [schedulers.set(ms, scheduler)]: the
    scheduler closure is identified with its environment. *)
Definition getOrCreateScheduler (ms : Z) (st : state) : gid * state :=
  match schedulers st !! ms with
  | Some g => (g, st)
  | None =>
      let g := next_gid st in
      (g, State (<[ms := g]> (schedulers st)) (<[g := Group ms [] None]> (groups st))
                (S g) (closures st) (next_cid st) (timers st) (next_tid st)
                (managers st) (log st))
  end.

(** [scheduler(cb)] of the closure [g]; the result is the abort closure. *)
Definition scheduler (g : gid) (cb : cid) (st : state) : (gid * cid) * state :=
  match groups st !! g with
  | None => ((g, cb), st)
  | Some grp =>
      match indexOf cb (g_callbacks grp) with
      | Some _ => ((g, cb), st)
      | None =>
          let cbs := g_callbacks grp ++ [cb] in
          let st1 :=
            emit (Pushed g cb) (set_group g (Group (g_ms grp) cbs (g_timeout grp)) st) in
          if decide (length cbs = 1) then
            let '(t, st2) := setTimeout (InvokeCallbacks g) (g_ms grp) st1 in
            ((g, cb), set_group g (Group (g_ms grp) cbs (Some t)) st2)
          else ((g, cb), st1)
      end
  end.

(** The closure returned by [scheduler(cb)]. *)
Definition abort (a : gid * cid) (st : state) : state :=
  let '(g, cb) := a in
  match groups st !! g with
  | None => st
  | Some grp =>
      match indexOf cb (g_callbacks grp) with
      | None => st
      | Some index =>
          let cbs := delete index (g_callbacks grp) in
          let st1 :=
            emit (Spliced g cb) (set_group g (Group (g_ms grp) cbs (g_timeout grp)) st) in
          if decide (length cbs = 0) then
            clearTimeout (g_timeout grp) (set_schedulers (delete (g_ms grp)) st1)
          else st1
      end
  end.

(** ** The interval manager *)

Definition doCancel (h : hid) (st : state) : state :=
  match manager_of st h with
  | Effect (Some a) => set_manager h (Effect None) (abort a st)
  | _ => st
  end.

Definition doSchedule (h : hid) (cb : fid) (ms : number) (args : list value)
    (st : state) : state :=
  match manager_of st h with
  | Noop => st
  | Effect _ =>
      let st1 := doCancel h st in
      let '(g, st2) := getOrCreateScheduler (delay_key ms) st1 in
      let c := next_cid st2 in
      let st3 :=
        State (schedulers st2) (groups st2) (next_gid st2)
              (<[c := (cb, args)]> (closures st2)) (S c) (timers st2)
              (next_tid st2) (managers st2) (log st2) in
      let '(a, st4) := scheduler g c st3 in
      set_manager h (Effect (Some a)) st4
  end.

(** [manager.effect()], run by the host when the component mounts. *)
Definition effect (h : hid) (st : state) : state :=
  set_manager h (Effect None) st.

(** The cleanup function returned by [effect]. *)
Definition cleanup (h : hid) (st : state) : state :=
  set_manager h Noop (doCancel h st).

Definition run_call (k : call) (st : state) : state :=
  match k with
  | Schedule h cb ms args => doSchedule h cb ms args st
  | Cancel h => doCancel h st
  end.

Definition run_calls (ks : list call) (st : state) : state :=
  foldl (λ s k, run_call k s) st ks.

(** ** Tick dispatch *)

Inductive outcome :=
  | Done (st : state)
  | OutOfFuel (st : state).

Definition state_of (o : outcome) : state :=
  match o with Done st | OutOfFuel st => st end.

Section Dispatch.
Variable prog : program.

(** [cb()] for a wrapper closure: [cb(...args)] of the user function. *)
Definition invoke (c : cid) (st : state) : state * option error :=
  match closures st !! c with
  | None => (emit (Invoked c) st, None)
  | Some (f, args) =>
      let b := prog f args st in
      (run_calls (calls b) (emit (Invoked c) st), throws b)
  end.

(** One iteration of [for (const cb of callbacks)] with its [try]/[catch]. *)
Definition attempt (c : cid) (st : state) : state :=
  match invoke c st with
  | (st1, None) => st1
  | (st1, Some e) => snd (setTimeout (Rethrow e) 0 (emit (Caught c e) st1))
  end.

(** The [for ... of] loop over the live array: the iterator holds an index
    and reads [callbacks.length] and [callbacks[index]] at every step. *)
Fixpoint dispatch (fuel : nat) (g : gid) (index : nat) (st : state) : outcome :=
  match fuel with
  | 0 => OutOfFuel st
  | S fuel' =>
      match callbacks_of g st !! index with
      | None => Done st
      | Some c => dispatch fuel' g (S index) (attempt c st)
      end
  end.

(** [timeout = setTimeout(invokeCallbacks, ms)]. *)
Definition rearm (g : gid) (st : state) : state :=
  match groups st !! g with
  | None => st
  | Some grp =>
      let '(t, st1) := setTimeout (InvokeCallbacks g) (g_ms grp) st in
      set_group g (Group (g_ms grp) (g_callbacks grp) (Some t)) st1
  end.

Definition invokeCallbacks (fuel : nat) (g : gid) (st : state) : outcome :=
  match dispatch fuel g 0 st with
  | Done st1 => Done (rearm g st1)
  | OutOfFuel st1 => OutOfFuel st1
  end.

(** The host fires the pending timer [t]. *)
Definition fire (fuel : nat) (t : tid) (st : state) : outcome :=
  match timers st !! t with
  | None => Done st
  | Some tm =>
      let st1 := clearTimeout (Some t) st in
      match t_task tm with
      | InvokeCallbacks g => invokeCallbacks fuel g st1
      | Rethrow e => Done (emit (Uncaught e) st1)
      end
  end.
End Dispatch.

(** ** Observations on the event log and the state invariant *)

Definition events_since (st st' : state) : list event :=
  drop (length (log st)) (log st').

Definition invoked (evs : list event) : list cid :=
  omap (λ e, match e with Invoked c => Some c | _ => None end) evs.

Definition pushed (g : gid) (evs : list event) : list cid :=
  omap (λ e, match e with
             | Pushed g' c => if decide (g' = g) then Some c else None
             | _ => None
             end) evs.

Definition spliced (g : gid) (evs : list event) : list cid :=
  omap (λ e, match e with
             | Spliced g' c => if decide (g' = g) then Some c else None
             | _ => None
             end) evs.

Definition caught (evs : list event) : list error :=
  omap (λ e, match e with Caught _ x => Some x | _ => None end) evs.

(** What holds of every state the functions above can produce from [init]:
    identities are allocated in increasing order, every [callbacks] array is
    in allocation order, a scheduler with callbacks is the one registered
    for its delay, and a [timeout] variable never names a rethrow timer. *)
Record wf (st : state) : Prop := {
  wf_gfresh : ∀ g grp, groups st !! g = Some grp → g < next_gid st;
  wf_sorted : ∀ g grp,
    groups st !! g = Some grp → StronglySorted lt (g_callbacks grp);
  wf_cfresh : ∀ g grp c,
    groups st !! g = Some grp → c ∈ g_callbacks grp → c < next_cid st;
  wf_registered : ∀ g grp,
    groups st !! g = Some grp → g_callbacks grp ≠ [] →
    schedulers st !! g_ms grp = Some g;
  wf_schedulers : ∀ ms g,
    schedulers st !! ms = Some g →
    ∃ grp, groups st !! g = Some grp ∧ g_ms grp = ms;
  wf_aborts : ∀ h g c,
    managers st !! h = Some (Effect (Some (g, c))) → c < next_cid st;
  wf_tfresh : ∀ t tm, timers st !! t = Some tm → t < next_tid st;
  wf_timeout : ∀ g grp t,
    groups st !! g = Some grp → g_timeout grp = Some t →
    t < next_tid st ∧
    ∀ tm, timers st !! t = Some tm → t_task tm = InvokeCallbacks g;
  wf_closures : ∀ c x, closures st !! c = Some x → c < next_cid st;
  wf_cexists : ∀ g grp c,
    groups st !! g = Some grp → c ∈ g_callbacks grp →
    is_Some (closures st !! c);
  wf_owner : ∀ h1 h2 g1 g2 c,
    managers st !! h1 = Some (Effect (Some (g1, c))) →
    managers st !! h2 = Some (Effect (Some (g2, c))) → h1 = h2;
}.

(** [follows st st' evs]: [st'] comes after [st] in a run that logged [evs]
    in between.  As long as nothing was spliced out of a [callbacks] array it
    only grew at its end; in any case an element found at some index was
    at that index or a later one before, unless it is new. *)
Record follows (st st' : state) (evs : list event) : Prop := {
  f_log : log st' = log st ++ evs;
  f_callbacks : ∀ g,
    spliced g evs = [] →
    callbacks_of g st' = callbacks_of g st ++ pushed g evs;
  f_next_cid : next_cid st ≤ next_cid st';
  f_shift : ∀ g j x,
    callbacks_of g st' !! j = Some x →
    next_cid st ≤ x ∨ ∃ j', j ≤ j' ∧ callbacks_of g st !! j' = Some x;
  f_rethrow : ∀ t e d,
    timers st !! t = Some (Timer (Rethrow e) d) →
    timers st' !! t = Some (Timer (Rethrow e) d);
  f_closures : ∀ c x, closures st !! c = Some x → closures st' !! c = Some x;
  f_groups : ∀ g grp,
    groups st !! g = Some grp →
    ∃ grp', groups st' !! g = Some grp' ∧ g_ms grp' = g_ms grp;
  f_noop : ∀ h, manager_of st h = Noop → manager_of st' h = Noop;
  f_keeps : ∀ g c,
    c ∈ callbacks_of g st → c ∉ spliced g evs → c ∈ callbacks_of g st';
}.

(** No callback was invoked and no error caught. *)
Definition silent (evs : list event) : Prop :=
  invoked evs = [] ∧ caught evs = [].

(** ** The host *)

(** The host fires the timer held in the [timeout] variable of [g]. *)
Definition tick (prog : program) (fuel : nat) (g : gid) (st : state) : outcome :=
  match groups st !! g with
  | Some (Group _ _ (Some t)) => fire prog fuel t st
  | _ => Done st
  end.

Fixpoint ticks (prog : program) (fuel : nat) (g : gid) (n : nat) (st : state)
    : state :=
  match n with
  | 0 => st
  | S n' => ticks prog fuel g n' (state_of (tick prog fuel g st))
  end.

(** What the host can do to the hook: mount or unmount the component that
    owns manager [h], run user code that calls [schedule] or [cancel], fire
    a pending timer. *)
Inductive host_event :=
  | Mount (h : hid)
  | Unmount (h : hid)
  | User (k : call)
  | Fire (t : tid).

Definition host_step (prog : program) (fuel : nat) (ev : host_event)
    (st : state) : outcome :=
  match ev with
  | Mount h => Done (effect h st)
  | Unmount h => Done (cleanup h st)
  | User k => Done (run_call k st)
  | Fire t => fire prog fuel t st
  end.

Fixpoint run_host (prog : program) (fuel : nat) (evs : list host_event)
    (st : state) : outcome :=
  match evs with
  | [] => Done st
  | ev :: evs' =>
      match host_step prog fuel ev st with
      | Done st1 => run_host prog fuel evs' st1
      | OutOfFuel st1 => OutOfFuel st1
      end
  end.

Definition handle_of (k : call) : hid :=
  match k with Schedule h _ _ _ | Cancel h => h end.

(** ** Scenarios

    Two mounted managers, 0 and 1, and four user functions: function 0
    cancels through manager 0, function 1 does nothing, function 2 schedules
    function 1 through manager 1, function 3 throws. *)
Definition every100 : number := Finite 100 0.

Definition example : program := λ f _ _,
  match f with
  | 0 => Behaviour [Cancel 0] None
  | 2 => Behaviour [Schedule 1 1 every100 []] None
  | 3 => Behaviour [] (Some 7)
  | _ => Behaviour [] None
  end.

Definition mounted : state := effect 1 (effect 0 init).

(** Manager 0 schedules function 0, which cancels its own registration. *)
Definition self_cancelling : state := doSchedule 0 0 every100 [] mounted.

(** The same, and manager 1 schedules function 1 after it. *)
Definition self_cancelling_first : state :=
  doSchedule 1 1 every100 [] self_cancelling.

(** Manager 0 schedules function 2, which adds a callback during the tick. *)
Definition adding : state := doSchedule 0 2 every100 [] mounted.

(** Manager 0 schedules function 3, which throws, manager 1 function 1. *)
Definition throwing_first : state :=
  doSchedule 1 1 every100 [] (doSchedule 0 3 every100 [] mounted).

(** Both managers schedule function 1. *)
Definition twice : state :=
  doSchedule 1 1 every100 [] (doSchedule 0 1 every100 [] mounted).


(** The scheduler [g] has no callbacks and yet its [timeout] names a pending
    timer that will run its [invokeCallbacks]. *)
Definition ticking_empty (g : gid) (ms : Z) (st : state) : Prop :=
  ∃ grp t,
    groups st !! g = Some grp ∧ g_ms grp = ms ∧ g_callbacks grp = [] ∧
    g_timeout grp = Some t ∧
    timers st !! t = Some (Timer (InvokeCallbacks g) ms).

(** ** A bound on the length of a tick

    A manager is [live] in [g] when the callback it registered last is in the
    array of [g]; a mounted manager that is not is [spare]: it can still add
    a callback to [g] without removing one.  The [potential] of [g] bounds
    the number of callbacks one tick of [g] can invoke. *)
Definition live (g : gid) (st : state) (m : manager) : Prop :=
  match m with
  | Effect (Some (g', c)) => g' = g ∧ c ∈ callbacks_of g st
  | _ => False
  end.

#[global] Instance live_dec g st m : Decision (live g st m).
Proof. destruct m as [|[[g' c]|]]; simpl; apply _. Defined.

#[global] Instance manager_eq_dec : EqDecision manager.
Proof. solve_decision. Defined.

Definition spare (g : gid) (st : state) (hm : hid * manager) : Prop :=
  hm.2 ≠ Noop ∧ ¬ live g st hm.2.

#[global] Instance spare_dec g st hm : Decision (spare g st hm).
Proof. unfold spare. apply _. Defined.

Definition potential (g : gid) (st : state) : nat :=
  length (callbacks_of g st) + size (filter (spare g st) (managers st)).

(** ** One timer for each registered scheduler

    [timed o st]: every registered scheduler has callbacks; every registered
    scheduler other than [o], the one whose tick is being dispatched, if
    any, holds in [timeout] a pending timer that runs its [invokeCallbacks]
    after its delay; and a pending timer that runs the [invokeCallbacks] of
    a scheduler is the one that scheduler holds in [timeout], and is not a
    timer of [o]. *)
Record timed (o : option gid) (st : state) : Prop := {
  t_nonempty : ∀ d g, schedulers st !! d = Some g → callbacks_of g st ≠ [];
  t_armed : ∀ d g grp,
    schedulers st !! d = Some g → groups st !! g = Some grp → o ≠ Some g →
    ∃ t, g_timeout grp = Some t ∧
         timers st !! t = Some (Timer (InvokeCallbacks g) d);
  t_single : ∀ g t tm,
    timers st !! t = Some tm → t_task tm = InvokeCallbacks g →
    o ≠ Some g ∧ ∃ grp, groups st !! g = Some grp ∧ g_timeout grp = Some t;
  t_ticking : ∀ g, o = Some g → is_Some (groups st !! g);
}.

(** ** Closures that are gone

    [absent c st]: the closure [c] has been created and is in no [callbacks]
    array.  [homed st]: the closure a manager holds in [abort] is in no
    array but that of the scheduler it was added to. *)
Definition absent (c : cid) (st : state) : Prop :=
  c < next_cid st ∧ ∀ g, c ∉ callbacks_of g st.

Definition homed (st : state) : Prop :=
  ∀ h g c g',
    managers st !! h = Some (Effect (Some (g, c))) →
    c ∈ callbacks_of g' st → g' = g.

(** * useHover: the hover manager

    A shallow embedding of [createHoverManager] of
    [src/main/behaviors/useHover.ts].  The [status] variable and the [props]
    field of a manager are the components of a record; [setHovered] and the
    optional handlers of the props are opaque, so a call of one of them is
    recorded in [calls], in the order the source makes it.  Of a pointer
    event the model keeps what the handlers read: [pointerType], [buttons]
    and the result of [isPortalEvent(event)]. *)
Module Hover.

Inductive pointer_type := Mouse | Pen | Touch.

Record pointer_event := PointerEvent {
  pointerType : pointer_type;
  buttons : Z;
  isPortalEvent : bool;
}.

Inductive status :=
  | STATUS_NOT_HOVERED
  | STATUS_HOVERED
  | STATUS_HOVER_DISCARDED.

(** [HoverProps]: for each handler, whether the props define it. *)
Record props := Props {
  isDisabled : bool;
  onHoverStart : bool;
  onHoverEnd : bool;
  onHoverChange : bool;
}.

Inductive call :=
  | SetHovered (isHovered : bool)
  | OnHoverChange (isHovered : bool)
  | OnHoverStart
  | OnHoverEnd.

Record manager := Manager {
  m_status : status;
  m_props : props;
  calls : list call;
}.

#[global] Instance status_eq_dec : EqDecision status.
Proof. solve_decision. Defined.

#[global] Instance pointer_type_eq_dec : EqDecision pointer_type.
Proof. solve_decision. Defined.

(** [handler?.(...)]. *)
Definition optional (defined : bool) (c : call) : list call :=
  if defined then [c] else [].

Definition createHoverManager (p : props) : manager :=
  Manager STATUS_NOT_HOVERED p [].

Definition cancel (m : manager) : manager :=
  let p := m_props m in
  if decide (m_status m ≠ STATUS_HOVERED) then
    Manager STATUS_NOT_HOVERED p (calls m)
  else
    Manager STATUS_NOT_HOVERED p
      (calls m ++ [SetHovered false] ++
       optional (onHoverChange p) (OnHoverChange false) ++
       optional (onHoverEnd p) OnHoverEnd).

Definition handleUpdate (m : manager) : manager :=
  if isDisabled (m_props m) then cancel m else m.

Definition handlePointerHover (event : pointer_event) (m : manager) : manager :=
  let p := m_props m in
  if decide (pointerType event ≠ Mouse ∧ m_status m = STATUS_NOT_HOVERED) then
    Manager STATUS_HOVER_DISCARDED p (calls m)
  else if decide (pointerType event = Mouse ∧
                  m_status m = STATUS_HOVER_DISCARDED) then
    Manager STATUS_NOT_HOVERED p (calls m)
  else if isDisabled p
          || bool_decide (m_status m ≠ STATUS_NOT_HOVERED)
          || bool_decide (pointerType event ≠ Mouse)
          || bool_decide (buttons event ≠ 0%Z)
          || isPortalEvent event then m
  else
    Manager STATUS_HOVERED p
      (calls m ++ [SetHovered true] ++
       optional (onHoverChange p) (OnHoverChange true) ++
       optional (onHoverStart p) OnHoverStart).

Definition handlePointerLeave (event : pointer_event) (m : manager) : manager :=
  if bool_decide (m_status m ≠ STATUS_HOVERED)
     || bool_decide (pointerType event ≠ Mouse)
     || isPortalEvent event then m
  else cancel m.

(** A render of [useHover(props)]: [manager.props = props], then the layout
    effect [onUpdate]. *)
Definition render (p : props) (m : manager) : manager :=
  handleUpdate (Manager (m_status m) p (calls m)).

(** What can happen to a mounted manager: a render, a pointer event on the
    element that carries [hoverProps], a call of its [cancel] by
    [cancelHover]. *)
Inductive event :=
  | Render (p : props)
  | PointerEnter (e : pointer_event)
  | PointerMove (e : pointer_event)
  | PointerLeave (e : pointer_event)
  | CancelHover.

Definition step (m : manager) (ev : event) : manager :=
  match ev with
  | Render p => render p m
  | PointerEnter e | PointerMove e => handlePointerHover e m
  | PointerLeave e => handlePointerLeave e m
  | CancelHover => cancel m
  end.

Definition run (evs : list event) (m : manager) : manager := foldl step m evs.

(** The arguments of the [setHovered] calls, and the React state
    [isHovered] they leave, [false] at first. *)
Definition set_hovered (l : list call) : list bool :=
  omap (λ c, match c with SetHovered b => Some b | _ => None end) l.

Definition isHovered (m : manager) : bool :=
  default false (last (set_hovered (calls m))).

(** The [setHovered] calls made so far are [true], [false], [true], ...,
    and the manager is hovered exactly when their number is odd. *)
Definition toggled (m : manager) (n : nat) : Prop :=
  set_hovered (calls m) = Nat.even <$> seq 0 n ∧
  (m_status m = STATUS_HOVERED ↔ Nat.odd n = true).

(** Whether a pointer event is one that can start a hover. *)
Definition starts_hover (e : pointer_event) : bool :=
  bool_decide (pointerType e = Mouse) && bool_decide (buttons e = 0%Z)
  && negb (isPortalEvent e).

Definition hover_event (ev : event) : option pointer_event :=
  match ev with
  | PointerEnter e | PointerMove e => Some e
  | _ => None
  end.

(** ** The module-level state

    [hoverManagerCount], whether [window] has the [blur] listener, and the
    managers whose [cancel] is subscribed to [cancelHoverPubSub], in the
    order of subscription. *)
Record page := Page {
  hoverManagerCount : Z;
  blur_listener : bool;
  subscribed : list nat;
}.

Definition page0 : page := Page 0 false [].

(** [handleMount] of manager [i]. *)
Definition handleMount (i : nat) (pg : page) : page :=
  let count := (hoverManagerCount pg + 1)%Z in
  Page count
       (if decide (count = 1%Z) then true else blur_listener pg)
       (subscribed pg ++ [i]).

(** The function [handleMount] of manager [i] returned. *)
Definition handleUnmount (i : nat) (pg : page) : page :=
  Page (hoverManagerCount pg - 1)
       (if decide (hoverManagerCount pg = 1%Z) then false else blur_listener pg)
       (filter (λ j, j ≠ i) (subscribed pg)).

Inductive mount_event := Mounted (i : nat) | Unmounted (i : nat).

Definition mount_step (pg : page) (ev : mount_event) : page :=
  match ev with
  | Mounted i => handleMount i pg
  | Unmounted i => handleUnmount i pg
  end.

(** The host runs the effect of a manager that is not mounted and the
    cleanup of one that is. *)
Fixpoint paired (mounted : list nat) (evs : list mount_event) : Prop :=
  match evs with
  | [] => True
  | Mounted i :: evs' => (i ∉ mounted) ∧ paired (mounted ++ [i]) evs'
  | Unmounted i :: evs' =>
      (i ∈ mounted) ∧ paired (filter (λ j, j ≠ i) mounted) evs'
  end.

End Hover.

(** * useDebounce

    A shallow embedding of [createDebounceManager] of the [useDebounce]
    module.  The state is the [timeout] variable of the manager and the
    pending timers of the host; the arguments of [setTimeout] are kept with
    the timer, and a timer that fires is recorded in [fired]. *)
Module Debounce.

(** The arguments [(cb, ms, ...args)] of [setTimeout]. *)
Record arguments := Args {
  a_cb : nat;
  a_ms : option number;
  a_args : list Z;
}.

Record state := State {
  timers : gmap nat arguments;
  next_tid : nat;
  timeout : option nat;
  fired : list (nat * arguments);
}.

Definition setTimeout (a : arguments) (st : state) : nat * state :=
  let t := next_tid st in
  (t, State (<[t := a]> (timers st)) (S t) (timeout st) (fired st)).

(** [clearTimeout(undefined)] does nothing. *)
Definition clearTimeout (o : option nat) (st : state) : state :=
  match o with
  | None => st
  | Some t => State (delete t (timers st)) (next_tid st) (timeout st) (fired st)
  end.

Definition cancel (st : state) : state := clearTimeout (timeout st) st.

Definition debounce (a : arguments) (st : state) : state :=
  let '(t, st1) := setTimeout a (cancel st) in
  State (timers st1) (next_tid st1) (Some t) (fired st1).

(** The host fires the pending timer [t]. *)
Definition fire (t : nat) (st : state) : state :=
  match timers st !! t with
  | None => st
  | Some a =>
      State (delete t (timers st)) (next_tid st) (timeout st)
            (fired st ++ [(t, a)])
  end.

(** What can happen: a call of [debounce], a call of [cancel] (by the user
    or as the effect cleanup [_effect()] returned), a timer firing, and a
    [setTimeout] or [clearTimeout] by other code. *)
Inductive event :=
  | CallDebounce (a : arguments)
  | CallCancel
  | Fire (t : nat)
  | OtherSet (a : arguments)
  | OtherClear (t : nat).

Definition step (st : state) (ev : event) : state :=
  match ev with
  | CallDebounce a => debounce a st
  | CallCancel => cancel st
  | Fire t => fire t st
  | OtherSet a => (setTimeout a st).2
  | OtherClear t => clearTimeout (Some t) st
  end.

Definition run (evs : list event) (st : state) : state := foldl step st evs.

(** An event that neither clears nor fires the timer [t] and is no call of
    the manager. *)
Definition spares (t : nat) (ev : event) : Prop :=
  match ev with
  | CallDebounce _ | CallCancel => False
  | Fire t' | OtherClear t' => t' ≠ t
  | OtherSet _ => True
  end.

(** Timer identifiers are handed out in increasing order. *)
Record wf (st : state) : Prop := {
  wf_timers : ∀ t a, timers st !! t = Some a → t < next_tid st;
  wf_timeout : ∀ t, timeout st = Some t → t < next_tid st;
}.

End Debounce.

(** * Properties *)

(** ** Delay normalisation *)

Lemma ToInt32_range ms : (- 2 ^ 31 ≤ ToInt32 ms < 2 ^ 31)%Z.
Proof.
  destruct ms as [| |m e]; simpl; try lia.
  pose proof (Z.mod_pos_bound (truncate m e) (2 ^ 32) ltac:(lia)) as Hb.
  destruct (Z.leb_spec (2 ^ 31) (truncate m e mod 2 ^ 32)); lia.
Qed.

Lemma truncate_integer n : truncate n 0 = n.
Proof. unfold truncate. change (0 <=? 0)%Z with true. cbv iota. lia. Qed.

Lemma ToInt32_int32 n :
  (- 2 ^ 31 ≤ n < 2 ^ 31)%Z → ToInt32 (Finite n 0) = n.
Proof.
  intros Hn. unfold ToInt32. rewrite truncate_integer. cbv zeta.
  destruct (Z.neg_nonneg_cases n) as [Hneg|Hpos].
  - rewrite <- (Z.mod_unique n (2 ^ 32) (-1) (n + 2 ^ 32)) by lia.
    destruct (Z.leb_spec (2 ^ 31) (n + 2 ^ 32)); lia.
  - rewrite Z.mod_small by lia.
    destruct (Z.leb_spec (2 ^ 31) n); lia.
Qed.

Lemma delay_key_max ms : delay_key ms = Z.max (ToInt32 ms) 0.
Proof. unfold delay_key. by rewrite Z.lor_0_r. Qed.

Lemma delay_key_int32 n :
  (- 2 ^ 31 ≤ n < 2 ^ 31)%Z → delay_key (Finite n 0) = Z.max n 0.
Proof. intros Hn. by rewrite delay_key_max, ToInt32_int32. Qed.

(** ** The registry function *)

Lemma getOrCreateScheduler_hit ms st g :
  schedulers st !! ms = Some g → getOrCreateScheduler ms st = (g, st).
Proof. intros H. unfold getOrCreateScheduler. by rewrite H. Qed.

Lemma getOrCreateScheduler_registers ms st :
  schedulers (getOrCreateScheduler ms st).2 !! ms
  = Some (getOrCreateScheduler ms st).1.
Proof.
  unfold getOrCreateScheduler.
  destruct (schedulers st !! ms) eqn:E; simpl; [done|].
  by rewrite lookup_insert_eq.
Qed.

Lemma getOrCreateScheduler_other ms st d :
  d ≠ ms →
  schedulers (getOrCreateScheduler ms st).2 !! d = schedulers st !! d.
Proof.
  intros Hd. unfold getOrCreateScheduler.
  destruct (schedulers st !! ms) eqn:E; simpl; [done|].
  by rewrite lookup_insert_ne.
Qed.

(** ** Arrays *)

Lemma indexOf_None c l : indexOf c l = None ↔ c ∉ l.
Proof.
  induction l as [|x l IH]; simpl.
  - split; [intros _; apply not_elem_of_nil|done].
  - rewrite not_elem_of_cons. destruct (decide (x = c)) as [->|Hne].
    + split; [done|]. by intros [? _].
    + rewrite fmap_None, IH. split; [by intros ?; split|by intros [_ ?]].
Qed.

Lemma indexOf_Some c l i : indexOf c l = Some i → l !! i = Some c.
Proof.
  revert i. induction l as [|x l IH]; intros i; simpl; [done|].
  destruct (decide (x = c)) as [->|Hne].
  - by intros [= <-].
  - rewrite fmap_Some. intros (j & Hj & ->). by apply IH.
Qed.

Lemma StronglySorted_delete (l : list nat) i :
  StronglySorted lt l → StronglySorted lt (delete i l).
Proof.
  revert i. induction l as [|x l IH]; intros i Hs; [by destruct i|].
  apply StronglySorted_cons in Hs as [Hx Hl]. destruct i as [|i]; simpl; [done|].
  apply StronglySorted_cons. split; [|by apply IH].
  apply Forall_forall. intros y Hy. rewrite Forall_forall in Hx.
  apply Hx. by eapply list_elem_of_delete_inv.
Qed.

Lemma StronglySorted_snoc (l : list nat) c :
  StronglySorted lt l → (∀ x, x ∈ l → x < c) → StronglySorted lt (l ++ [c]).
Proof.
  intros Hl Hc. apply StronglySorted_app. split_and!.
  - intros x y Hx Hy. apply list_elem_of_singleton in Hy as ->. by apply Hc.
  - done.
  - apply StronglySorted_cons. split; [constructor|constructor].
Qed.

Lemma StronglySorted_NoDup (l : list nat) : StronglySorted lt l → NoDup l.
Proof.
  induction 1 as [|x l Hl IH Hx]; constructor; [|done].
  intros Hin. rewrite Forall_forall in Hx. specialize (Hx _ Hin). lia.
Qed.

Lemma NoDup_delete_indexOf c (l : list nat) i :
  NoDup l → indexOf c l = Some i → c ∉ delete i l.
Proof.
  revert i. induction l as [|x l IH]; intros i Hnd; simpl; [done|].
  apply NoDup_cons in Hnd as [Hx Hnd]. case_decide as Hc.
  - intros [= <-]. by subst x.
  - rewrite fmap_Some. intros (j & Hj & ->). simpl.
    rewrite not_elem_of_cons. split; [done|]. by apply IH.
Qed.

(** ** The invariant is preserved *)

Lemma wf_init : wf init.
Proof. constructor; simpl; intros *; rewrite ?lookup_empty; done. Qed.

Lemma wf_emit e st : wf st → wf (emit e st).
Proof. intros []. by constructor. Qed.

Lemma wf_setTimeout k d st : wf st → wf (setTimeout k d st).2.
Proof.
  intros [H1 H2 H3 H4 H5 H6 H7 H8 H9 H10 H11]. constructor; simpl; try done.
  - intros t tm. rewrite lookup_insert_Some. intros [[<- _]|[_ Ht]]; [lia|].
    apply H7 in Ht. lia.
  - intros g grp t Hg Ht. destruct (H8 _ _ _ Hg Ht) as [Hlt Htm].
    split; [lia|]. intros tm. rewrite lookup_insert_ne by lia. apply Htm.
Qed.

Lemma abort_unfold g cb st grp i :
  groups st !! g = Some grp → indexOf cb (g_callbacks grp) = Some i →
  let cbs := delete i (g_callbacks grp) in
  abort (g, cb) st =
  State (if decide (length cbs = 0) then delete (g_ms grp) (schedulers st)
         else schedulers st)
        (<[g := Group (g_ms grp) cbs (g_timeout grp)]> (groups st))
        (next_gid st) (closures st) (next_cid st)
        (if decide (length cbs = 0)
         then from_option (λ t, delete t (timers st)) (timers st) (g_timeout grp)
         else timers st)
        (next_tid st) (managers st) (log st ++ [Spliced g cb]).
Proof.
  intros Hg Hi. unfold abort. rewrite Hg, Hi. simpl.
  case_decide; [|done]. by destruct (g_timeout grp).
Qed.

Lemma wf_abort a st : wf st → wf (abort a st).
Proof.
  destruct a as [g cb]. intros Hwf.
  destruct (groups st !! g) as [grp|] eqn:Hg;
    [|by unfold abort; rewrite Hg].
  destruct (indexOf cb (g_callbacks grp)) as [i|] eqn:Hi;
    [|by unfold abort; rewrite Hg, Hi].
  rewrite (abort_unfold _ _ _ _ _ Hg Hi). cbv zeta.
  assert (g_callbacks grp ≠ []) as Hne.
  { intros E. by rewrite E in Hi. }
  pose proof (wf_registered _ Hwf _ _ Hg Hne) as Hreg.
  destruct Hwf as [H1 H2 H3 H4 H5 H6 H7 H8 H9 H10 H11].
  set (cbs := delete i (g_callbacks grp)).
  set (tms := if decide (length cbs = 0)
              then from_option (λ t, delete t (timers st)) (timers st) (g_timeout grp)
              else timers st).
  assert (∀ t tm, tms !! t = Some tm → timers st !! t = Some tm) as Htms.
  { intros t tm. unfold tms. case_decide; [|done].
    destruct (g_timeout grp); simpl; [|done].
    rewrite lookup_delete_Some. tauto. }
  constructor; simpl.
  - intros g' grp'. rewrite lookup_insert_Some. intros [[<- _]|[_ ?]]; eauto.
  - intros g' grp'. rewrite lookup_insert_Some. intros [[<- <-]|[_ ?]]; simpl; eauto.
    apply StronglySorted_delete; eauto.
  - intros g' grp' c. rewrite lookup_insert_Some. intros [[<- <-]|[_ ?]]; simpl; eauto.
    intros Hc%list_elem_of_delete_inv. eauto.
  - intros g' grp'. rewrite lookup_insert_Some. intros [[<- <-]|[Hgg Hg']]; simpl.
    + intros Hcbs. rewrite decide_False; [done|].
      by destruct cbs.
    + intros Hcbs. pose proof (H4 _ _ Hg' Hcbs) as Hr.
      case_decide; [|done]. rewrite lookup_delete_ne; [done|]. congruence.
  - intros ms g' Hs.
    assert (schedulers st !! ms = Some g') as Hs'.
    { revert Hs. case_decide; [|done]. rewrite lookup_delete_Some. tauto. }
    destruct (H5 _ _ Hs') as (grp0 & Hg0 & Hms).
    destruct (decide (g = g')) as [<-|Hgg].
    + rewrite lookup_insert_eq. eexists; split; [done|]. simpl. congruence.
    + rewrite lookup_insert_ne by done. eauto.
  - done.
  - intros t tm Ht. eauto.
  - intros g' grp' t. rewrite lookup_insert_Some. intros [[<- <-]|[_ Hg']]; simpl.
    + intros Ht. destruct (H8 _ _ _ Hg Ht) as [? Hk]. split; [done|]. eauto.
    + intros Ht. destruct (H8 _ _ _ Hg' Ht) as [? Hk]. split; [done|]. eauto.
  - done.
  - intros g' grp' c. rewrite lookup_insert_Some. intros [[<- <-]|[_ ?]]; simpl; eauto.
    intros Hc%list_elem_of_delete_inv. eauto.
  - done.
Qed.

Lemma wf_getOrCreateScheduler ms st : wf st → wf (getOrCreateScheduler ms st).2.
Proof.
  intros Hwf. unfold getOrCreateScheduler.
  destruct (schedulers st !! ms) as [g|] eqn:Hs; [done|]. simpl.
  destruct Hwf as [H1 H2 H3 H4 H5 H6 H7 H8 H9 H10 H11].
  assert (groups st !! next_gid st = None) as Hfresh.
  { destruct (groups st !! next_gid st) eqn:E; [|done]. apply H1 in E. lia. }
  constructor; simpl; try done.
  - intros g grp. rewrite lookup_insert_Some. intros [[<- _]|[_ Hg]]; [lia|].
    apply H1 in Hg. lia.
  - intros g grp. rewrite lookup_insert_Some. intros [[<- <-]|[_ Hg]]; simpl; eauto.
    constructor.
  - intros g grp c. rewrite lookup_insert_Some. intros [[<- <-]|[_ Hg]]; simpl; eauto.
    by intros ?%elem_of_nil.
  - intros g grp. rewrite lookup_insert_Some. intros [[<- <-]|[Hne Hg]]; simpl; [done|].
    intros Hcbs. pose proof (H4 _ _ Hg Hcbs) as Hr.
    rewrite lookup_insert_ne; [done|]. congruence.
  - intros d g. rewrite lookup_insert_Some. intros [[<- <-]|[Hne Hs']].
    + rewrite lookup_insert_eq. eauto.
    + destruct (H5 _ _ Hs') as (grp & Hg & Hms).
      rewrite lookup_insert_ne; [eauto|]. congruence.
  - intros g grp t. rewrite lookup_insert_Some. intros [[<- <-]|[_ Hg]]; simpl; [done|].
    eauto.
  - intros g grp c. rewrite lookup_insert_Some. intros [[<- <-]|[_ Hg]]; simpl; eauto.
    by intros ?%elem_of_nil.
Qed.

Lemma wf_set_manager h m st :
  (∀ g c, m = Effect (Some (g, c)) →
     c < next_cid st ∧
     ∀ h' g', managers st !! h' = Some (Effect (Some (g', c))) → h' = h) →
  wf st → wf (set_manager h m st).
Proof.
  intros Hm [H1 H2 H3 H4 H5 H6 H7 H8 H9 H10 H11]. constructor; simpl; try done.
  - intros h' g c. rewrite lookup_insert_Some. intros [[_ ->]|[_ Hh]]; [|eauto].
    by apply (Hm g c).
  - intros h1 h2 g1 g2 c. rewrite !lookup_insert_Some.
    intros [[<- ->]|[Hn1 Hh1]] [[<- E]|[Hn2 Hh2]]; [done| | |by eauto].
    + symmetry. by eapply (Hm g1 c).
    + subst m. by eapply (Hm g2 c).
Qed.

Lemma scheduler_unfold g c st grp :
  groups st !! g = Some grp → indexOf c (g_callbacks grp) = None →
  let cbs := g_callbacks grp ++ [c] in
  (scheduler g c st).2 =
  State (schedulers st)
        (<[g := Group (g_ms grp) cbs
                 (if decide (length cbs = 1) then Some (next_tid st)
                  else g_timeout grp)]> (groups st))
        (next_gid st) (closures st) (next_cid st)
        (if decide (length cbs = 1)
         then <[next_tid st := Timer (InvokeCallbacks g) (g_ms grp)]> (timers st)
         else timers st)
        (if decide (length cbs = 1) then S (next_tid st) else next_tid st)
        (managers st) (log st ++ [Pushed g c]).
Proof.
  intros Hg Hi. unfold scheduler. rewrite Hg, Hi. cbv zeta.
  case_decide; simpl; [|done].
  unfold set_group. simpl. by rewrite insert_insert_eq.
Qed.

Lemma scheduler_fst g c st : (scheduler g c st).1 = (g, c).
Proof.
  unfold scheduler. destruct (groups st !! g); [|done].
  destruct (indexOf c _); [done|]. cbv zeta. case_decide; [|done].
  by destruct (setTimeout _ _ _).
Qed.

Lemma wf_scheduler g c st :
  wf st →
  (∀ g' grp' x, groups st !! g' = Some grp' → x ∈ g_callbacks grp' → x < c) →
  is_Some (closures st !! c) →
  (∀ grp, groups st !! g = Some grp → schedulers st !! g_ms grp = Some g) →
  wf (scheduler g c st).2.
Proof.
  intros Hwf Hc Hcl Hreg.
  assert (c < next_cid st) as Hlt.
  { destruct Hcl as [x Hx]. by eapply wf_closures. }
  destruct (groups st !! g) as [grp|] eqn:Hg;
    [|by unfold scheduler; rewrite Hg].
  destruct (indexOf c (g_callbacks grp)) as [i|] eqn:Hi;
    [by unfold scheduler; rewrite Hg, Hi|].
  rewrite (scheduler_unfold _ _ _ _ Hg Hi). cbv zeta.
  destruct Hwf as [H1 H2 H3 H4 H5 H6 H7 H8 H9 H10 H11].
  set (cbs := g_callbacks grp ++ [c]).
  constructor; simpl; try done.
  - intros g' grp'. rewrite lookup_insert_Some. intros [[<- _]|[_ ?]]; eauto.
  - intros g' grp'. rewrite lookup_insert_Some. intros [[<- <-]|[_ ?]]; simpl; eauto.
    apply StronglySorted_snoc; eauto.
  - intros g' grp' x. rewrite lookup_insert_Some. intros [[<- <-]|[_ ?]]; simpl; eauto.
    unfold cbs. rewrite elem_of_app, list_elem_of_singleton.
    intros [?| ->]; eauto.
  - intros g' grp'. rewrite lookup_insert_Some. intros [[<- <-]|[_ ?]]; simpl; eauto.
  - intros ms g' Hs. destruct (H5 _ _ Hs) as (grp0 & Hg0 & Hms).
    destruct (decide (g = g')) as [<-|Hgg].
    + rewrite lookup_insert_eq. eexists; split; [done|]. simpl. congruence.
    + rewrite lookup_insert_ne by done. eauto.
  - intros t tm. case_decide; [|by eauto].
    rewrite lookup_insert_Some. intros [[<- _]|[_ Ht]]; [lia|].
    apply H7 in Ht. lia.
  - intros g' grp' t. rewrite lookup_insert_Some.
    intros [[<- <-]|[Hgg Hg']]; simpl.
    + case_decide.
      * intros [= <-]. split; [lia|]. intros tm. rewrite lookup_insert_eq.
        by intros [= <-].
      * intros Ht. destruct (H8 _ _ _ Hg Ht) as [? Hk]. done.
    + intros Ht. destruct (H8 _ _ _ Hg' Ht) as [? Hk]. case_decide; [|done].
      split; [lia|]. intros tm. rewrite lookup_insert_ne by lia. eauto.
  - intros g' grp' x. rewrite lookup_insert_Some. intros [[<- <-]|[_ ?]]; simpl; eauto.
    unfold cbs. rewrite elem_of_app, list_elem_of_singleton.
    intros [?| ->]; eauto.
Qed.

Lemma managers_scheduler g c st : managers (scheduler g c st).2 = managers st.
Proof.
  unfold scheduler. destruct (groups st !! g); [|done].
  destruct (indexOf _ _); [done|]. cbv zeta. by case_decide.
Qed.

Lemma wf_doCancel h st : wf st → wf (doCancel h st).
Proof.
  intros Hwf. unfold doCancel.
  destruct (manager_of st h) as [|[a|]]; try done.
  apply wf_set_manager; [done|]. by apply wf_abort.
Qed.

Lemma wf_doSchedule h cb ms args st : wf st → wf (doSchedule h cb ms args st).
Proof.
  intros Hwf. unfold doSchedule. destruct (manager_of st h); [done|].
  pose proof (wf_doCancel h _ Hwf) as Hwf1.
  pose proof (wf_getOrCreateScheduler (delay_key ms) _ Hwf1) as Hwf2.
  pose proof (getOrCreateScheduler_registers (delay_key ms) (doCancel h st)) as Hreg.
  destruct (getOrCreateScheduler (delay_key ms) (doCancel h st)) as [g st2].
  simpl in Hwf2, Hreg. cbv zeta.
  set (st3 := State _ _ _ _ _ _ _ _ _).
  assert (wf st3) as Hwf3.
  { destruct Hwf2 as [H1 H2 H3 H4 H5 H6 H7 H8 H9 H10 H11].
    constructor; simpl; try done.
    - intros. apply Nat.lt_lt_succ_r. eauto.
    - intros. apply Nat.lt_lt_succ_r. eauto.
    - intros c x. rewrite lookup_insert_Some. intros [[<- _]|[_ Hc]]; [lia|].
      apply Nat.lt_lt_succ_r. eauto.
    - intros g' grp' c Hg' Hc. destruct (H10 _ _ _ Hg' Hc) as [x Hx].
      exists x. rewrite lookup_insert_ne; [done|]. apply H9 in Hx. lia. }
  pose proof (wf_scheduler g (next_cid st2) st3 Hwf3) as Hwf4.
  pose proof (scheduler_fst g (next_cid st2) st3) as Hfst.
  assert (next_cid (scheduler g (next_cid st2) st3).2 = S (next_cid st2)) as Hnc.
  { unfold scheduler. destruct (groups st3 !! g); [|done].
    destruct (indexOf _ _); [done|]. cbv zeta. by case_decide. }
  pose proof (managers_scheduler g (next_cid st2) st3) as Hmgr.
  destruct (scheduler g (next_cid st2) st3) as [a st4]. simpl in *. subst a.
  apply wf_set_manager.
  - intros ?? [= <- <-]. split; [lia|]. intros h' g'. rewrite Hmgr. intros Hh'.
    apply (wf_aborts _ Hwf2) in Hh'. lia.
  - apply Hwf4.
    + intros g' grp' x Hg' Hx. eapply (wf_cfresh _ Hwf2); eauto.
    + simpl. rewrite lookup_insert_eq. eauto.
    + intros grp Hg. destruct (wf_schedulers _ Hwf2 _ _ Hreg) as (grp0 & Hg0 & Hms).
      simpl in Hg. congruence.
Qed.

Lemma wf_effect h st : wf st → wf (effect h st).
Proof. intros Hwf. by apply wf_set_manager. Qed.

Lemma wf_cleanup h st : wf st → wf (cleanup h st).
Proof. intros Hwf. apply wf_set_manager; [done|]. by apply wf_doCancel. Qed.

Lemma wf_run_call k st : wf st → wf (run_call k st).
Proof. destruct k; [apply wf_doSchedule|apply wf_doCancel]. Qed.

Lemma wf_run_calls ks st : wf st → wf (run_calls ks st).
Proof.
  revert st. induction ks as [|k ks IH]; intros st Hwf; [done|].
  simpl. apply IH. by apply wf_run_call.
Qed.

Lemma wf_clearTimeout o st : wf st → wf (clearTimeout o st).
Proof.
  destruct o as [t|]; [|done].
  intros [H1 H2 H3 H4 H5 H6 H7 H8 H9 H10 H11]. constructor; simpl; try done.
  - intros t' tm. rewrite lookup_delete_Some. intros [_ ?]. eauto.
  - intros g grp t' Hg Ht. destruct (H8 _ _ _ Hg Ht) as [? Hk].
    split; [done|]. intros tm. rewrite lookup_delete_Some. intros [_ ?]. eauto.
Qed.

Section DispatchInvariant.
Variable prog : program.

Lemma wf_invoke c st : wf st → wf (invoke prog c st).1.
Proof.
  intros Hwf. unfold invoke. destruct (closures st !! c) as [[f args]|]; simpl.
  - by apply wf_run_calls, wf_emit.
  - by apply wf_emit.
Qed.

Lemma wf_attempt c st : wf st → wf (attempt prog c st).
Proof.
  intros Hwf. unfold attempt. pose proof (wf_invoke c st Hwf) as Hwf1.
  destruct (invoke prog c st) as [st1 [e|]]; [|done].
  by apply wf_setTimeout, wf_emit.
Qed.

Lemma wf_dispatch fuel g i st : wf st → wf (state_of (dispatch prog fuel g i st)).
Proof.
  revert i st. induction fuel as [|fuel IH]; intros i st Hwf; simpl; [done|].
  destruct (callbacks_of g st !! i); [|done]. by apply IH, wf_attempt.
Qed.

Lemma wf_rearm g st : wf st → wf (rearm g st).
Proof.
  intros Hwf. unfold rearm. destruct (groups st !! g) as [grp|] eqn:Hg; [|done].
  destruct Hwf as [H1 H2 H3 H4 H5 H6 H7 H8 H9 H10 H11]. constructor; simpl; try done.
  - intros g' grp'. rewrite lookup_insert_Some. intros [[<- _]|[_ ?]]; eauto.
  - intros g' grp'. rewrite lookup_insert_Some. intros [[<- <-]|[_ ?]]; simpl; eauto.
  - intros g' grp' x. rewrite lookup_insert_Some. intros [[<- <-]|[_ ?]]; simpl; eauto.
  - intros g' grp'. rewrite lookup_insert_Some. intros [[<- <-]|[_ ?]]; simpl; eauto.
  - intros ms g' Hs. destruct (H5 _ _ Hs) as (grp0 & Hg0 & Hms).
    destruct (decide (g = g')) as [<-|Hgg].
    + rewrite lookup_insert_eq. eexists; split; [done|]. simpl. congruence.
    + rewrite lookup_insert_ne by done. eauto.
  - intros t tm. rewrite lookup_insert_Some. intros [[<- _]|[_ Ht]]; [lia|].
    apply H7 in Ht. lia.
  - intros g' grp' t. rewrite lookup_insert_Some.
    intros [[<- <-]|[Hgg Hg']]; simpl.
    + intros [= <-]. split; [lia|]. intros tm. rewrite lookup_insert_eq.
      by intros [= <-].
    + intros Ht. destruct (H8 _ _ _ Hg' Ht) as [? Hk].
      split; [lia|]. intros tm. rewrite lookup_insert_ne by lia. eauto.
  - intros g' grp' x. rewrite lookup_insert_Some. intros [[<- <-]|[_ ?]]; simpl; eauto.
Qed.

Lemma wf_invokeCallbacks fuel g st :
  wf st → wf (state_of (invokeCallbacks prog fuel g st)).
Proof.
  intros Hwf. unfold invokeCallbacks.
  pose proof (wf_dispatch fuel g 0 st Hwf) as Hd.
  destruct (dispatch prog fuel g 0 st); simpl in *; [|done].
  by apply wf_rearm.
Qed.

Lemma wf_fire fuel t st : wf st → wf (state_of (fire prog fuel t st)).
Proof.
  intros Hwf. unfold fire. destruct (timers st !! t) as [tm|]; [|done].
  destruct (t_task tm).
  - by apply wf_invokeCallbacks, wf_clearTimeout.
  - by apply wf_emit, wf_clearTimeout.
Qed.
End DispatchInvariant.

(** ** What one operation does to the log and the arrays *)

Lemma callbacks_of_lookup g st grp :
  groups st !! g = Some grp → callbacks_of g st = g_callbacks grp.
Proof. intros H. unfold callbacks_of. by rewrite H. Qed.

Lemma invoked_app e1 e2 : invoked (e1 ++ e2) = invoked e1 ++ invoked e2.
Proof. apply omap_app. Qed.
Lemma pushed_app g e1 e2 : pushed g (e1 ++ e2) = pushed g e1 ++ pushed g e2.
Proof. apply omap_app. Qed.
Lemma spliced_app g e1 e2 : spliced g (e1 ++ e2) = spliced g e1 ++ spliced g e2.
Proof. apply omap_app. Qed.
Lemma caught_app e1 e2 : caught (e1 ++ e2) = caught e1 ++ caught e2.
Proof. apply omap_app. Qed.

Lemma events_since_app st st' evs :
  log st' = log st ++ evs → events_since st st' = evs.
Proof. intros H. unfold events_since. by rewrite H, drop_app_length. Qed.

Lemma follows_refl st : follows st st [].
Proof.
  constructor; try done.
  - by rewrite app_nil_r.
  - intros g _. by rewrite app_nil_r.
  - intros g j x Hx. right. eauto.
  - eauto.
Qed.

Lemma elem_of_delete_ne (l : list nat) i x y :
  l !! i = Some y → x ≠ y → x ∈ l → x ∈ delete i l.
Proof.
  revert i. induction l as [|z l IH]; intros i; [done|].
  destruct i as [|i]; simpl.
  - intros [= ->] Hne. rewrite elem_of_cons. by intros [?|?].
  - intros Hi Hne. rewrite !elem_of_cons. intros [?|?]; [by left|right; eauto].
Qed.

Lemma follows_trans st st1 st2 e1 e2 :
  follows st st1 e1 → follows st1 st2 e2 → follows st st2 (e1 ++ e2).
Proof.
  intros [A1 A2 A3 A4 A5 A6 A7 A8 A9] [B1 B2 B3 B4 B5 B6 B7 B8 B9]. constructor.
  - by rewrite B1, A1, app_assoc.
  - intros g. rewrite spliced_app, pushed_app. intros [E1 E2]%app_eq_nil.
    by rewrite B2, A2, app_assoc.
  - lia.
  - intros g j x Hx. destruct (B4 _ _ _ Hx) as [?|(j' & Hj & Hx')]; [left; lia|].
    destruct (A4 _ _ _ Hx') as [?|(j'' & Hj' & Hx'')]; [by left|].
    right. exists j''. split; [lia|done].
  - eauto.
  - eauto.
  - intros g grp Hg. destruct (A7 _ _ Hg) as (grp1 & Hg1 & E1).
    destruct (B7 _ _ Hg1) as (grp2 & Hg2 & E2). exists grp2. split; [done|congruence].
  - eauto.
  - intros g c Hc. rewrite spliced_app, not_elem_of_app. intros [? ?]. eauto.
Qed.

Lemma silent_app e1 e2 : silent e1 → silent e2 → silent (e1 ++ e2).
Proof.
  intros [A B] [C D]. split; [by rewrite invoked_app, A, C|by rewrite caught_app, B, D].
Qed.

Lemma follows_emit e st :
  (∀ g, pushed g [e] = []) → follows st (emit e st) [e].
Proof.
  intros He. constructor.
  - done.
  - intros g _. by rewrite He, app_nil_r.
  - done.
  - intros g j x Hx. right. eauto.
  - done.
  - done.
  - eauto.
  - done.
  - done.
Qed.

Lemma follows_set_manager h m st :
  manager_of st h ≠ Noop ∨ m = Noop → follows st (set_manager h m st) [].
Proof.
  intros Hm. constructor.
  - simpl. by rewrite app_nil_r.
  - intros g _. by rewrite app_nil_r.
  - done.
  - intros g j x Hx. right. eauto.
  - done.
  - done.
  - eauto.
  - intros h'. unfold manager_of. simpl.
    destruct (decide (h = h')) as [<-|Hne].
    + rewrite lookup_insert_eq. simpl. intros Hn. by destruct Hm.
    + by rewrite lookup_insert_ne.
  - done.
Qed.

Lemma follows_setTimeout k d st :
  wf st → follows st (setTimeout k d st).2 [].
Proof.
  intros Hwf. constructor.
  - simpl. by rewrite app_nil_r.
  - intros g _. by rewrite app_nil_r.
  - done.
  - intros g j x Hx. right. eauto.
  - intros t e d' Ht. simpl. rewrite lookup_insert_ne; [done|].
    apply (wf_tfresh _ Hwf) in Ht. lia.
  - done.
  - eauto.
  - done.
  - done.
Qed.

Lemma follows_clearTimeout t st :
  (∀ e d, timers st !! t ≠ Some (Timer (Rethrow e) d)) →
  follows st (clearTimeout (Some t) st) [].
Proof.
  intros Ht. constructor.
  - simpl. by rewrite app_nil_r.
  - intros g _. by rewrite app_nil_r.
  - done.
  - intros g j x Hx. right. eauto.
  - intros t' e d Ht'. simpl. rewrite lookup_delete_ne; [done|].
    intros ->. by eapply Ht.
  - done.
  - eauto.
  - done.
  - done.
Qed.

Lemma follows_abort a st :
  wf st → ∃ evs, follows st (abort a st) evs ∧ silent evs.
Proof.
  destruct a as [g cb]. intros Hwf.
  destruct (groups st !! g) as [grp|] eqn:Hg;
    [|exists []; unfold abort; rewrite Hg; split; [apply follows_refl|done]].
  destruct (indexOf cb (g_callbacks grp)) as [i|] eqn:Hi;
    [|exists []; unfold abort; rewrite Hg, Hi; split; [apply follows_refl|done]].
  exists [Spliced g cb]. split; [|done].
  rewrite (abort_unfold _ _ _ _ _ Hg Hi). cbv zeta.
  constructor.
  - done.
  - intros g'. unfold callbacks_of. simpl. case_decide as Hgg; [done|].
    intros _. rewrite lookup_insert_ne by done. by rewrite app_nil_r.
  - done.
  - intros g' j x. unfold callbacks_of. simpl.
    destruct (decide (g = g')) as [<-|Hgg].
    + rewrite lookup_insert_eq, Hg. simpl. intros Hx. right.
      destruct (decide (j < i)).
      * rewrite list_lookup_delete_lt in Hx by done. eauto.
      * rewrite list_lookup_delete_ge in Hx by lia. exists (S j). split; [lia|done].
    + rewrite lookup_insert_ne by done. intros Hx. right. eauto.
  - intros t e d Ht. simpl. case_decide; [|done].
    destruct (g_timeout grp) as [t0|] eqn:Ht0; simpl; [|done].
    rewrite lookup_delete_ne; [done|]. intros ->.
    destruct (wf_timeout _ Hwf _ _ _ Hg Ht0) as [_ Hk].
    by specialize (Hk _ Ht).
  - done.
  - intros g' grp'. simpl. destruct (decide (g = g')) as [<-|Hgg].
    + rewrite lookup_insert_eq. intros. eexists. split; [done|]. simpl. congruence.
    + rewrite lookup_insert_ne by done. eauto.
  - done.
  - intros g' c. unfold callbacks_of. simpl.
    destruct (decide (g = g')) as [<-|Hgg].
    + rewrite lookup_insert_eq, Hg. simpl. rewrite list_elem_of_singleton.
      intros Hc Hne. eapply elem_of_delete_ne; [by apply indexOf_Some|done|done].
    + by rewrite lookup_insert_ne.
Qed.

Lemma follows_getOrCreateScheduler ms st :
  wf st → follows st (getOrCreateScheduler ms st).2 [].
Proof.
  intros Hwf. unfold getOrCreateScheduler.
  destruct (schedulers st !! ms) as [g|] eqn:Hs; [apply follows_refl|]. simpl.
  assert (groups st !! next_gid st = None) as Hfresh.
  { destruct (groups st !! next_gid st) eqn:E; [|done].
    apply (wf_gfresh _ Hwf) in E. lia. }
  assert (∀ g, callbacks_of g
     (State (<[ms:=next_gid st]> (schedulers st))
        (<[next_gid st:=Group ms [] None]> (groups st)) (S (next_gid st))
        (closures st) (next_cid st) (timers st) (next_tid st) (managers st)
        (log st)) = callbacks_of g st) as Hcb.
  { intros g. unfold callbacks_of. simpl.
    destruct (decide (next_gid st = g)) as [<-|Hne].
    - by rewrite lookup_insert_eq, Hfresh.
    - by rewrite lookup_insert_ne. }
  constructor.
  - simpl. by rewrite app_nil_r.
  - intros g _. by rewrite Hcb, app_nil_r.
  - done.
  - intros g j x. rewrite Hcb. eauto.
  - done.
  - done.
  - intros g grp Hg. simpl. rewrite lookup_insert_ne; [eauto|]. congruence.
  - done.
  - intros g c. by rewrite Hcb.
Qed.

Lemma managers_abort a st : managers (abort a st) = managers st.
Proof.
  destruct a as [g cb]. unfold abort. destruct (groups st !! g); [|done].
  destruct (indexOf _ _); [|done]. cbv zeta. case_decide; [|done].
  by destruct (g_timeout _).
Qed.

Lemma managers_getOrCreateScheduler ms st :
  managers (getOrCreateScheduler ms st).2 = managers st.
Proof. unfold getOrCreateScheduler. by destruct (schedulers st !! ms). Qed.

Lemma follows_doCancel h st :
  wf st → ∃ evs, follows st (doCancel h st) evs ∧ silent evs.
Proof.
  intros Hwf. unfold doCancel.
  destruct (manager_of st h) as [|[a|]] eqn:Hm;
    try (exists []; split; [apply follows_refl|done]).
  destruct (follows_abort a st Hwf) as (evs & Hf & Hs).
  exists (evs ++ []). split; [|by rewrite app_nil_r].
  eapply follows_trans; [done|]. apply follows_set_manager. left.
  unfold manager_of in *. rewrite managers_abort. by rewrite Hm.
Qed.

(** Allocation of the wrapper closure followed by [scheduler(closure)]. *)
Lemma follows_push g cb args st :
  wf st →
  let c := next_cid st in
  let st3 :=
    State (schedulers st) (groups st) (next_gid st)
          (<[c := (cb, args)]> (closures st)) (S c) (timers st)
          (next_tid st) (managers st) (log st) in
  ∃ evs, follows st (scheduler g c st3).2 evs ∧ silent evs.
Proof.
  intros Hwf c st3.
  assert (follows st st3 []) as H3.
  { constructor.
    - simpl. by rewrite app_nil_r.
    - intros g' _. by rewrite app_nil_r.
    - simpl. lia.
    - intros g' j x Hx. right. eauto.
    - done.
    - intros c' x Hc'. simpl. rewrite lookup_insert_ne; [done|].
      apply (wf_closures _ Hwf) in Hc'. unfold c. lia.
    - eauto.
    - done.
    - done. }
  destruct (groups st3 !! g) as [grp|] eqn:Hg;
    [|exists []; unfold scheduler; rewrite Hg; split; done].
  destruct (indexOf c (g_callbacks grp)) as [i|] eqn:Hi;
    [exists []; unfold scheduler; rewrite Hg, Hi; split; done|].
  exists [Pushed g c]. split; [|done].
  rewrite (scheduler_unfold _ _ _ _ Hg Hi). cbv zeta. simpl in Hg.
  constructor.
  - done.
  - intros g' _. unfold callbacks_of, pushed. simpl.
    destruct (decide (g = g')) as [<-|Hgg].
    + by rewrite lookup_insert_eq, Hg.
    + rewrite lookup_insert_ne by done. by rewrite app_nil_r.
  - simpl. lia.
  - intros g' j x. unfold callbacks_of. simpl.
    destruct (decide (g = g')) as [<-|Hgg].
    + rewrite lookup_insert_eq, Hg. simpl. intros Hx.
      apply lookup_app_Some in Hx as [Hx|[_ Hx]]; [right; eauto|].
      left. apply list_lookup_singleton_Some in Hx as [_ <-]. done.
    + rewrite lookup_insert_ne by done. intros Hx. right. eauto.
  - intros t e d Ht. simpl. case_decide; [|done].
    rewrite lookup_insert_ne; [done|]. apply (wf_tfresh _ Hwf) in Ht. lia.
  - apply H3.
  - intros g' grp'. simpl. destruct (decide (g = g')) as [<-|Hgg].
    + rewrite lookup_insert_eq. intros. eexists. split; [done|]. simpl. congruence.
    + rewrite lookup_insert_ne by done. eauto.
  - done.
  - intros g' x. unfold callbacks_of. simpl.
    destruct (decide (g = g')) as [<-|Hgg].
    + rewrite lookup_insert_eq, Hg. simpl. intros Hx _. apply elem_of_app. by left.
    + by rewrite lookup_insert_ne.
Qed.

Lemma manager_of_doCancel h st :
  manager_of st h ≠ Noop → manager_of (doCancel h st) h ≠ Noop.
Proof.
  unfold doCancel. destruct (manager_of st h) as [|[a|]] eqn:Hm; try by rewrite Hm.
  intros _. unfold manager_of. simpl. by rewrite lookup_insert_eq.
Qed.

Lemma follows_doSchedule h cb ms args st :
  wf st → ∃ evs, follows st (doSchedule h cb ms args st) evs ∧ silent evs.
Proof.
  intros Hwf. unfold doSchedule.
  destruct (manager_of st h) as [|o] eqn:Hm;
    [exists []; split; [apply follows_refl|done]|].
  destruct (follows_doCancel h st Hwf) as (e1 & Hf1 & Hs1).
  pose proof (wf_doCancel h _ Hwf) as Hwf1.
  assert (manager_of (doCancel h st) h ≠ Noop) as Hm1.
  { apply manager_of_doCancel. by rewrite Hm. }
  pose proof (follows_getOrCreateScheduler (delay_key ms) _ Hwf1) as Hf2.
  pose proof (wf_getOrCreateScheduler (delay_key ms) _ Hwf1) as Hwf2.
  pose proof (managers_getOrCreateScheduler (delay_key ms) (doCancel h st)) as Hm2.
  destruct (getOrCreateScheduler (delay_key ms) (doCancel h st)) as [g st2].
  simpl in Hf2, Hwf2, Hm2. cbv zeta.
  destruct (follows_push g cb args st2 Hwf2) as (e3 & Hf3 & Hs3).
  cbv zeta in Hf3.
  set (st3 := State _ _ _ _ _ _ _ _ _) in *.
  pose proof (managers_scheduler g (next_cid st2) st3) as Hm4.
  destruct (scheduler g (next_cid st2) st3) as [a st4]. simpl in Hf3, Hm4.
  exists (e1 ++ ([] ++ (e3 ++ []))). split.
  - eapply follows_trans; [done|]. eapply follows_trans; [done|].
    eapply follows_trans; [done|]. apply follows_set_manager. left.
    unfold manager_of in *. by rewrite Hm4, Hm2.
  - simpl. rewrite app_nil_r. by apply silent_app.
Qed.

Lemma follows_run_call k st :
  wf st → ∃ evs, follows st (run_call k st) evs ∧ silent evs.
Proof. destruct k; [apply follows_doSchedule|apply follows_doCancel]. Qed.

Lemma follows_run_calls ks st :
  wf st → ∃ evs, follows st (run_calls ks st) evs ∧ silent evs.
Proof.
  revert st. induction ks as [|k ks IH]; intros st Hwf.
  - exists []. split; [apply follows_refl|done].
  - destruct (follows_run_call k st Hwf) as (e1 & Hf1 & Hs1).
    destruct (IH (run_call k st) (wf_run_call _ _ Hwf)) as (e2 & Hf2 & Hs2).
    exists (e1 ++ e2). split; [by eapply follows_trans|by apply silent_app].
Qed.

Lemma follows_cleanup h st :
  wf st → ∃ evs, follows st (cleanup h st) evs ∧ silent evs.
Proof.
  intros Hwf. destruct (follows_doCancel h st Hwf) as (evs & Hf & Hs).
  exists (evs ++ []). split; [|by rewrite app_nil_r].
  eapply follows_trans; [done|]. apply follows_set_manager. by right.
Qed.

(** ** The dispatch loop *)

Lemma StronglySorted_lookup_lt (l : list nat) i j a b :
  StronglySorted lt l → l !! i = Some a → l !! j = Some b → i < j → a < b.
Proof.
  intros Hs. revert i j. induction Hs as [|x l Hl IH Hx]; intros i j; [done|].
  destruct i as [|i], j as [|j]; simpl; try lia.
  - intros [= <-] Hb _. rewrite Forall_forall in Hx. apply Hx.
    by eapply list_elem_of_lookup_2.
  - intros Ha Hb Hlt. apply (IH i j); [done|done|lia].
Qed.

Section DispatchFollows.
Variable prog : program.

Lemma invoke_throws c st f args :
  closures st !! c = Some (f, args) →
  (invoke prog c st).2 = throws (prog f args st).
Proof. intros H. unfold invoke. by rewrite H. Qed.

Lemma follows_invoke c st :
  wf st →
  ∃ evs, follows st (invoke prog c st).1 (Invoked c :: evs) ∧ silent evs.
Proof.
  intros Hwf. unfold invoke.
  assert (follows st (emit (Invoked c) st) [Invoked c]) as H1.
  { by apply follows_emit. }
  destruct (closures st !! c) as [[f args]|]; simpl.
  - destruct (follows_run_calls (calls (prog f args st)) _ (wf_emit (Invoked c) _ Hwf))
      as (evs & Hf & Hs).
    exists evs. split; [|done]. by apply (follows_trans _ (emit (Invoked c) st) _ [Invoked c] evs).
  - exists []. by split.
Qed.

Lemma follows_attempt c st :
  wf st →
  ∃ evs, follows st (attempt prog c st) evs ∧ invoked evs = [c] ∧
    caught evs = from_option (λ e, [e]) [] (invoke prog c st).2 ∧
    ∀ e, e ∈ caught evs →
      ∃ t, timers (attempt prog c st) !! t = Some (Timer (Rethrow e) 0).
Proof.
  intros Hwf. unfold attempt.
  destruct (follows_invoke c st Hwf) as (evs & Hf & [Hs1 Hs2]).
  pose proof (wf_invoke prog c st Hwf) as Hwf1.
  destruct (invoke prog c st) as [st1 [e|]]; simpl in *.
  - exists ((Invoked c :: evs) ++ ([Caught c e] ++ [])). split_and!.
    + eapply follows_trans; [done|]. eapply follows_trans.
      * by apply follows_emit.
      * by apply (follows_setTimeout (Rethrow e) 0 (emit (Caught c e) st1)), wf_emit.
    + rewrite invoked_app. simpl. rewrite Hs1. done.
    + rewrite caught_app. simpl. by rewrite Hs2.
    + rewrite caught_app. simpl. rewrite Hs2. simpl.
      intros e' ->%list_elem_of_singleton.
      exists (next_tid st1). by rewrite lookup_insert_eq.
  - exists (Invoked c :: evs). split_and!; [done| | |].
    + simpl. by rewrite Hs1.
    + done.
    + simpl. rewrite Hs2. by intros e ?%elem_of_nil.
Qed.

Lemma follows_dispatch fuel g i st :
  wf st →
  let st' := state_of (dispatch prog fuel g i st) in
  ∃ evs,
    follows st st' evs ∧
    StronglySorted lt (invoked evs) ∧
    Forall (λ x, next_cid st ≤ x ∨
                 ∃ j, i ≤ j ∧ callbacks_of g st !! j = Some x) (invoked evs) ∧
    (∀ e, e ∈ caught evs →
       ∃ t, timers st' !! t = Some (Timer (Rethrow e) 0)) ∧
    (dispatch prog fuel g i st = Done st' → spliced g evs = [] →
     invoked evs = drop i (callbacks_of g st')).
Proof.
  revert i st. induction fuel as [|fuel IH]; intros i st Hwf; simpl.
  { exists []. split_and!; [apply follows_refl|constructor|constructor| |done].
    by intros ? ?%elem_of_nil. }
  destruct (callbacks_of g st !! i) as [c|] eqn:Hc; simpl.
  2:{ exists []. split_and!; [apply follows_refl|constructor|constructor| |].
      - by intros ? ?%elem_of_nil.
      - intros _ _. symmetry. apply drop_ge. by apply lookup_ge_None. }
  destruct (follows_attempt c st Hwf) as (e1 & Hf1 & Hi1 & _ & Hr1).
  pose proof (wf_attempt prog c st Hwf) as Hwf1.
  destruct (IH (S i) _ Hwf1) as (e2 & Hf2 & HA & HB & HC & HD).
  set (st1 := attempt prog c st) in *.
  set (st' := state_of (dispatch prog fuel g (S i) st1)) in *.
  pose proof (follows_trans _ _ _ _ _ Hf1 Hf2) as Hf.
  assert (∃ grp, groups st !! g = Some grp ∧ g_callbacks grp = callbacks_of g st)
    as (grp & Hg & Hcbs).
  { unfold callbacks_of in *. destruct (groups st !! g) as [grp|]; [eauto|done]. }
  assert (c ∈ g_callbacks grp) as Hcin.
  { rewrite Hcbs. by eapply list_elem_of_lookup_2. }
  assert (∀ x, x ∈ invoked e2 →
            next_cid st ≤ x ∨ ∃ j, S i ≤ j ∧ callbacks_of g st !! j = Some x) as Hlater.
  { intros x Hx. rewrite Forall_forall in HB.
    destruct (HB _ Hx) as [Hn|(j & Hj & Hjx)].
    - left. pose proof (f_next_cid _ _ _ Hf1). lia.
    - destruct (f_shift _ _ _ Hf1 _ _ _ Hjx) as [?|(j' & Hj' & Hx')]; [by left|].
      right. exists j'. split; [lia|done]. }
  exists (e1 ++ e2). rewrite invoked_app, Hi1. simpl. split_and!.
  - done.
  - apply StronglySorted_cons. split; [|done].
    apply Forall_forall. intros x Hx.
    destruct (Hlater _ Hx) as [Hn|(j & Hj & Hjx)].
    + pose proof (wf_cfresh _ Hwf _ _ _ Hg Hcin). lia.
    + rewrite <- Hcbs in Hc, Hjx.
      eapply (StronglySorted_lookup_lt (g_callbacks grp) i j);
        [exact (wf_sorted _ Hwf _ _ Hg)|done|done|lia].
  - constructor; [right; eauto|].
    apply Forall_forall. intros x Hx.
    destruct (Hlater _ Hx) as [Hn|(j & Hj & Hjx)]; [by left|].
    right. exists j. split; [lia|done].
  - intros e. rewrite caught_app, elem_of_app. intros [He|He]; [|eauto].
    destruct (Hr1 e He) as (t & Ht).
    exists t. by apply (f_rethrow _ _ _ Hf2).
  - intros Hdone. rewrite spliced_app. intros [E1 E2]%app_eq_nil.
    assert (callbacks_of g st' !! i = Some c) as Hc'.
    { rewrite (f_callbacks _ _ _ Hf g) by (by rewrite spliced_app, E1, E2).
      by apply lookup_app_l_Some. }
    rewrite (drop_S _ _ _ Hc'). f_equal. apply HD; [|done].
    destruct (dispatch prog fuel g (S i) st1) eqn:E; simpl in *; [|done].
    done.
Qed.
End DispatchFollows.

(** ** One tick *)

Section Tick.
Variable prog : program.

Lemma follows_rearm g st : wf st → follows st (rearm g st) [].
Proof.
  intros Hwf. unfold rearm.
  destruct (groups st !! g) as [grp|] eqn:Hg; [|apply follows_refl].
  assert (∀ g', callbacks_of g'
    (set_group g (Group (g_ms grp) (g_callbacks grp) (Some (next_tid st)))
       (setTimeout (InvokeCallbacks g) (g_ms grp) st).2) = callbacks_of g' st)
    as Hcb.
  { intros g'. unfold callbacks_of. simpl.
    destruct (decide (g = g')) as [<-|Hne].
    - by rewrite lookup_insert_eq, Hg.
    - by rewrite lookup_insert_ne. }
  constructor.
  - simpl. by rewrite app_nil_r.
  - intros g' _. by rewrite app_nil_r, Hcb.
  - done.
  - intros g' j x. rewrite Hcb. eauto.
  - intros t e d Ht. simpl. rewrite lookup_insert_ne; [done|].
    apply (wf_tfresh _ Hwf) in Ht. lia.
  - done.
  - intros g' grp'. simpl. destruct (decide (g = g')) as [<-|Hgg].
    + rewrite lookup_insert_eq. intros. eexists. split; [done|]. simpl. congruence.
    + rewrite lookup_insert_ne by done. eauto.
  - done.
  - intros g' c. by rewrite Hcb.
Qed.

Lemma rearm_armed g st grp :
  groups st !! g = Some grp →
  ∃ grp' t, groups (rearm g st) !! g = Some grp' ∧
    g_ms grp' = g_ms grp ∧ g_callbacks grp' = g_callbacks grp ∧
    g_timeout grp' = Some t ∧
    timers (rearm g st) !! t = Some (Timer (InvokeCallbacks g) (g_ms grp)).
Proof.
  intros Hg. unfold rearm. rewrite Hg. simpl.
  eexists _, (next_tid st). rewrite !lookup_insert_eq. done.
Qed.

(** One completed tick. *)
Lemma invokeCallbacks_Done fuel g st st' :
  wf st → invokeCallbacks prog fuel g st = Done st' →
  ∃ evs,
    follows st st' evs ∧
    StronglySorted lt (invoked evs) ∧
    (∀ e, e ∈ caught evs →
       ∃ t, timers st' !! t = Some (Timer (Rethrow e) 0)) ∧
    (spliced g evs = [] → invoked evs = callbacks_of g st ++ pushed g evs) ∧
    (∀ grp, groups st !! g = Some grp →
       ∃ grp' t, groups st' !! g = Some grp' ∧ g_timeout grp' = Some t ∧
         timers st' !! t = Some (Timer (InvokeCallbacks g) (g_ms grp))).
Proof.
  intros Hwf. unfold invokeCallbacks.
  destruct (follows_dispatch prog fuel g 0 st Hwf) as (evs & Hf & HA & _ & HC & HD).
  pose proof (wf_dispatch prog fuel g 0 st Hwf) as Hwf1.
  destruct (dispatch prog fuel g 0 st) as [st1|st1] eqn:E; [|done].
  intros [= <-]. simpl in *.
  pose proof (follows_rearm g st1 Hwf1) as Hr.
  pose proof (follows_trans _ _ _ _ _ Hf Hr) as Hf'. rewrite app_nil_r in Hf'.
  exists evs. split_and!; [done|done| | |].
  - intros e He. destruct (HC _ He) as (t & Ht).
    exists t. by apply (f_rethrow _ _ _ Hr).
  - intros Hq. rewrite (HD eq_refl Hq), drop_0.
    by apply (f_callbacks _ _ _ Hf).
  - intros grp Hg. destruct (f_groups _ _ _ Hf _ _ Hg) as (grp1 & Hg1 & Hms).
    destruct (rearm_armed g st1 grp1 Hg1) as (grp' & t & Hg' & Hms' & _ & Ht & Htm).
    exists grp', t. rewrite <- Hms. done.
Qed.

End Tick.

(** ** The registry and the managers *)

Lemma schedulers_abort a st d :
  schedulers (abort a st) !! d = None ∨
  schedulers (abort a st) !! d = schedulers st !! d.
Proof.
  destruct a as [g cb]. unfold abort. destruct (groups st !! g) as [grp|]; [|by right].
  destruct (indexOf _ _); [|by right]. cbv zeta. case_decide; [|by right].
  assert (schedulers (clearTimeout (g_timeout grp)
            (set_schedulers (delete (g_ms grp))
               (emit (Spliced g cb)
                  (set_group g (Group (g_ms grp) (delete n (g_callbacks grp))
                     (g_timeout grp)) st))))
          = delete (g_ms grp) (schedulers st)) as ->.
  { by destruct (g_timeout grp). }
  destruct (decide (g_ms grp = d)) as [<-|Hne].
  - left. apply lookup_delete_eq.
  - right. by apply lookup_delete_ne.
Qed.

Lemma schedulers_doCancel h st d :
  schedulers (doCancel h st) !! d = None ∨
  schedulers (doCancel h st) !! d = schedulers st !! d.
Proof.
  unfold doCancel. destruct (manager_of st h) as [|[a|]]; try by right.
  apply schedulers_abort.
Qed.

Lemma schedulers_scheduler g c st :
  schedulers (scheduler g c st).2 = schedulers st.
Proof.
  unfold scheduler. destruct (groups st !! g); [|done].
  destruct (indexOf _ _); [done|]. cbv zeta. by case_decide.
Qed.

Lemma callbacks_of_abort g c st :
  wf st → c ∉ callbacks_of g (abort (g, c) st).
Proof.
  intros Hwf. destruct (groups st !! g) as [grp|] eqn:Hg.
  2:{ unfold abort, callbacks_of. rewrite Hg. simpl. rewrite Hg. apply not_elem_of_nil. }
  destruct (indexOf c (g_callbacks grp)) as [i|] eqn:Hi.
  2:{ unfold abort. rewrite Hg, Hi. rewrite (callbacks_of_lookup _ _ _ Hg).
      by apply indexOf_None. }
  rewrite (abort_unfold _ _ _ _ _ Hg Hi). unfold callbacks_of. simpl.
  rewrite lookup_insert_eq. simpl. apply NoDup_delete_indexOf; [|done].
  apply StronglySorted_NoDup. by eapply wf_sorted.
Qed.

Lemma doCancel_Noop h st : manager_of st h = Noop → doCancel h st = st.
Proof. intros Hm. unfold doCancel. by rewrite Hm. Qed.

Lemma doSchedule_Noop h cb ms args st :
  manager_of st h = Noop → doSchedule h cb ms args st = st.
Proof. intros Hm. unfold doSchedule. by rewrite Hm. Qed.

Lemma manager_of_cleanup h st : manager_of (cleanup h st) h = Noop.
Proof. unfold cleanup, manager_of. simpl. by rewrite lookup_insert_eq. Qed.

Lemma cleanup_cancels h g c st :
  wf st → manager_of st h = Effect (Some (g, c)) →
  c ∉ callbacks_of g (cleanup h st).
Proof.
  intros Hwf Hm. unfold cleanup, doCancel. rewrite Hm.
  by apply (callbacks_of_abort g c st).
Qed.

(** ** Host steps *)

Section Host.
Variable prog : program.

Lemma noop_fire fuel t st h :
  wf st → manager_of st h = Noop →
  manager_of (state_of (fire prog fuel t st)) h = Noop.
Proof.
  intros Hwf Hm. unfold fire. destruct (timers st !! t) as [tm|]; [|done].
  destruct (t_task tm) as [g|e]; [|done].
  pose proof (wf_clearTimeout (Some t) st Hwf) as Hwf1.
  set (st1 := clearTimeout (Some t) st) in *.
  assert (manager_of st1 h = Noop) as Hm1 by done.
  unfold invokeCallbacks.
  destruct (follows_dispatch prog fuel g 0 st1 Hwf1) as (evs & Hf & _).
  pose proof (wf_dispatch prog fuel g 0 st1 Hwf1) as Hwf2.
  pose proof (f_noop _ _ _ Hf h Hm1) as Hm2.
  destruct (dispatch prog fuel g 0 st1) as [st2|st2]; simpl in *; [|done].
  by apply (f_noop _ _ _ (follows_rearm g st2 Hwf2)).
Qed.

Lemma wf_host_step fuel ev st :
  wf st → wf (state_of (host_step prog fuel ev st)).
Proof.
  intros Hwf. destruct ev; simpl.
  - by apply wf_effect.
  - by apply wf_cleanup.
  - by apply wf_run_call.
  - by apply wf_fire.
Qed.

Lemma noop_host_step fuel ev st h :
  wf st → manager_of st h = Noop → ev ≠ Mount h →
  manager_of (state_of (host_step prog fuel ev st)) h = Noop.
Proof.
  intros Hwf Hm Hev. destruct ev as [h'|h'|k|t]; simpl.
  - unfold manager_of. simpl. rewrite lookup_insert_ne; [done|]. congruence.
  - destruct (follows_cleanup h' st Hwf) as (evs & Hf & _). by apply (f_noop _ _ _ Hf).
  - destruct (follows_run_call k st Hwf) as (evs & Hf & _). by apply (f_noop _ _ _ Hf).
  - by apply noop_fire.
Qed.

Lemma noop_run_host fuel evs st h :
  wf st → manager_of st h = Noop → Mount h ∉ evs →
  manager_of (state_of (run_host prog fuel evs st)) h = Noop.
Proof.
  revert st. induction evs as [|ev evs IH]; intros st Hwf Hm Hev; simpl; [done|].
  apply not_elem_of_cons in Hev as [Hne Hev].
  pose proof (wf_host_step fuel ev st Hwf) as Hwf1.
  pose proof (noop_host_step fuel ev st h Hwf Hm ltac:(congruence)) as Hm1.
  destruct (host_step prog fuel ev st) as [st1|st1]; simpl in *; [|done].
  by apply IH.
Qed.

Lemma wf_run_host fuel evs st :
  wf st → wf (state_of (run_host prog fuel evs st)).
Proof.
  revert st. induction evs as [|ev evs IH]; intros st Hwf; simpl; [done|].
  pose proof (wf_host_step fuel ev st Hwf) as Hwf1.
  destruct (host_step prog fuel ev st) as [st1|st1]; simpl in *; [|done].
  by apply IH.
Qed.

End Host.

(** ** [doSchedule] and [doCancel], step by step *)

Lemma next_cid_abort a st : next_cid (abort a st) = next_cid st.
Proof.
  destruct a as [g cb]. unfold abort. destruct (groups st !! g); [|done].
  destruct (indexOf _ _); [|done]. cbv zeta. case_decide; [|done].
  by destruct (g_timeout _).
Qed.

Lemma next_cid_doCancel h st : next_cid (doCancel h st) = next_cid st.
Proof.
  unfold doCancel. destruct (manager_of st h) as [|[a|]]; try done.
  apply next_cid_abort.
Qed.

Lemma next_cid_getOrCreateScheduler ms st :
  next_cid (getOrCreateScheduler ms st).2 = next_cid st.
Proof. unfold getOrCreateScheduler. by destruct (schedulers st !! ms). Qed.

Lemma closures_getOrCreateScheduler ms st :
  closures (getOrCreateScheduler ms st).2 = closures st.
Proof. unfold getOrCreateScheduler. by destruct (schedulers st !! ms). Qed.

Lemma manager_of_doCancel_ne h h' st :
  h' ≠ h → manager_of (doCancel h st) h' = manager_of st h'.
Proof.
  intros Hne. unfold doCancel. destruct (manager_of st h) as [|[a|]]; try done.
  unfold manager_of. simpl. rewrite lookup_insert_ne by done.
  by rewrite managers_abort.
Qed.

Lemma log_abort g c st :
  log (abort (g, c) st) = log st ∨ log (abort (g, c) st) = log st ++ [Spliced g c].
Proof.
  unfold abort. destruct (groups st !! g); [|by left].
  destruct (indexOf _ _); [|by left]. cbv zeta. right. case_decide; [|done].
  by destruct (g_timeout _).
Qed.

(** What [doCancel] logs. *)
Lemma log_doCancel h st :
  log (doCancel h st) = log st ∨
  ∃ g c, manager_of st h = Effect (Some (g, c)) ∧
         log (doCancel h st) = log st ++ [Spliced g c].
Proof.
  unfold doCancel. destruct (manager_of st h) as [|[[g c]|]]; try by left.
  destruct (log_abort g c st) as [E|E]; [by left|]. right. eauto.
Qed.

(** [doSchedule] through a mounted manager, step by step. *)
Lemma doSchedule_Effect h cb ms args st o :
  wf st → manager_of st h = Effect o →
  let c := next_cid st in
  let st1 := doCancel h st in
  let st' := doSchedule h cb ms args st in
  ∃ g, schedulers st' !! delay_key ms = Some g ∧
       manager_of st' h = Effect (Some (g, c)) ∧
       closures st' !! c = Some (cb, args) ∧
       callbacks_of g st' = callbacks_of g st1 ++ [c] ∧
       log st' = log st1 ++ [Pushed g c] ∧
       next_cid st' = S c ∧
       ∀ h', h' ≠ h → manager_of st' h' = manager_of st h'.
Proof.
  intros Hwf Hm. cbv zeta. unfold doSchedule. rewrite Hm.
  pose proof (wf_doCancel h _ Hwf) as Hwf1.
  pose proof (next_cid_doCancel h st) as Hn1.
  pose proof (λ h', manager_of_doCancel_ne h h' st) as Hm1.
  set (st1 := doCancel h st) in *.
  pose proof (wf_getOrCreateScheduler (delay_key ms) _ Hwf1) as Hwf2.
  pose proof (getOrCreateScheduler_registers (delay_key ms) st1) as Hreg.
  pose proof (follows_getOrCreateScheduler (delay_key ms) _ Hwf1) as Hf2.
  pose proof (next_cid_getOrCreateScheduler (delay_key ms) st1) as Hn2.
  pose proof (managers_getOrCreateScheduler (delay_key ms) st1) as Hm2.
  destruct (getOrCreateScheduler (delay_key ms) st1) as [g st2]. simpl in *.
  destruct (wf_schedulers _ Hwf2 _ _ Hreg) as (grp & Hg & Hms).
  assert (indexOf (next_cid st2) (g_callbacks grp) = None) as Hi.
  { apply indexOf_None. intros Hin.
    pose proof (wf_cfresh _ Hwf2 _ _ _ Hg Hin). lia. }
  set (st3 := State _ _ _ _ _ _ _ _ _).
  assert (scheduler g (next_cid st2) st3 =
          ((g, next_cid st2), (scheduler g (next_cid st2) st3).2)) as E.
  { rewrite <- scheduler_fst at 1. apply surjective_pairing. }
  rewrite E. rewrite (scheduler_unfold g (next_cid st2) st3 grp Hg Hi). cbv zeta.
  exists g. unfold callbacks_of, manager_of. subst st3. simpl.
  rewrite !Hn2, !Hn1, !lookup_insert_eq. simpl. split_and!; try done.
  - pose proof (f_callbacks _ _ _ Hf2 g eq_refl) as Hcb. rewrite app_nil_r in Hcb.
    unfold callbacks_of in Hcb. rewrite Hg in Hcb. simpl in Hcb. by rewrite Hcb.
  - pose proof (f_log _ _ _ Hf2) as Hl. rewrite app_nil_r in Hl. by rewrite Hl.
  - intros h' Hne. rewrite lookup_insert_ne by done. rewrite Hm2.
    by apply Hm1.
Qed.

Lemma manager_of_Effect st h o :
  manager_of st h = Effect o → managers st !! h = Some (Effect o).
Proof.
  unfold manager_of. destruct (managers st !! h) as [m|]; simpl; [|done].
  by intros ->.
Qed.

(** A call through one manager never removes what another registered. *)
Lemma doCancel_keeps h st g c :
  wf st → c ∈ callbacks_of g st →
  (∀ g', manager_of st h ≠ Effect (Some (g', c))) →
  c ∈ callbacks_of g (doCancel h st).
Proof.
  intros Hwf Hc Hm. destruct (follows_doCancel h st Hwf) as (evs & Hf & _).
  apply (f_keeps _ _ _ Hf); [done|].
  pose proof (f_log _ _ _ Hf) as Hl.
  destruct (log_doCancel h st) as [E|(g' & c' & Hm' & E)]; rewrite E in Hl.
  - rewrite <- (app_nil_r (log st)) in Hl at 1. apply app_inv_head in Hl as <-.
    apply not_elem_of_nil.
  - apply app_inv_head in Hl as <-. simpl. case_decide; [|apply not_elem_of_nil].
    apply not_elem_of_cons. split; [|apply not_elem_of_nil].
    intros ->. by apply (Hm g').
Qed.

Lemma doSchedule_keeps h cb ms args st g c :
  wf st → c ∈ callbacks_of g st →
  (∀ g', manager_of st h ≠ Effect (Some (g', c))) →
  c ∈ callbacks_of g (doSchedule h cb ms args st).
Proof.
  intros Hwf Hc Hm. destruct (manager_of st h) as [|o] eqn:Hmo.
  { by rewrite doSchedule_Noop. }
  destruct (follows_doSchedule h cb ms args st Hwf) as (evs & Hf & _).
  destruct (doSchedule_Effect h cb ms args st o Hwf Hmo)
    as (g2 & _ & _ & _ & _ & Hlog & _).
  apply (f_keeps _ _ _ Hf); [done|].
  pose proof (f_log _ _ _ Hf) as Hl. rewrite Hlog in Hl.
  destruct (log_doCancel h st) as [E|(g' & c' & Hm' & E)]; rewrite E in Hl.
  - apply app_inv_head in Hl as <-. apply not_elem_of_nil.
  - rewrite <- app_assoc in Hl. apply app_inv_head in Hl as <-. simpl.
    case_decide; [|apply not_elem_of_nil].
    apply not_elem_of_cons. split; [|apply not_elem_of_nil].
    intros ->. rewrite Hmo in Hm'. by apply (Hm g').
Qed.

Lemma callbacks_of_set_manager g h m st :
  callbacks_of g (set_manager h m st) = callbacks_of g st.
Proof. done. Qed.


(** ** The scenarios *)

Lemma wf_mounted : wf mounted.
Proof. apply wf_effect, wf_effect, wf_init. Qed.

Lemma wf_adding : wf adding.
Proof. apply wf_doSchedule, wf_mounted. Qed.

(** ** Removal of the last callback *)

(** Outside a tick, removing the last callback unregisters the scheduler and
    clears its pending timer. *)
Lemma abort_last_releases g c st grp t :
  groups st !! g = Some grp → g_callbacks grp = [c] → g_timeout grp = Some t →
  schedulers (abort (g, c) st) !! g_ms grp = None ∧
  timers (abort (g, c) st) !! t = None ∧
  callbacks_of g (abort (g, c) st) = [].
Proof.
  intros Hg Hc Ht.
  assert (indexOf c (g_callbacks grp) = Some 0) as Hi.
  { rewrite Hc. simpl. by rewrite decide_True. }
  rewrite (abort_unfold _ _ _ _ _ Hg Hi). unfold callbacks_of. simpl.
  rewrite Hc, Ht. simpl. by rewrite !lookup_delete_eq, lookup_insert_eq.
Qed.

Lemma ticking_empty_tick prog fuel g ms st :
  ticking_empty g ms st →
  ticking_empty g ms (state_of (tick prog (S fuel) g st)) ∧
  schedulers (state_of (tick prog (S fuel) g st)) = schedulers st.
Proof.
  intros (grp & t & Hg & Hms & Hc & Ht & Htm).
  unfold tick. rewrite Hg. destruct grp as [ms' cbs o]. simpl in *. subst ms' cbs o.
  unfold fire. rewrite Htm. simpl.
  unfold invokeCallbacks. simpl. unfold callbacks_of. simpl. rewrite Hg. simpl.
  unfold rearm. simpl. rewrite Hg. simpl. split; [|done].
  exists (Group ms [] (Some (next_tid st))), (next_tid st). simpl.
  by rewrite !lookup_insert_eq.
Qed.

Lemma ticking_empty_forever prog fuel g ms n st :
  ticking_empty g ms st →
  ticking_empty g ms (ticks prog (S fuel) g n st) ∧
  schedulers (ticks prog (S fuel) g n st) = schedulers st.
Proof.
  revert st. induction n as [|n IH]; intros st Hz; simpl; [done|].
  destruct (ticking_empty_tick prog fuel g ms st Hz) as [Hz' Hs].
  destruct (IH _ Hz') as [Hz'' Hs']. split; [done|congruence].
Qed.

(** A completed tick invokes no closure twice. *)
Lemma tick_never_invokes_twice prog fuel g st st' :
  wf st → invokeCallbacks prog fuel g st = Done st' →
  NoDup (invoked (events_since st st')).
Proof.
  intros Hwf Hd.
  destruct (invokeCallbacks_Done prog fuel g st st' Hwf Hd)
    as (evs & Hf & Hsorted & _).
  rewrite (events_since_app _ _ _ (f_log _ _ _ Hf)).
  by apply StronglySorted_NoDup.
Qed.

(** ** Termination of the dispatch loop *)

Section SizeFilter.
Context {A : Type} (P : nat * A → Prop) `{!∀ x, Decision (P x)}.

Lemma size_filter_insert (m : gmap nat A) h x :
  size (filter P (<[h := x]> m))
  = (if decide (P (h, x)) then 1 else 0) + size (filter P (delete h m)).
Proof.
  case_decide as HP.
  - rewrite map_filter_insert_True by done.
    rewrite <- insert_delete_eq, map_size_insert_None.
    + by rewrite map_filter_delete.
    + apply lookup_delete_eq.
  - by rewrite map_filter_insert_False.
Qed.

Lemma size_filter_lookup (m : gmap nat A) h x :
  m !! h = Some x →
  size (filter P m)
  = (if decide (P (h, x)) then 1 else 0) + size (filter P (delete h m)).
Proof.
  intros Hh. rewrite <- (insert_id m h x Hh) at 1. apply size_filter_insert.
Qed.
End SizeFilter.

Lemma potential_ext g st st' :
  managers st' = managers st → callbacks_of g st' = callbacks_of g st →
  potential g st' = potential g st.
Proof.
  intros Hm Hc. unfold potential. rewrite Hm, Hc. f_equal. f_equal.
  apply map_filter_ext. intros h m _. unfold spare, live. simpl.
  destruct m as [|[[g' c]|]]; simpl; [done| |done]. by rewrite Hc.
Qed.

(** The array of [g] after an abort. *)
Lemma callbacks_of_abort_cases g g' c st :
  (g' = g ∧ ∃ i, callbacks_of g st !! i = Some c ∧
     callbacks_of g (abort (g', c) st) = delete i (callbacks_of g st)) ∨
  (¬ (g' = g ∧ c ∈ callbacks_of g st) ∧
     callbacks_of g (abort (g', c) st) = callbacks_of g st).
Proof.
  destruct (groups st !! g') as [grp|] eqn:Hg.
  2:{ right. unfold abort. rewrite Hg. split; [|done]. intros [-> Hc].
      unfold callbacks_of in Hc. rewrite Hg in Hc. by apply elem_of_nil in Hc. }
  destruct (indexOf c (g_callbacks grp)) as [i|] eqn:Hi.
  2:{ right. unfold abort. rewrite Hg, Hi. split; [|done]. intros [-> Hc].
      rewrite (callbacks_of_lookup _ _ _ Hg) in Hc. by apply indexOf_None in Hi. }
  rewrite (abort_unfold _ _ _ _ _ Hg Hi). unfold callbacks_of. simpl.
  destruct (decide (g' = g)) as [->|Hne].
  - left. split; [done|]. exists i. rewrite lookup_insert_eq, Hg. simpl.
    split; [by apply indexOf_Some|done].
  - right. rewrite lookup_insert_ne by done. split; [|done]. by intros [? _].
Qed.

Lemma potential_doCancel g h st :
  wf st → potential g (doCancel h st) = potential g st.
Proof.
  intros Hwf. unfold doCancel.
  destruct (manager_of st h) as [|[[g' c]|]] eqn:Hm; try done.
  apply manager_of_Effect in Hm.
  unfold potential. rewrite callbacks_of_set_manager.
  change (managers (set_manager h (Effect None) (abort (g', c) st)))
    with (<[h := Effect None]> (managers (abort (g', c) st))).
  rewrite managers_abort.
  rewrite size_filter_insert, (size_filter_lookup _ _ _ _ Hm).
  rewrite decide_True.
  2:{ split; [done|]. simpl. tauto. }
  match goal with
  | |- _ + (_ + size ?X) = _ + (_ + size ?Y) => assert (X = Y) as ->
  end.
  { apply map_filter_ext. intros h2 m2. rewrite lookup_delete_Some.
    intros [Hne Hh2]. unfold spare.
    destruct m2 as [|[[g2 c2]|]]; cbn [snd live]; [done| |done].
    rewrite callbacks_of_set_manager.
    assert (c2 ≠ c) as Hc.
    { intros ->. by pose proof (wf_owner _ Hwf _ _ _ _ _ Hm Hh2). }
    destruct (callbacks_of_abort_cases g g' c st)
      as [(-> & i & Hi & ->)|[_ ->]]; [|done].
    assert (c2 ∈ delete i (callbacks_of g st) ↔ c2 ∈ callbacks_of g st) as ->; [|done].
    split; [apply list_elem_of_delete_inv|by eapply elem_of_delete_ne]. }
  destruct (callbacks_of_abort_cases g g' c st)
    as [(-> & i & Hi & ->)|[Hnl ->]].
  - rewrite length_delete by eauto. rewrite decide_False.
    2:{ unfold spare. cbn [snd live]. intros [_ Hn]. apply Hn. split; [done|].
        by eapply list_elem_of_lookup_2. }
    apply lookup_lt_Some in Hi. lia.
  - rewrite decide_True; [done|]. unfold spare. cbn [snd live]. done.
Qed.

(** The managers and the other arrays after [doSchedule]. *)
Lemma doSchedule_Effect_frame h cb ms args st o :
  wf st → manager_of st h = Effect o →
  let st1 := doCancel h st in
  let st' := doSchedule h cb ms args st in
  ∃ g, managers st' = <[h := Effect (Some (g, next_cid st))]> (managers st1) ∧
       callbacks_of g st' = callbacks_of g st1 ++ [next_cid st] ∧
       ∀ g', g' ≠ g → callbacks_of g' st' = callbacks_of g' st1.
Proof.
  intros Hwf Hm. cbv zeta. unfold doSchedule. rewrite Hm.
  pose proof (wf_doCancel h _ Hwf) as Hwf1.
  pose proof (next_cid_doCancel h st) as Hn1.
  set (st1 := doCancel h st) in *.
  pose proof (wf_getOrCreateScheduler (delay_key ms) _ Hwf1) as Hwf2.
  pose proof (getOrCreateScheduler_registers (delay_key ms) st1) as Hreg.
  pose proof (follows_getOrCreateScheduler (delay_key ms) _ Hwf1) as Hf2.
  pose proof (next_cid_getOrCreateScheduler (delay_key ms) st1) as Hn2.
  pose proof (managers_getOrCreateScheduler (delay_key ms) st1) as Hm2.
  destruct (getOrCreateScheduler (delay_key ms) st1) as [g st2]. simpl in *.
  destruct (wf_schedulers _ Hwf2 _ _ Hreg) as (grp & Hg & Hms).
  assert (indexOf (next_cid st2) (g_callbacks grp) = None) as Hi.
  { apply indexOf_None. intros Hin.
    pose proof (wf_cfresh _ Hwf2 _ _ _ Hg Hin). lia. }
  set (st3 := State _ _ _ _ _ _ _ _ _).
  assert (scheduler g (next_cid st2) st3 =
          ((g, next_cid st2), (scheduler g (next_cid st2) st3).2)) as E.
  { rewrite <- scheduler_fst at 1. apply surjective_pairing. }
  rewrite E. rewrite (scheduler_unfold g (next_cid st2) st3 grp Hg Hi). cbv zeta.
  exists g. unfold callbacks_of. subst st3. simpl.
  rewrite !Hn2, !Hn1, !lookup_insert_eq, Hm2. simpl. split_and!; try done.
  - pose proof (f_callbacks _ _ _ Hf2 g eq_refl) as Hcb. rewrite app_nil_r in Hcb.
    unfold callbacks_of in Hcb. rewrite Hg in Hcb. simpl in Hcb. by rewrite Hcb.
  - intros g' Hne. rewrite lookup_insert_ne by done.
    pose proof (f_callbacks _ _ _ Hf2 g' eq_refl) as Hcb. rewrite app_nil_r in Hcb.
    done.
Qed.

Lemma manager_of_doCancel_Effect h st o :
  manager_of st h = Effect o → manager_of (doCancel h st) h = Effect None.
Proof.
  intros Hm. unfold doCancel. rewrite Hm. destruct o as [a|]; [|done].
  unfold manager_of. simpl. by rewrite lookup_insert_eq.
Qed.

Lemma potential_doSchedule g h cb ms args st :
  wf st → potential g (doSchedule h cb ms args st) = potential g st.
Proof.
  intros Hwf. destruct (manager_of st h) as [|o] eqn:Hm.
  { by rewrite doSchedule_Noop. }
  rewrite <- (potential_doCancel g h st Hwf).
  destruct (doSchedule_Effect_frame h cb ms args st o Hwf Hm)
    as (g2 & Hmgr & Hcb & Hother).
  pose proof (wf_doCancel h st Hwf) as Hwf1.
  pose proof (manager_of_doCancel_Effect h st o Hm) as Hm1.
  apply manager_of_Effect in Hm1.
  pose proof (next_cid_doCancel h st) as Hn1.
  set (st1 := doCancel h st) in *. set (st' := doSchedule h cb ms args st) in *.
  unfold potential. rewrite Hmgr.
  rewrite size_filter_insert, (size_filter_lookup _ _ _ _ Hm1).
  rewrite (decide_True (P := spare g st1 (h, Effect None))).
  2:{ unfold spare. cbn [snd live]. split; [done|tauto]. }
  match goal with
  | |- _ + (_ + size ?X) = _ + (_ + size ?Y) => assert (X = Y) as ->
  end.
  { apply map_filter_ext. intros h2 m2. rewrite lookup_delete_Some.
    intros [Hne Hh2]. unfold spare.
    destruct m2 as [|[[g3 c3]|]]; cbn [snd live]; [done| |done].
    assert (c3 ≠ next_cid st) as Hc.
    { pose proof (wf_aborts _ Hwf1 _ _ _ Hh2). lia. }
    destruct (decide (g = g2)) as [->|Hgg].
    - rewrite Hcb, elem_of_app, list_elem_of_singleton.
      split; intros [Hnz Hn]; (split; [done|]).
      + intros [Hg3 Hin]. apply Hn. split; [done|by left].
      + intros [Hg3 [Hin|Heq]]; [apply Hn; by split|done].
    - by rewrite Hother. }
  destruct (decide (g = g2)) as [->|Hgg].
  - rewrite Hcb, length_app. simpl. rewrite decide_False; [lia|].
    unfold spare. cbn [snd live]. intros [_ Hn]. apply Hn. split; [done|].
    rewrite Hcb, elem_of_app, list_elem_of_singleton. tauto.
  - rewrite Hother by done. rewrite decide_True; [done|].
    unfold spare. cbn [snd live]. split; [done|]. intros [? _]. congruence.
Qed.

Lemma potential_run_call g k st :
  wf st → potential g (run_call k st) = potential g st.
Proof. destruct k; [apply potential_doSchedule|apply potential_doCancel]. Qed.

Lemma potential_run_calls g ks st :
  wf st → potential g (run_calls ks st) = potential g st.
Proof.
  revert st. induction ks as [|k ks IH]; intros st Hwf; [done|]. simpl.
  rewrite IH by (by apply wf_run_call). by apply potential_run_call.
Qed.

Section Termination.
Variable prog : program.

Lemma potential_attempt g c st :
  wf st → potential g (attempt prog c st) = potential g st.
Proof.
  intros Hwf.
  assert (potential g (invoke prog c st).1 = potential g st) as Hi.
  { unfold invoke. destruct (closures st !! c) as [[f args]|]; simpl.
    - rewrite potential_run_calls by (by apply wf_emit). by apply potential_ext.
    - by apply potential_ext. }
  unfold attempt. destruct (invoke prog c st) as [st1 [e|]]; simpl in *; [|done].
  rewrite <- Hi. by apply potential_ext.
Qed.

(** The loop ends: with more fuel than the potential it returns. *)
Lemma dispatch_terminates fuel g i st :
  wf st → potential g st - i < fuel →
  ∃ st', dispatch prog fuel g i st = Done st'.
Proof.
  revert i st. induction fuel as [|fuel IH]; intros i st Hwf Hlt; simpl; [lia|].
  destruct (callbacks_of g st !! i) as [c|] eqn:Hc; [|by eauto].
  apply IH; [by apply wf_attempt|]. rewrite potential_attempt by done.
  apply lookup_lt_Some in Hc. unfold potential in *. lia.
Qed.

Lemma invokeCallbacks_terminates fuel g st :
  wf st → potential g st < fuel →
  ∃ st', invokeCallbacks prog fuel g st = Done st'.
Proof.
  intros Hwf Hlt. unfold invokeCallbacks.
  destruct (dispatch_terminates fuel g 0 st Hwf ltac:(lia)) as (st1 & ->).
  eauto.
Qed.
End Termination.

(** ** One timer for each registered scheduler *)

Lemma timed_init : timed None init.
Proof. constructor; simpl; intros *; by rewrite lookup_empty. Qed.

Lemma timed_emit o e st : timed o st → timed o (emit e st).
Proof. intros []. by constructor. Qed.

Lemma timed_set_manager o h m st : timed o st → timed o (set_manager h m st).
Proof. intros []. by constructor. Qed.

Lemma timed_abort o a st : wf st → timed o st → timed o (abort a st).
Proof.
  destruct a as [g cb]. intros Hwf [T1 T2 T3 T4].
  destruct (groups st !! g) as [grp|] eqn:Hg;
    [|by unfold abort; rewrite Hg].
  destruct (indexOf cb (g_callbacks grp)) as [i|] eqn:Hi;
    [|by unfold abort; rewrite Hg, Hi].
  rewrite (abort_unfold _ _ _ _ _ Hg Hi). cbv zeta.
  assert (g_callbacks grp ≠ []) as Hne.
  { intros E. by rewrite E in Hi. }
  pose proof (wf_registered _ Hwf _ _ Hg Hne) as Hreg.
  set (cbs := delete i (g_callbacks grp)).
  constructor; simpl.
  - intros d g'. unfold callbacks_of. simpl. intros Hs.
    assert (schedulers st !! d = Some g' ∧ (length cbs = 0 → d ≠ g_ms grp))
      as [Hs' Hd].
    { revert Hs. case_decide; [|by intros; split; [|lia]].
      rewrite lookup_delete_Some. intros [? ?]. split; [done|]. by intros _ ->. }
    destruct (decide (g = g')) as [<-|Hgg].
    + rewrite lookup_insert_eq. simpl. intros E. fold cbs in E.
      destruct (wf_schedulers _ Hwf _ _ Hs') as (grp0 & Hg0 & Hms).
      apply Hd; [by rewrite E|]. congruence.
    + rewrite lookup_insert_ne by done. by apply (T1 d).
  - intros d g' grp' Hs.
    assert (schedulers st !! d = Some g' ∧ (length cbs = 0 → d ≠ g_ms grp))
      as [Hs' Hd].
    { revert Hs. case_decide; [|by intros; split; [|lia]].
      rewrite lookup_delete_Some. intros [? ?]. split; [done|]. by intros _ ->. }
    rewrite lookup_insert_Some. intros [[<- <-]|[Hgg Hg']] Ho; simpl.
    + destruct (T2 _ _ _ Hs' Hg Ho) as (t & Ht & Htm). exists t. split; [done|].
      destruct (wf_schedulers _ Hwf _ _ Hs') as (grp0 & Hg0 & Hms).
      rewrite decide_False; [done|]. intros E. apply Hd; [done|]. congruence.
    + destruct (T2 _ _ _ Hs' Hg' Ho) as (t & Ht & Htm). exists t. split; [done|].
      case_decide; [|done]. destruct (g_timeout grp) as [t0|] eqn:Ht0; simpl; [|done].
      rewrite lookup_delete_ne; [done|]. intros ->.
      destruct (wf_timeout _ Hwf _ _ _ Hg Ht0) as [_ Hk].
      specialize (Hk _ Htm). simpl in Hk. congruence.
  - intros g' t tm Htm Hk.
    assert (timers st !! t = Some tm) as Htm'.
    { revert Htm. case_decide; [|done].
      destruct (g_timeout grp); simpl; [|done]. rewrite lookup_delete_Some. tauto. }
    destruct (T3 _ _ _ Htm' Hk) as (Ho & grp' & Hg' & Ht). split; [done|].
    destruct (decide (g = g')) as [<-|Hgg].
    + rewrite lookup_insert_eq. eexists. split; [done|]. simpl. congruence.
    + rewrite lookup_insert_ne by done. eauto.
  - intros g' Ho. destruct (decide (g = g')) as [<-|Hgg].
    + rewrite lookup_insert_eq. eauto.
    + rewrite lookup_insert_ne by done. eauto.
Qed.

Lemma timed_doCancel o h st : wf st → timed o st → timed o (doCancel h st).
Proof.
  intros Hwf Ht. unfold doCancel.
  destruct (manager_of st h) as [|[a|]]; try done.
  by apply timed_set_manager, timed_abort.
Qed.

(** [getOrCreateScheduler], the allocation of the wrapper closure and
    [scheduler(closure)], as [doSchedule] runs them. *)
Lemma timed_register o ms cb args st :
  wf st → timed o st →
  let r := getOrCreateScheduler ms st in
  let st3 :=
    State (schedulers r.2) (groups r.2) (next_gid r.2)
          (<[next_cid r.2 := (cb, args)]> (closures r.2)) (S (next_cid r.2))
          (timers r.2) (next_tid r.2) (managers r.2) (log r.2) in
  timed o (scheduler r.1 (next_cid r.2) st3).2.
Proof.
  intros Hwf [T1 T2 T3 T4]. cbv zeta. unfold getOrCreateScheduler.
  destruct (schedulers st !! ms) as [g|] eqn:Hs; simpl.
  - destruct (wf_schedulers _ Hwf _ _ Hs) as (grp & Hg & Hms).
    assert (indexOf (next_cid st) (g_callbacks grp) = None) as Hi.
    { apply indexOf_None. intros Hin.
      pose proof (wf_cfresh _ Hwf _ _ _ Hg Hin). lia. }
    set (st3 := State _ _ _ _ _ _ _ _ _).
    rewrite (scheduler_unfold g (next_cid st) st3 grp Hg Hi). cbv zeta. simpl.
    assert (length (g_callbacks grp ++ [next_cid st]) ≠ 1) as Hlen.
    { pose proof (T1 _ _ Hs) as Hne. rewrite (callbacks_of_lookup _ _ _ Hg) in Hne.
      rewrite length_app. simpl. destruct (g_callbacks grp); [done|simpl; lia]. }
    rewrite !(decide_False _ _ Hlen).
    constructor; simpl.
    + intros d g'. unfold callbacks_of. simpl. intros Hs'.
      destruct (decide (g = g')) as [<-|Hgg].
      * rewrite lookup_insert_eq. simpl. by destruct (g_callbacks grp).
      * rewrite lookup_insert_ne by done. by apply (T1 d).
    + intros d g' grp' Hs'. rewrite lookup_insert_Some.
      intros [[<- <-]|[Hgg Hg']] Ho; simpl; eauto.
    + intros g' t tm Htm Hk. destruct (T3 _ _ _ Htm Hk) as (Ho & grp' & Hg' & Ht).
      split; [done|]. destruct (decide (g = g')) as [<-|Hgg].
      * rewrite lookup_insert_eq. eexists. split; [done|]. simpl. congruence.
      * rewrite lookup_insert_ne by done. eauto.
    + intros g' Ho. destruct (decide (g = g')) as [<-|Hgg].
      * rewrite lookup_insert_eq. eauto.
      * rewrite lookup_insert_ne by done. eauto.
  - assert (groups st !! next_gid st = None) as Hfresh.
    { destruct (groups st !! next_gid st) eqn:E; [|done].
      apply (wf_gfresh _ Hwf) in E. lia. }
    set (g := next_gid st) in *.
    set (st3 := State _ _ _ _ _ _ _ _ _).
    assert (groups st3 !! g = Some (Group ms [] None)) as Hg.
    { simpl. apply lookup_insert_eq. }
    rewrite (scheduler_unfold g (next_cid st) st3 _ Hg eq_refl). cbv zeta. simpl.
    rewrite insert_insert_eq.
    constructor; simpl.
    + intros d g'. unfold callbacks_of. simpl. rewrite lookup_insert_Some.
      intros [[<- <-]|[Hd Hs']].
      * by rewrite lookup_insert_eq.
      * destruct (wf_schedulers _ Hwf _ _ Hs') as (grp' & Hg' & _).
        rewrite lookup_insert_ne by congruence. by apply (T1 d).
    + intros d g' grp'. rewrite lookup_insert_Some.
      intros [[<- <-]|[Hd Hs']].
      * rewrite lookup_insert_eq. intros [= <-] _. simpl.
        exists (next_tid st). by rewrite lookup_insert_eq.
      * destruct (wf_schedulers _ Hwf _ _ Hs') as (grp0 & Hg0 & _).
        rewrite lookup_insert_ne by congruence. intros Hg' Ho.
        destruct (T2 _ _ _ Hs' Hg' Ho) as (t & Ht & Htm). exists t. split; [done|].
        rewrite lookup_insert_ne; [done|]. apply (wf_tfresh _ Hwf) in Htm. lia.
    + intros g' t tm. rewrite lookup_insert_Some.
      intros [[<- <-]|[Hne Htm]]; simpl.
      * intros [= <-]. split.
        -- intros Ho. destruct (T4 _ Ho) as [x Hx]. congruence.
        -- rewrite lookup_insert_eq. eauto.
      * intros Hk. destruct (T3 _ _ _ Htm Hk) as (Ho & grp' & Hg' & Ht).
        split; [done|]. rewrite lookup_insert_ne by congruence. eauto.
    + intros g' Ho. destruct (T4 _ Ho) as [x Hx].
      rewrite lookup_insert_ne by congruence. eauto.
Qed.

Lemma timed_doSchedule o h cb ms args st :
  wf st → timed o st → timed o (doSchedule h cb ms args st).
Proof.
  intros Hwf Ht. unfold doSchedule. destruct (manager_of st h); [done|].
  pose proof (wf_doCancel h _ Hwf) as Hwf1.
  pose proof (timed_doCancel o h _ Hwf Ht) as Ht1.
  pose proof (timed_register o (delay_key ms) cb args _ Hwf1 Ht1) as Ht2.
  cbv zeta in Ht2.
  destruct (getOrCreateScheduler (delay_key ms) (doCancel h st)) as [g st2].
  simpl in Ht2. cbv zeta.
  destruct (scheduler g (next_cid st2) _) as [a st4]. simpl in Ht2.
  by apply timed_set_manager.
Qed.

Lemma timed_run_call o k st : wf st → timed o st → timed o (run_call k st).
Proof. destruct k; [apply timed_doSchedule|apply timed_doCancel]. Qed.

Lemma timed_run_calls o ks st : wf st → timed o st → timed o (run_calls ks st).
Proof.
  revert st. induction ks as [|k ks IH]; intros st Hwf Ht; [done|]. simpl.
  apply IH; [by apply wf_run_call|by apply timed_run_call].
Qed.

Lemma timed_setTimeout_Rethrow o e d st :
  wf st → timed o st → timed o (setTimeout (Rethrow e) d st).2.
Proof.
  intros Hwf [T1 T2 T3 T4]. constructor; simpl.
  - done.
  - intros d' g grp Hs Hg Ho. destruct (T2 _ _ _ Hs Hg Ho) as (t & Ht & Htm).
    exists t. split; [done|]. rewrite lookup_insert_ne; [done|].
    apply (wf_tfresh _ Hwf) in Htm. lia.
  - intros g t tm. rewrite lookup_insert_Some. intros [[_ <-]|[_ Htm]]; [done|].
    by apply T3.
  - done.
Qed.

Lemma timed_effect o h st : timed o st → timed o (effect h st).
Proof. apply timed_set_manager. Qed.

Lemma timed_cleanup o h st : wf st → timed o st → timed o (cleanup h st).
Proof. intros Hwf Ht. by apply timed_set_manager, timed_doCancel. Qed.

Section Timed.
Variable prog : program.

Lemma timed_attempt o c st :
  wf st → timed o st → timed o (attempt prog c st).
Proof.
  intros Hwf Ht.
  assert (timed o (invoke prog c st).1) as Hi.
  { unfold invoke. destruct (closures st !! c) as [[f args]|]; simpl.
    - apply timed_run_calls; [by apply wf_emit|by apply timed_emit].
    - by apply timed_emit. }
  pose proof (wf_invoke prog c st Hwf) as Hwf1.
  unfold attempt. destruct (invoke prog c st) as [st1 [e|]]; [|done].
  apply timed_setTimeout_Rethrow; [by apply wf_emit|by apply timed_emit].
Qed.

Lemma timed_dispatch o fuel g i st :
  wf st → timed o st → timed o (state_of (dispatch prog fuel g i st)).
Proof.
  revert i st. induction fuel as [|fuel IH]; intros i st Hwf Ht; simpl; [done|].
  destruct (callbacks_of g st !! i); [|done].
  apply IH; [by apply wf_attempt|by apply timed_attempt].
Qed.

Lemma timed_rearm g st : wf st → timed (Some g) st → timed None (rearm g st).
Proof.
  intros Hwf [T1 T2 T3 T4]. unfold rearm.
  destruct (T4 g eq_refl) as [grp Hg]. rewrite Hg. constructor; simpl.
  - intros d g'. unfold callbacks_of. simpl. intros Hs.
    destruct (decide (g = g')) as [<-|Hgg].
    + rewrite lookup_insert_eq. simpl.
      pose proof (T1 _ _ Hs) as Hne. by rewrite (callbacks_of_lookup _ _ _ Hg) in Hne.
    + rewrite lookup_insert_ne by done. by apply (T1 d).
  - intros d g' grp' Hs. rewrite lookup_insert_Some.
    intros [[<- <-]|[Hgg Hg']] _; simpl.
    + exists (next_tid st). rewrite lookup_insert_eq.
      destruct (wf_schedulers _ Hwf _ _ Hs) as (grp0 & Hg0 & Hms).
      split; [done|]. do 2 f_equal. congruence.
    + destruct (T2 _ _ _ Hs Hg' ltac:(congruence)) as (t & Ht & Htm).
      exists t. split; [done|]. rewrite lookup_insert_ne; [done|].
      apply (wf_tfresh _ Hwf) in Htm. lia.
  - intros g' t tm. rewrite lookup_insert_Some.
    intros [[<- <-]|[Hne Htm]]; simpl.
    + intros [= <-]. split; [done|]. rewrite lookup_insert_eq. eauto.
    + intros Hk. destruct (T3 _ _ _ Htm Hk) as (Ho & grp' & Hg' & Ht).
      split; [done|]. rewrite lookup_insert_ne by congruence. eauto.
  - done.
Qed.

Lemma timed_fire fuel t st st' :
  wf st → timed None st → fire prog fuel t st = Done st' → timed None st'.
Proof.
  intros Hwf [T1 T2 T3 T4]. unfold fire.
  destruct (timers st !! t) as [tm|] eqn:Htm.
  2:{ intros [= <-]. by constructor. }
  destruct (t_task tm) as [g|e] eqn:Hk.
  - destruct (T3 _ _ _ Htm Hk) as (_ & grp & Hg & Hto).
    assert (timed (Some g) (clearTimeout (Some t) st)) as Ht1.
    { constructor; simpl.
      - done.
      - intros d g' grp' Hs Hg' Ho. destruct (T2 _ _ _ Hs Hg' ltac:(done)) as (t' & Ht' & Htm').
        exists t'. split; [done|]. rewrite lookup_delete_ne; [done|].
        intros ->. rewrite Htm in Htm'. injection Htm' as ->. simpl in Hk. congruence.
      - intros g' t' tm'. rewrite lookup_delete_Some. intros [Hne Htm'] Hk'.
        destruct (T3 _ _ _ Htm' Hk') as (_ & grp' & Hg' & Hto'). split; [|eauto].
        intros [= ->]. congruence.
      - intros g' [= <-]. eauto. }
    pose proof (wf_clearTimeout (Some t) st Hwf) as Hwf1.
    unfold invokeCallbacks.
    pose proof (timed_dispatch (Some g) fuel g 0 _ Hwf1 Ht1) as Ht2.
    pose proof (wf_dispatch prog fuel g 0 _ Hwf1) as Hwf2.
    destruct (dispatch prog fuel g 0 (clearTimeout (Some t) st)) as [st2|st2];
      [|done].
    intros [= <-]. by apply timed_rearm.
  - intros [= <-]. constructor; simpl.
    + done.
    + intros d g' grp' Hs Hg' Ho. destruct (T2 _ _ _ Hs Hg' Ho) as (t' & Ht' & Htm').
      exists t'. split; [done|]. rewrite lookup_delete_ne; [done|].
      intros ->. rewrite Htm in Htm'. injection Htm' as ->. simpl in Hk. congruence.
    + intros g' t' tm'. rewrite lookup_delete_Some. intros [Hne Htm'] Hk'.
      by apply (T3 _ _ _ Htm' Hk').
    + done.
Qed.

Lemma timed_host_step fuel ev st st' :
  wf st → timed None st → host_step prog fuel ev st = Done st' → timed None st'.
Proof.
  intros Hwf Ht. destruct ev; simpl.
  - intros [= <-]. by apply timed_effect.
  - intros [= <-]. by apply timed_cleanup.
  - intros [= <-]. by apply timed_run_call.
  - by apply timed_fire.
Qed.

(** Every state the host can reach from [init]. *)
Lemma reachable_wf_timed fuel evs st st' :
  wf st → timed None st → run_host prog fuel evs st = Done st' →
  wf st' ∧ timed None st'.
Proof.
  revert st. induction evs as [|ev evs IH]; intros st Hwf Ht; simpl.
  { by intros [= <-]. }
  pose proof (wf_host_step prog fuel ev st Hwf) as Hwf1.
  pose proof (timed_host_step fuel ev st) as Ht1.
  destruct (host_step prog fuel ev st) as [st1|st1]; [|done].
  apply IH; [done|]. by apply Ht1.
Qed.
End Timed.

(** * The claims *)
(** C1: [getOrCreateScheduler(ms)] returns the scheduler registered for [ms]
    and changes nothing when there is one; otherwise it makes a new scheduler
    with an empty [callbacks] array and no timer, registers it under [ms] and
    returns it.  Calling it again returns the same scheduler, as long as the
    registry still maps [ms] to it.  The callbacks of one scheduler share one
    timer: the first callback added arms it, a callback added to a non-empty
    array arms nothing; and in every state the host can reach, the scheduler
    registered for a delay is the only scheduler of that delay with
    callbacks, and exactly one pending timer runs its [invokeCallbacks]. *)
Theorem getOrCreateScheduler_shares ms st :
  let r := getOrCreateScheduler ms st in
  match schedulers st !! ms with
  | Some g => r = (g, st)
  | None =>
      r.1 = next_gid st ∧
      groups r.2 !! r.1 = Some (Group ms [] None) ∧
      schedulers r.2 = <[ms := r.1]> (schedulers st) ∧
      timers r.2 = timers st
  end ∧
  getOrCreateScheduler ms r.2 = r ∧
  (∀ st', schedulers st' !! ms = Some r.1 →
     getOrCreateScheduler ms st' = (r.1, st')) ∧
  (∀ g c grp,
     groups st !! g = Some grp → indexOf c (g_callbacks grp) = None →
     timers (scheduler g c st).2 =
       if decide (g_callbacks grp = [])
       then <[next_tid st := Timer (InvokeCallbacks g) (g_ms grp)]> (timers st)
       else timers st) ∧
  (∀ prog fuel evs st1 d g,
     run_host prog fuel evs init = Done st1 → schedulers st1 !! d = Some g →
     callbacks_of g st1 ≠ [] ∧
     (∀ g' grp',
        groups st1 !! g' = Some grp' → g_ms grp' = d →
        g_callbacks grp' ≠ [] → g' = g) ∧
     ∃ t, timers st1 !! t = Some (Timer (InvokeCallbacks g) d) ∧
          ∀ t' tm, timers st1 !! t' = Some tm →
                   t_task tm = InvokeCallbacks g → t' = t).
Proof.
  cbv zeta. split_and!.
  - unfold getOrCreateScheduler. destruct (schedulers st !! ms); simpl; [done|].
    split_and!; try done. apply lookup_insert_eq.
  - pose proof (getOrCreateScheduler_registers ms st) as Hr.
    destruct (getOrCreateScheduler ms st) as [g st1]. simpl in *.
    by apply getOrCreateScheduler_hit.
  - intros st' Hs. by apply getOrCreateScheduler_hit.
  - intros g c grp Hg Hi. rewrite (scheduler_unfold _ _ _ _ Hg Hi). simpl.
    rewrite length_app. simpl.
    destruct (g_callbacks grp) as [|x l]; simpl;
      repeat case_decide; simplify_eq; try done; lia.
  - intros prog fuel evs st1 d g Hrun Hs.
    destruct (reachable_wf_timed prog fuel evs init st1 wf_init timed_init Hrun)
      as [Hwf [T1 T2 T3 _]].
    destruct (wf_schedulers _ Hwf _ _ Hs) as (grp & Hg & Hms).
    destruct (T2 _ _ _ Hs Hg ltac:(done)) as (t & Hto & Htm).
    split_and!.
    + by apply (T1 d).
    + intros g' grp' Hg' Hd Hne. pose proof (wf_registered _ Hwf _ _ Hg' Hne) as Hr.
      rewrite Hd in Hr. congruence.
    + exists t. split; [done|]. intros t' tm Htm' Hk.
      destruct (T3 _ _ _ Htm' Hk) as (_ & grp' & Hg' & Hto'). congruence.
Qed.

(** A tick returns, and invokes callbacks in the order in which they were
    added, that is in increasing order of the wrapper closures' allocation:
    [scheduler] adds at the end of the array, and a tick that splices
    nothing out of the array invokes the whole array from its first element
    to its last, then whatever the tick itself added, and leaves the array
    in that order for the next tick. *)
Theorem tick_invokes_in_insertion_order prog fuel g st :
  wf st → potential g st < fuel →
  ∃ st',
    invokeCallbacks prog fuel g st = Done st' ∧
    StronglySorted lt (invoked (events_since st st')) ∧
    (∀ c grp,
       groups st !! g = Some grp → indexOf c (g_callbacks grp) = None →
       callbacks_of g (scheduler g c st).2 = g_callbacks grp ++ [c]) ∧
    (spliced g (events_since st st') = [] →
     invoked (events_since st st')
       = callbacks_of g st ++ pushed g (events_since st st') ∧
     callbacks_of g st'
       = callbacks_of g st ++ pushed g (events_since st st')).
Proof.
  intros Hwf Hfuel.
  destruct (invokeCallbacks_terminates prog fuel g st Hwf Hfuel) as (st' & Hd).
  exists st'. split; [done|].
  destruct (invokeCallbacks_Done prog fuel g st st' Hwf Hd)
    as (evs & Hf & Hsorted & _ & Hinv & _).
  rewrite (events_since_app _ _ _ (f_log _ _ _ Hf)). split_and!.
  - done.
  - intros c grp Hg Hi. rewrite (scheduler_unfold _ _ _ _ Hg Hi).
    unfold callbacks_of. simpl. by rewrite lookup_insert_eq.
  - intros Hq. split; [by apply Hinv|by apply (f_callbacks _ _ _ Hf)].
Qed.

Lemma tick_invokes_in_insertion_order_witness :
  wf twice ∧ potential 0 twice < 3 ∧
  invoked (events_since twice (state_of (invokeCallbacks example 3 0 twice)))
    = [0; 1].
Proof.
  assert (wf twice) as Hwf.
  { apply wf_doSchedule, wf_doSchedule, wf_mounted. }
  assert (potential 0 twice < 3) as Hfuel.
  { vm_compute. lia. }
  split_and!; [exact Hwf|exact Hfuel|].
  destruct (tick_invokes_in_insertion_order example 3 0 twice Hwf Hfuel)
    as (st' & Hd & _ & _ & Hq).
  rewrite Hd. simpl.
  assert (st' = state_of (invokeCallbacks example 3 0 twice)) as ->.
  { by rewrite Hd. }
  destruct Hq as [Hq _]; [vm_compute; reflexivity|].
  rewrite Hq. vm_compute. reflexivity.
Defined.

(** C2, where the code departs from it: when the callback that is first
    in the array of a scheduler does nothing but cancel its own
    registration, the tick returns and invokes that callback, the splice
    moves the callback that was second to index 0 while the iterator goes on
    to index 1, and the second callback is not invoked in that tick,
    although it stays in the array unless something removes it. *)
Theorem self_removal_skips_next_callback prog fuel g st c0 c1 rest h f args :
  wf st → potential g st < fuel →
  callbacks_of g st = c0 :: c1 :: rest →
  closures st !! c0 = Some (f, args) →
  prog f args st = Behaviour [Cancel h] None →
  manager_of st h = Effect (Some (g, c0)) →
  ∃ st',
    invokeCallbacks prog fuel g st = Done st' ∧
    c0 ∈ invoked (events_since st st') ∧
    (c1 ∉ invoked (events_since st st')) ∧
    (c1 ∉ spliced g (events_since st st') → c1 ∈ callbacks_of g st').
Proof.
  intros Hwf Hfuel Hcb Hcl Hprog Hm.
  destruct (invokeCallbacks_terminates prog fuel g st Hwf Hfuel) as (st' & Hd).
  exists st'. split; [done|].
  assert (∃ grp, groups st !! g = Some grp ∧ g_callbacks grp = c0 :: c1 :: rest)
    as (grp & Hg & Hl).
  { unfold callbacks_of in Hcb. destruct (groups st !! g) as [grp|]; [|done].
    by exists grp. }
  pose proof (wf_sorted _ Hwf _ _ Hg) as Hsorted. rewrite Hl in Hsorted.
  apply StronglySorted_cons in Hsorted as [Hs0 Hsorted].
  apply StronglySorted_cons in Hsorted as [Hs1 _].
  assert (c0 < c1) as H01.
  { rewrite Forall_forall in Hs0. apply Hs0. by left. }
  assert (c1 ∉ rest) as Hrest.
  { intros Hin. rewrite Forall_forall in Hs1. apply Hs1 in Hin. lia. }
  assert (c1 < next_cid st) as Hlt.
  { apply (wf_cfresh _ Hwf _ _ _ Hg). rewrite Hl. right. by left. }
  set (st1 := attempt prog c0 st).
  assert (st1 = doCancel h (emit (Invoked c0) st)) as Hst1.
  { unfold st1, attempt, invoke. by rewrite Hcl, Hprog. }
  assert (log st1 = log st ++ [Invoked c0; Spliced g c0] ∧
          callbacks_of g st1 = c1 :: rest ∧ next_cid st1 = next_cid st)
    as (Hlog1 & Hcb1 & Hn1).
  { rewrite Hst1. unfold doCancel.
    change (manager_of (emit (Invoked c0) st) h) with (manager_of st h).
    rewrite Hm.
    rewrite (abort_unfold g c0 (emit (Invoked c0) st) grp 0 Hg);
      [|by rewrite Hl; simpl; rewrite decide_True].
    cbv zeta. rewrite Hl. simpl.
    split_and!;
      [|by unfold callbacks_of; simpl; rewrite lookup_insert_eq|done].
    by rewrite <- app_assoc. }
  pose proof (wf_attempt prog c0 st Hwf) as Hwf1. fold st1 in Hwf1.
  assert (∀ fuel', invokeCallbacks prog (S fuel') g st
            = match dispatch prog fuel' g 1 st1 with
              | Done s => Done (rearm g s)
              | OutOfFuel s => OutOfFuel s
              end) as Hunf.
  { intros fuel'. unfold invokeCallbacks. simpl. by rewrite Hcb. }
  destruct fuel as [|fuel']; [lia|].
  destruct (follows_dispatch prog fuel' g 1 st1 Hwf1)
    as (evs' & Hf' & _ & HB' & _).
  rewrite Hunf in Hd.
  pose proof (wf_dispatch prog fuel' g 1 st1 Hwf1) as Hwf2.
  destruct (dispatch prog fuel' g 1 st1) as [st2|st2]; [|done].
  injection Hd as <-. simpl in *.
  pose proof (follows_rearm g st2 Hwf2) as Hr.
  assert (log (rearm g st2) = log st ++ [Invoked c0; Spliced g c0] ++ evs') as Hlog.
  { rewrite (f_log _ _ _ Hr), app_nil_r, (f_log _ _ _ Hf'), Hlog1.
    by rewrite <- app_assoc. }
  rewrite (events_since_app _ _ _ Hlog).
  assert (c1 ∉ invoked evs') as Hnot.
  { intros Hin. rewrite Forall_forall in HB'.
    destruct (HB' _ Hin) as [?|(j & Hj & Hx)]; [lia|].
    rewrite Hcb1 in Hx. destruct j as [|j]; [lia|]. simpl in Hx.
    apply Hrest. by eapply list_elem_of_lookup_2. }
  split_and!.
  - simpl. by left.
  - simpl. rewrite not_elem_of_cons. split; [lia|done].
  - simpl. rewrite decide_True by done. rewrite not_elem_of_cons. intros [_ Hsp].
    apply (f_keeps _ _ _ Hr); [|apply not_elem_of_nil].
    apply (f_keeps _ _ _ Hf'); [|done]. rewrite Hcb1. by left.
Qed.

Lemma self_removal_skips_next_callback_witness :
  ∃ st',
    invokeCallbacks example 3 0 self_cancelling_first = Done st' ∧
    0 ∈ invoked (events_since self_cancelling_first st') ∧
    (1 ∉ invoked (events_since self_cancelling_first st')) ∧
    (1 ∉ spliced 0 (events_since self_cancelling_first st') →
     1 ∈ callbacks_of 0 st').
Proof.
  apply (self_removal_skips_next_callback example 3 0 self_cancelling_first
           0 1 [] 0 0 []).
  - apply wf_doSchedule, wf_doSchedule, wf_mounted.
  - vm_compute. lia.
  - vm_compute. reflexivity.
  - vm_compute. reflexivity.
  - reflexivity.
  - vm_compute. reflexivity.
Defined.

(** C3, at the failing input: manager 0 has scheduled function 0, which
    cancels through manager 0.  The first tick invokes it; the removal empties
    the array and unregisters the scheduler, but [clearTimeout] is given the
    timer that has just fired, and the loop then arms a new one.  From then
    on the scheduler has no callbacks, is not in the registry, and still has
    a pending timer after any number of further ticks. *)
Theorem emptied_in_tick_keeps_ticking :
  let st := state_of (tick example 3 0 self_cancelling) in
  tick example 3 0 self_cancelling = Done st ∧
  callbacks_of 0 self_cancelling = [0] ∧
  invoked (events_since self_cancelling st) = [0] ∧
  spliced 0 (events_since self_cancelling st) = [0] ∧
  ∀ n,
    callbacks_of 0 (ticks example 3 0 n st) = [] ∧
    schedulers (ticks example 3 0 n st) = ∅ ∧
    ∃ t, timers (ticks example 3 0 n st) !! t
         = Some (Timer (InvokeCallbacks 0) 100).
Proof.
  cbv zeta. split_and!; [by vm_compute..|]. intros n.
  assert (ticking_empty 0 100 (state_of (tick example 3 0 self_cancelling))) as Hz.
  { exists (Group 100 [] (Some 1)), 1. by vm_compute. }
  destruct (ticking_empty_forever example 2 0 100 n _ Hz)
    as [(grp & t & Hg & Hms & Hc & Ht & Htm) Hs].
  split_and!.
  - by rewrite (callbacks_of_lookup _ _ _ Hg).
  - rewrite Hs. by vm_compute.
  - by exists t.
Qed.

(** C4, at the failing input: the array is [0; 1]; closure 0 wraps function
    0, which cancels through manager 0.  The tick invokes closure 0, the
    splice moves closure 1 to index 0, the iterator goes on to index 1 and
    finds the end of the array: closure 1, in the array before, during and
    after the tick, is not invoked in it. *)
Theorem later_callback_skipped_after_removal :
  let st := self_cancelling_first in
  let st' := state_of (tick example 3 0 st) in
  tick example 3 0 st = Done st' ∧
  callbacks_of 0 st = [0; 1] ∧
  spliced 0 (events_since st st') = [0] ∧
  callbacks_of 0 st' = [1] ∧
  invoked (events_since st st') = [0].
Proof. vm_compute. done. Qed.

(** C5, as the code has it: a tick returns, and a callback added to the
    [callbacks] array of a scheduler while that scheduler's tick is being
    dispatched is appended to the array the loop is iterating; when the tick
    splices nothing out of the array, the new callback is invoked in that
    same tick, after the callbacks that were there when the tick began, and
    it stays in the array for the ticks that follow. *)
Theorem added_callback_runs_in_same_tick prog fuel g st :
  wf st → potential g st < fuel →
  ∃ st',
    invokeCallbacks prog fuel g st = Done st' ∧
    ∀ c,
      spliced g (events_since st st') = [] →
      c ∈ pushed g (events_since st st') →
      c ∈ invoked (events_since st st') ∧
      c ∈ callbacks_of g st' ∧
      ∃ added,
        invoked (events_since st st') = callbacks_of g st ++ added ∧
        c ∈ added.
Proof.
  intros Hwf Hfuel.
  destruct (invokeCallbacks_terminates prog fuel g st Hwf Hfuel) as (st' & Hd).
  exists st'. split; [done|].
  destruct (invokeCallbacks_Done prog fuel g st st' Hwf Hd)
    as (evs & Hf & _ & _ & Hinv & _).
  rewrite (events_since_app _ _ _ (f_log _ _ _ Hf)). intros c Hq Hc.
  rewrite (Hinv Hq), (f_callbacks _ _ _ Hf g Hq). split_and!.
  - apply elem_of_app. by right.
  - apply elem_of_app. by right.
  - by exists (pushed g evs).
Qed.

Lemma added_callback_runs_in_same_tick_witness :
  wf adding ∧ potential 0 adding < 3 ∧
  1 ∈ invoked (events_since adding (state_of (invokeCallbacks example 3 0 adding))).
Proof.
  assert (potential 0 adding < 3) as Hfuel.
  { vm_compute. lia. }
  split_and!; [exact wf_adding|exact Hfuel|].
  destruct (added_callback_runs_in_same_tick example 3 0 adding wf_adding Hfuel)
    as (st' & Hd & Hc).
  assert (st' = state_of (invokeCallbacks example 3 0 adding)) as ->.
  { by rewrite Hd. }
  apply (Hc 1).
  - vm_compute. reflexivity.
  - vm_compute. apply list_elem_of_singleton. reflexivity.
Defined.

(** C5, as the claim states it, fails: function 2, running in a tick, adds
    closure 1 to the array being dispatched, and closure 1 is invoked in that
    same tick. *)
Lemma added_callback_not_deferred :
  let st' := state_of (tick example 3 0 adding) in
  tick example 3 0 adding = Done st' ∧
  callbacks_of 0 adding = [0] ∧
  pushed 0 (events_since adding st') = [1] ∧
  invoked (events_since adding st') = [0; 1].
Proof. vm_compute. done. Qed.

(** C6: a tick returns whatever its callbacks throw.  Every error thrown by
    an invocation is caught, and catching it changes neither the registry nor
    any [callbacks] array nor any manager; when the tick has completed, each
    caught error is held by a pending zero-delay timer that rethrows it, and
    firing that timer reports the error uncaught; the scheduler's [timeout]
    names a pending timer that will run [invokeCallbacks] again after [ms];
    and, when the tick splices nothing out of the array, every callback of
    the array was invoked, whichever of them threw. *)
Theorem throwing_callback_is_isolated prog fuel g st grp :
  wf st → groups st !! g = Some grp → potential g st < fuel →
  ∃ st',
    invokeCallbacks prog fuel g st = Done st' ∧
    (∀ c s, wf s →
       caught (events_since s (attempt prog c s))
       = from_option (λ e, [e]) [] (invoke prog c s).2) ∧
    (∀ c s,
       schedulers (attempt prog c s) = schedulers (invoke prog c s).1 ∧
       groups (attempt prog c s) = groups (invoke prog c s).1 ∧
       managers (attempt prog c s) = managers (invoke prog c s).1) ∧
    (spliced g (events_since st st') = [] →
     invoked (events_since st st')
       = callbacks_of g st ++ pushed g (events_since st st')) ∧
    (∀ e, e ∈ caught (events_since st st') →
       ∃ t, timers st' !! t = Some (Timer (Rethrow e) 0) ∧
            fire prog fuel t st'
            = Done (emit (Uncaught e) (clearTimeout (Some t) st'))) ∧
    ∃ grp' t,
      groups st' !! g = Some grp' ∧ g_timeout grp' = Some t ∧
      timers st' !! t = Some (Timer (InvokeCallbacks g) (g_ms grp)).
Proof.
  intros Hwf Hg Hfuel.
  destruct (invokeCallbacks_terminates prog fuel g st Hwf Hfuel) as (st' & Hd).
  exists st'. split; [done|].
  destruct (invokeCallbacks_Done prog fuel g st st' Hwf Hd)
    as (evs & Hf & _ & Hre & Hinv & Harm).
  rewrite (events_since_app _ _ _ (f_log _ _ _ Hf)). split_and!.
  - intros c s Hs. destruct (follows_attempt prog c s Hs) as (e1 & Hf1 & _ & Hc & _).
    by rewrite (events_since_app _ _ _ (f_log _ _ _ Hf1)).
  - intros c s. unfold attempt. by destruct (invoke prog c s) as [s1 [e|]].
  - done.
  - intros e He. destruct (Hre _ He) as (t & Ht).
    exists t. split; [done|]. unfold fire. by rewrite Ht.
  - by apply Harm.
Qed.

Lemma throwing_callback_is_isolated_witness :
  wf throwing_first ∧
  groups throwing_first !! 0 = Some (Group 100 [0; 1] (Some 0)) ∧
  potential 0 throwing_first < 3 ∧
  invoked (events_since throwing_first
             (state_of (invokeCallbacks example 3 0 throwing_first)))
    = [0; 1].
Proof.
  assert (wf throwing_first) as Hwf.
  { apply wf_doSchedule, wf_doSchedule, wf_mounted. }
  assert (groups throwing_first !! 0 = Some (Group 100 [0; 1] (Some 0))) as Hg.
  { vm_compute. reflexivity. }
  assert (potential 0 throwing_first < 3) as Hfuel.
  { vm_compute. lia. }
  split_and!; [exact Hwf|exact Hg|exact Hfuel|].
  destruct (throwing_callback_is_isolated example 3 0 throwing_first _
              Hwf Hg Hfuel) as (st' & Hd & _ & _ & Hq & _).
  assert (st' = state_of (invokeCallbacks example 3 0 throwing_first)) as ->.
  { by rewrite Hd. }
  rewrite Hq; vm_compute; reflexivity.
Defined.

(** C7: a manager whose effect has not run has [noop] for [doSchedule] and
    [doCancel], and so has a manager whose effect cleanup has run: [schedule]
    and [cancel] then return the state they were given.  The cleanup removes
    the callback the manager had registered, and whatever the host does
    next, short of running the effect of that manager again, its [schedule]
    and [cancel] stay without effect. *)
Theorem noop_outside_mount prog fuel h st :
  wf st →
  (∀ evs k,
     Mount h ∉ evs → handle_of k = h →
     let st' := state_of (run_host prog fuel evs init) in
     run_call k st' = st') ∧
  (∀ g c, manager_of st h = Effect (Some (g, c)) →
     c ∉ callbacks_of g (cleanup h st)) ∧
  (∀ evs k,
     Mount h ∉ evs → handle_of k = h →
     let st' := state_of (run_host prog fuel evs (cleanup h st)) in
     run_call k st' = st').
Proof.
  intros Hwf.
  assert (∀ st0 evs k, wf st0 → manager_of st0 h = Noop →
            Mount h ∉ evs → handle_of k = h →
            let st' := state_of (run_host prog fuel evs st0) in
            run_call k st' = st') as Hstay.
  { intros st0 evs k Hwf0 Hm0 Hev Hk st'.
    pose proof (noop_run_host prog fuel evs st0 h Hwf0 Hm0 Hev) as Hm.
    destruct k as [h' cb ms args|h']; simpl in *; subst h'.
    - by apply doSchedule_Noop.
    - by apply doCancel_Noop. }
  split_and!.
  - intros evs k. apply Hstay; [apply wf_init|done].
  - intros g c. by apply cleanup_cancels.
  - intros evs k. apply Hstay; [by apply wf_cleanup|apply manager_of_cleanup].
Qed.

Lemma noop_outside_mount_witness :
  wf twice ∧ 0 ∉ callbacks_of 0 (cleanup 0 twice).
Proof.
  assert (wf twice) as Hwf.
  { apply wf_doSchedule, wf_doSchedule, wf_mounted. }
  split; [exact Hwf|].
  destruct (noop_outside_mount example 3 0 twice Hwf) as (_ & Hc & _).
  apply (Hc 0 0). vm_compute. reflexivity.
Defined.

(** C8: [cancel()] twice in a row leaves exactly the state that one [cancel()]
    leaves, and [cancel()] on a manager with nothing scheduled changes
    nothing. *)
Theorem cancel_idempotent h st :
  doCancel h (doCancel h st) = doCancel h st ∧
  match manager_of st h with
  | Effect (Some _) => manager_of (doCancel h st) h = Effect None
  | _ => doCancel h st = st
  end.
Proof.
  destruct (manager_of st h) as [|[a|]] eqn:Hm.
  - assert (doCancel h st = st) as E by (unfold doCancel; by rewrite Hm).
    by rewrite !E.
  - assert (doCancel h st = set_manager h (Effect None) (abort a st)) as E
      by (unfold doCancel; by rewrite Hm).
    assert (manager_of (doCancel h st) h = Effect None) as Hm'.
    { rewrite E. unfold manager_of. simpl. by rewrite lookup_insert_eq. }
    split; [|done]. unfold doCancel at 1. by rewrite Hm'.
  - assert (doCancel h st = st) as E by (unfold doCancel; by rewrite Hm).
    by rewrite !E.
Qed.

(** C9: whatever number is passed as [ms], the key under which [doSchedule]
    looks up the registry is [max (ToInt32 ms) 0], a non-negative 32-bit
    integer: NaN and the infinities give 0, so does every negative 32-bit
    integer.  [doSchedule] is a total function of the state: on a mounted
    manager it leaves a scheduler registered under that key and creates no
    other key, so nothing is rejected and nothing is thrown. *)
Theorem delay_is_normalised h cb ms args st :
  (0 ≤ delay_key ms < 2 ^ 31)%Z ∧
  delay_key ms = Z.max (ToInt32 ms) 0 ∧
  delay_key NaN = 0%Z ∧
  (∀ negative, delay_key (Infinity negative) = 0%Z) ∧
  (∀ n, (- 2 ^ 31 ≤ n < 2 ^ 31)%Z → delay_key (Finite n 0) = Z.max n 0) ∧
  match manager_of st h with
  | Noop => doSchedule h cb ms args st = st
  | Effect _ =>
      is_Some (schedulers (doSchedule h cb ms args st) !! delay_key ms)
  end ∧
  ∀ d, d ≠ delay_key ms →
    schedulers (doSchedule h cb ms args st) !! d = None ∨
    schedulers (doSchedule h cb ms args st) !! d = schedulers st !! d.
Proof.
  split_and!.
  - rewrite delay_key_max. pose proof (ToInt32_range ms). lia.
  - rewrite delay_key_max. pose proof (ToInt32_range ms). lia.
  - apply delay_key_max.
  - done.
  - done.
  - apply delay_key_int32.
  - unfold doSchedule. destruct (manager_of st h); [done|].
    pose proof (getOrCreateScheduler_registers (delay_key ms) (doCancel h st)) as Hr.
    destruct (getOrCreateScheduler _ _) as [g st2]. simpl in Hr. cbv zeta.
    set (st3 := State _ _ _ _ _ _ _ _ _).
    pose proof (schedulers_scheduler g (next_cid st2) st3) as Hs.
    destruct (scheduler _ _ _) as [a st4]. simpl in *. rewrite Hs, Hr. eauto.
  - intros d Hd. unfold doSchedule. destruct (manager_of st h); [by right|].
    pose proof (getOrCreateScheduler_other (delay_key ms) (doCancel h st) d Hd) as Hr.
    destruct (getOrCreateScheduler _ _) as [g st2]. simpl in Hr. cbv zeta.
    set (st3 := State _ _ _ _ _ _ _ _ _).
    pose proof (schedulers_scheduler g (next_cid st2) st3) as Hs.
    destruct (scheduler _ _ _) as [a st4]. simpl in *. rewrite Hs, Hr.
    apply schedulers_doCancel.
Qed.




(** * Further properties of the interval scheduler *)

(** ** Closures that are gone *)

Lemma absent_follows c st st' evs :
  follows st st' evs → absent c st → absent c st'.
Proof.
  intros Hf [Hlt Hout]. split.
  - pose proof (f_next_cid _ _ _ Hf). lia.
  - intros g Hin. apply list_elem_of_lookup in Hin as [j Hj].
    destruct (f_shift _ _ _ Hf _ _ _ Hj) as [?|(j' & _ & Hj')]; [lia|].
    apply (Hout g). by eapply list_elem_of_lookup_2.
Qed.

Section Extras.
Variable prog : program.

Lemma dispatch_skips_absent fuel g i st c :
  wf st → absent c st →
  ∃ evs, follows st (state_of (dispatch prog fuel g i st)) evs ∧
         (c ∉ invoked evs).
Proof.
  intros Hwf [Hlt Hout].
  destruct (follows_dispatch prog fuel g i st Hwf) as (evs & Hf & _ & HB & _).
  exists evs. split; [done|]. intros Hin. rewrite Forall_forall in HB.
  destruct (HB _ Hin) as [?|(j & _ & Hj)]; [lia|].
  apply (Hout g). by eapply list_elem_of_lookup_2.
Qed.

Lemma fire_skips_absent fuel t st c :
  wf st → absent c st →
  ∃ evs, log (state_of (fire prog fuel t st)) = log st ++ evs ∧
         (c ∉ invoked evs) ∧ absent c (state_of (fire prog fuel t st)).
Proof.
  intros Hwf Ha. unfold fire. destruct (timers st !! t) as [tm|].
  2:{ exists []. simpl. rewrite app_nil_r. split_and!; [done|apply not_elem_of_nil|done]. }
  destruct (t_task tm) as [g|e].
  - pose proof (wf_clearTimeout (Some t) st Hwf) as Hwf1.
    assert (absent c (clearTimeout (Some t) st)) as Ha1 by done.
    unfold invokeCallbacks.
    destruct (dispatch_skips_absent fuel g 0 _ c Hwf1 Ha1) as (evs & Hf & Hc).
    pose proof (wf_dispatch prog fuel g 0 _ Hwf1) as Hwf2.
    pose proof (absent_follows _ _ _ _ Hf Ha1) as Ha2.
    pose proof (f_log _ _ _ Hf) as Hl.
    destruct (dispatch prog fuel g 0 (clearTimeout (Some t) st)) as [st2|st2];
      simpl in *.
    + pose proof (follows_rearm g st2 Hwf2) as Hr.
      exists evs. split_and!; [|done|by eapply absent_follows].
      rewrite (f_log _ _ _ Hr), app_nil_r. done.
    + by exists evs.
  - exists [Uncaught e]. simpl. split_and!; [done| |done]. apply not_elem_of_nil.
Qed.

Lemma host_step_skips_absent fuel ev st c :
  wf st → absent c st →
  ∃ evs, log (state_of (host_step prog fuel ev st)) = log st ++ evs ∧
         (c ∉ invoked evs) ∧ absent c (state_of (host_step prog fuel ev st)).
Proof.
  intros Hwf Ha. destruct ev as [h|h|k|t]; simpl.
  - exists []. rewrite app_nil_r. split_and!; [done|apply not_elem_of_nil|done].
  - destruct (follows_cleanup h st Hwf) as (evs & Hf & [Hs _]).
    exists evs. split_and!; [by apply (f_log _ _ _ Hf)| |by eapply absent_follows].
    rewrite Hs. apply not_elem_of_nil.
  - destruct (follows_run_call k st Hwf) as (evs & Hf & [Hs _]).
    exists evs. split_and!; [by apply (f_log _ _ _ Hf)| |by eapply absent_follows].
    rewrite Hs. apply not_elem_of_nil.
  - by apply fire_skips_absent.
Qed.

Lemma run_host_skips_absent fuel evs st c :
  wf st → absent c st →
  (c ∉ invoked (events_since st (state_of (run_host prog fuel evs st)))) ∧
  absent c (state_of (run_host prog fuel evs st)) ∧
  ∃ l, log (state_of (run_host prog fuel evs st)) = log st ++ l.
Proof.
  revert st. induction evs as [|ev evs IH]; intros st Hwf Ha; simpl.
  { split_and!; [|done|by exists []; rewrite app_nil_r].
    unfold events_since. rewrite drop_all. apply not_elem_of_nil. }
  destruct (host_step_skips_absent fuel ev st c Hwf Ha) as (e1 & Hl & Hc & Ha1).
  pose proof (wf_host_step prog fuel ev st Hwf) as Hwf1.
  destruct (host_step prog fuel ev st) as [st1|st1]; simpl in *.
  - destruct (IH st1 Hwf1 Ha1) as (Hc2 & Ha2 & l & Hl2). split_and!; [|done|].
    + rewrite (events_since_app _ _ _ Hl2) in Hc2.
      rewrite (events_since_app st _ (e1 ++ l)).
      * rewrite invoked_app. apply not_elem_of_app. by split.
      * by rewrite Hl2, Hl, app_assoc.
    + exists (e1 ++ l). by rewrite Hl2, Hl, app_assoc.
  - split_and!; [|done|by exists e1]. by rewrite (events_since_app _ _ _ Hl).
Qed.
End Extras.

(** ** The scheduler a registration belongs to *)

Lemma homed_mono st st' :
  (∀ h a, managers st' !! h = Some (Effect (Some a)) →
          managers st !! h = Some (Effect (Some a))) →
  (∀ g c, c ∈ callbacks_of g st' → c ∈ callbacks_of g st) →
  homed st → homed st'.
Proof. intros Hm Hc Hh h g c g' Hh' Hin. eapply Hh; eauto. Qed.

Lemma callbacks_of_abort_sub a g c st :
  c ∈ callbacks_of g (abort a st) → c ∈ callbacks_of g st.
Proof.
  destruct a as [g' c'].
  destruct (callbacks_of_abort_cases g g' c' st) as [(_ & i & _ & ->)|[_ ->]];
    [|done].
  apply list_elem_of_delete_inv.
Qed.

Lemma callbacks_of_doCancel_sub h g c st :
  c ∈ callbacks_of g (doCancel h st) → c ∈ callbacks_of g st.
Proof.
  unfold doCancel. destruct (manager_of st h) as [|[a|]]; try done.
  rewrite callbacks_of_set_manager. apply callbacks_of_abort_sub.
Qed.

Lemma managers_doCancel_sub h st h' a :
  managers (doCancel h st) !! h' = Some (Effect (Some a)) →
  managers st !! h' = Some (Effect (Some a)).
Proof.
  unfold doCancel. destruct (manager_of st h) as [|[a'|]]; try done.
  change (managers (set_manager h (Effect None) (abort a' st)))
    with (<[h := Effect None]> (managers (abort a' st))).
  rewrite managers_abort, lookup_insert_Some. by intros [[_ ?]|[_ ?]].
Qed.

Lemma homed_doCancel h st : homed st → homed (doCancel h st).
Proof.
  apply homed_mono.
  - intros h' a. apply managers_doCancel_sub.
  - intros g c. apply callbacks_of_doCancel_sub.
Qed.

Lemma homed_set_manager h o st :
  (∀ a, o ≠ Effect (Some a)) → homed st → homed (set_manager h o st).
Proof.
  intros Ho. apply homed_mono; [|done]. intros h' a.
  change (managers (set_manager h o st)) with (<[h := o]> (managers st)).
  rewrite lookup_insert_Some. intros [[_ ->]|[_ ?]]; [|done]. by destruct (Ho a).
Qed.

Lemma homed_doSchedule h cb ms args st :
  wf st → homed st → homed (doSchedule h cb ms args st).
Proof.
  intros Hwf Hh. destruct (manager_of st h) as [|o] eqn:Hm.
  { by rewrite doSchedule_Noop. }
  destruct (doSchedule_Effect_frame h cb ms args st o Hwf Hm)
    as (g & Hms & Hg & Hother).
  pose proof (homed_doCancel h st Hh) as Hh1.
  pose proof (wf_doCancel h st Hwf) as Hwf1.
  assert (next_cid (doCancel h st) = next_cid st) as Hn by apply next_cid_doCancel.
  assert (∀ g', next_cid st ∉ callbacks_of g' (doCancel h st)) as Hfresh.
  { intros g' Hin. unfold callbacks_of in Hin.
    destruct (groups (doCancel h st) !! g') as [grp|] eqn:Hgrp; simpl in Hin.
    - pose proof (wf_cfresh _ Hwf1 _ _ _ Hgrp Hin). lia.
    - by apply elem_of_nil in Hin. }
  intros h' g0 c g' Hh' Hin. rewrite Hms in Hh'.
  apply lookup_insert_Some in Hh' as [[<- [= <- <-]]|[Hne Hh']].
  - destruct (decide (g' = g)) as [|Hgg]; [done|].
    rewrite (Hother _ Hgg) in Hin. by destruct (Hfresh g').
  - pose proof (wf_aborts _ Hwf1 _ _ _ Hh') as Hlt.
    eapply Hh1; [done|]. destruct (decide (g' = g)) as [->|Hgg].
    + rewrite Hg in Hin. apply elem_of_app in Hin as [|Hin]; [done|].
      apply list_elem_of_singleton in Hin. lia.
    + by rewrite (Hother _ Hgg) in Hin.
Qed.

Lemma homed_run_call k st : wf st → homed st → homed (run_call k st).
Proof.
  intros Hwf Hh. destruct k; simpl.
  - by apply homed_doSchedule.
  - by apply homed_doCancel.
Qed.

Lemma homed_run_calls ks st : wf st → homed st → homed (run_calls ks st).
Proof.
  revert st. induction ks as [|k ks IH]; intros st Hwf Hh; simpl; [done|].
  apply IH; [by apply wf_run_call|by apply homed_run_call].
Qed.

Lemma homed_rearm g st : homed st → homed (rearm g st).
Proof.
  apply homed_mono.
  - intros h a. unfold rearm. by destruct (groups st !! g).
  - intros g' c. unfold rearm. destruct (groups st !! g) as [grp|] eqn:Hg; [|done].
    unfold callbacks_of. simpl. destruct (decide (g = g')) as [<-|Hgg].
    + by rewrite lookup_insert_eq, Hg.
    + by rewrite lookup_insert_ne.
Qed.

Section HomedDispatch.
Variable prog : program.

Lemma homed_attempt c st : wf st → homed st → homed (attempt prog c st).
Proof.
  intros Hwf Hh. unfold attempt, invoke.
  destruct (closures st !! c) as [[f args]|]; simpl.
  - pose proof (homed_run_calls (calls (prog f args st)) (emit (Invoked c) st)
                  (wf_emit _ _ Hwf) Hh) as Hh1.
    by destruct (throws (prog f args st)).
  - done.
Qed.

Lemma homed_dispatch fuel g i st :
  wf st → homed st → homed (state_of (dispatch prog fuel g i st)).
Proof.
  revert i st. induction fuel as [|fuel IH]; intros i st Hwf Hh; simpl; [done|].
  destruct (callbacks_of g st !! i); [|done].
  apply IH; [by apply wf_attempt|by apply homed_attempt].
Qed.

Lemma homed_fire fuel t st :
  wf st → homed st → homed (state_of (fire prog fuel t st)).
Proof.
  intros Hwf Hh. unfold fire. destruct (timers st !! t) as [tm|]; [|done].
  destruct (t_task tm) as [g|e]; [|done].
  unfold invokeCallbacks.
  pose proof (homed_dispatch fuel g 0 (clearTimeout (Some t) st)
                (wf_clearTimeout _ _ Hwf) Hh) as Hd.
  destruct (dispatch prog fuel g 0 (clearTimeout (Some t) st)); simpl in *; [|done].
  by apply homed_rearm.
Qed.

Lemma homed_host_step fuel ev st :
  wf st → homed st → homed (state_of (host_step prog fuel ev st)).
Proof.
  intros Hwf Hh. destruct ev as [h|h|k|t]; simpl.
  - by apply homed_set_manager.
  - by apply homed_set_manager, homed_doCancel.
  - by apply homed_run_call.
  - by apply homed_fire.
Qed.

Lemma homed_run_host fuel evs st :
  wf st → homed st → homed (state_of (run_host prog fuel evs st)).
Proof.
  revert st. induction evs as [|ev evs IH]; intros st Hwf Hh; simpl; [done|].
  pose proof (wf_host_step prog fuel ev st Hwf) as Hwf1.
  pose proof (homed_host_step fuel ev st Hwf Hh) as Hh1.
  destruct (host_step prog fuel ev st); simpl in *; [by apply IH|done].
Qed.
End HomedDispatch.

Lemma homed_init : homed init.
Proof. intros h g c g' Hm. simpl in Hm. by rewrite lookup_empty in Hm. Qed.

Lemma absent_doCancel h g c st :
  wf st → homed st → manager_of st h = Effect (Some (g, c)) →
  absent c (doCancel h st).
Proof.
  intros Hwf Hh Hm. pose proof (manager_of_Effect _ _ _ Hm) as Hm'. split.
  - rewrite next_cid_doCancel. by apply (wf_aborts _ Hwf _ _ _ Hm').
  - intros g' Hin. assert (g' = g) as ->.
    { eapply Hh; [done|]. by eapply callbacks_of_doCancel_sub. }
    revert Hin. unfold doCancel. rewrite Hm, callbacks_of_set_manager.
    by apply callbacks_of_abort.
Qed.

(** ** Ticks, cancellation and the registry *)

Section Bound.
Variable prog : program.

Lemma dispatch_bounded fuel g i st :
  wf st →
  ∃ evs, log (state_of (dispatch prog fuel g i st)) = log st ++ evs ∧
         length (invoked evs) ≤ potential g st - i.
Proof.
  revert i st. induction fuel as [|fuel IH]; intros i st Hwf; simpl.
  { exists []. rewrite app_nil_r. split; [done|simpl; lia]. }
  destruct (callbacks_of g st !! i) as [c|] eqn:Hc; simpl.
  2:{ exists []. rewrite app_nil_r. split; [done|simpl; lia]. }
  destruct (follows_attempt prog c st Hwf) as (e1 & Hf & Hi & _).
  destruct (IH (S i) (attempt prog c st) (wf_attempt prog c st Hwf))
    as (e2 & Hl & Hb).
  rewrite (potential_attempt prog g c st Hwf) in Hb.
  exists (e1 ++ e2). split.
  - by rewrite Hl, (f_log _ _ _ Hf), app_assoc.
  - rewrite invoked_app, length_app, Hi. simpl.
    apply lookup_lt_Some in Hc. unfold potential in *. lia.
Qed.
End Bound.

(** X1: a tick returns, however its callbacks schedule and cancel, and it
    invokes at most [potential g st] callbacks: the length of the array when
    the tick starts plus the number of mounted managers whose registration
    is not in it. *)
Theorem tick_returns_within_bound prog fuel g st :
  wf st → potential g st < fuel →
  ∃ st', invokeCallbacks prog fuel g st = Done st' ∧
         length (invoked (events_since st st')) ≤ potential g st.
Proof.
  intros Hwf Hfuel.
  destruct (invokeCallbacks_terminates prog fuel g st Hwf Hfuel) as (st' & Hd).
  exists st'. split; [done|]. revert Hd. unfold invokeCallbacks.
  destruct (dispatch_bounded prog fuel g 0 st Hwf) as (evs & Hl & Hb).
  pose proof (wf_dispatch prog fuel g 0 st Hwf) as Hwf1.
  destruct (dispatch prog fuel g 0 st) as [st1|st1]; simpl in *; [|done].
  intros [= <-].
  rewrite (events_since_app st (rearm g st1) evs); [lia|].
  by rewrite (f_log _ _ _ (follows_rearm g st1 Hwf1)), app_nil_r.
Qed.

Lemma tick_returns_within_bound_witness :
  ∃ st', invokeCallbacks example 3 0 twice = Done st' ∧
         length (invoked (events_since twice st')) ≤ potential 0 twice.
Proof.
  apply (tick_returns_within_bound example 3 0 twice).
  - apply wf_doSchedule, wf_doSchedule, wf_mounted.
  - vm_compute. lia.
Defined.

(** X2: from any point of a tick on, a closure created before that point and
    not in the array at that point is not invoked in the rest of the tick,
    whatever the callbacks that run do. *)
Theorem removed_closure_not_invoked prog fuel g i st c :
  wf st → c < next_cid st → c ∉ callbacks_of g st →
  c ∉ invoked (events_since st (state_of (dispatch prog fuel g i st))).
Proof.
  intros Hwf Hlt Hout.
  destruct (follows_dispatch prog fuel g i st Hwf) as (evs & Hf & _ & HB & _).
  rewrite (events_since_app _ _ _ (f_log _ _ _ Hf)).
  intros Hin. rewrite Forall_forall in HB.
  destruct (HB _ Hin) as [?|(j & _ & Hj)]; [lia|].
  apply Hout. by eapply list_elem_of_lookup_2.
Qed.

Lemma removed_closure_not_invoked_witness :
  0 ∉ invoked (events_since (doCancel 0 twice)
                 (state_of (dispatch example 3 0 0 (doCancel 0 twice)))).
Proof.
  apply (removed_closure_not_invoked example 3 0 0 (doCancel 0 twice) 0).
  - apply wf_doCancel, wf_doSchedule, wf_doSchedule, wf_mounted.
  - vm_compute. lia.
  - compute_done.
Defined.

(** X3: once [cancel()] or the effect cleanup of a manager has returned, the
    callback the manager had registered is never invoked again, whatever the
    host does next: mounts, unmounts, calls of [schedule] and [cancel], and
    ticks of any scheduler. *)
Theorem cancelled_callback_never_runs prog fuel evs0 evs h g c st :
  run_host prog fuel evs0 init = Done st →
  manager_of st h = Effect (Some (g, c)) →
  (c ∉ invoked (events_since (doCancel h st)
                  (state_of (run_host prog fuel evs (doCancel h st))))) ∧
  (c ∉ invoked (events_since (cleanup h st)
                  (state_of (run_host prog fuel evs (cleanup h st))))).
Proof.
  intros Hrun Hm.
  assert (wf st) as Hwf.
  { pose proof (wf_run_host prog fuel evs0 init wf_init) as H.
    by rewrite Hrun in H. }
  assert (homed st) as Hh.
  { pose proof (homed_run_host prog fuel evs0 init wf_init homed_init) as H.
    by rewrite Hrun in H. }
  pose proof (absent_doCancel h g c st Hwf Hh Hm) as Ha.
  split.
  - by apply run_host_skips_absent; [apply wf_doCancel|].
  - by apply run_host_skips_absent; [apply wf_cleanup|].
Qed.

Lemma cancelled_callback_never_runs_witness :
  0 ∉ invoked (events_since (doCancel 0 twice)
                 (state_of (run_host example 3 [Fire 0; User (Cancel 1); Fire 1]
                              (doCancel 0 twice)))).
Proof.
  refine (proj1 (cancelled_callback_never_runs example 3
    [Mount 0; Mount 1; User (Schedule 0 1 every100 []);
     User (Schedule 1 1 every100 [])]
    [Fire 0; User (Cancel 1); Fire 1] 0 0 0 twice _ _)).
  - vm_compute. reflexivity.
  - vm_compute. reflexivity.
Defined.

(** X4: [schedule] on a manager that holds a registration replaces it: the
    callback registered before is in no array afterwards, and the manager
    holds the new closure, which is in the array of the scheduler registered
    for the normalised delay. *)
Theorem schedule_replaces_registration h cb ms args g0 c0 st :
  wf st → homed st → manager_of st h = Effect (Some (g0, c0)) →
  let st' := doSchedule h cb ms args st in
  absent c0 st' ∧
  ∃ g, schedulers st' !! delay_key ms = Some g ∧
       manager_of st' h = Effect (Some (g, next_cid st)) ∧
       next_cid st ∈ callbacks_of g st'.
Proof.
  intros Hwf Hh Hm st'. subst st'.
  destruct (absent_doCancel h g0 c0 st Hwf Hh Hm) as [Hlt Hout].
  rewrite next_cid_doCancel in Hlt.
  destruct (doSchedule_Effect h cb ms args st _ Hwf Hm)
    as (g & Hs & Hm' & _ & Hcb & _ & Hn & _).
  destruct (doSchedule_Effect_frame h cb ms args st _ Hwf Hm)
    as (g1 & _ & Hcb1 & Hother).
  split.
  - split; [rewrite Hn; lia|]. intros g' Hin.
    destruct (decide (g' = g1)) as [->|Hne].
    + rewrite Hcb1 in Hin.
      apply elem_of_app in Hin as [Hin|Hin]; [by apply (Hout g1)|].
      apply list_elem_of_singleton in Hin. lia.
    + rewrite (Hother _ Hne) in Hin. by apply (Hout g').
  - exists g. split_and!; [done|done|]. rewrite Hcb.
    apply elem_of_app. right. by apply list_elem_of_singleton.
Qed.

Lemma schedule_replaces_registration_witness :
  absent 0 (doSchedule 0 1 (Finite 250 0) [] twice).
Proof.
  refine (proj1 (schedule_replaces_registration 0 1 (Finite 250 0) [] 0 0 twice
                   _ _ _)).
  - apply wf_doSchedule, wf_doSchedule, wf_mounted.
  - apply homed_doSchedule; [apply wf_doSchedule, wf_mounted|].
    apply homed_doSchedule; [apply wf_mounted|].
    apply homed_set_manager; [done|]. apply homed_set_manager; [done|].
    apply homed_init.
  - vm_compute. reflexivity.
Defined.

(** X5: in every state the host can reach, a scheduler is registered under a
    delay exactly when it was created for that delay and its array is not
    empty, no array holds a closure twice, and every registered scheduler
    has one pending timer, whose delay is the registry key. *)
Theorem reachable_registry_invariant prog fuel evs st :
  run_host prog fuel evs init = Done st →
  (∀ d g, schedulers st !! d = Some g ↔
          callbacks_of g st ≠ [] ∧
          ∃ grp, groups st !! g = Some grp ∧ g_ms grp = d) ∧
  (∀ g, NoDup (callbacks_of g st)) ∧
  (∀ d g, schedulers st !! d = Some g →
     ∃ t, timers st !! t = Some (Timer (InvokeCallbacks g) d) ∧
          ∀ t' tm, timers st !! t' = Some tm →
                   t_task tm = InvokeCallbacks g → t' = t).
Proof.
  intros Hrun.
  destruct (reachable_wf_timed prog fuel evs init st wf_init timed_init Hrun)
    as [Hwf Ht].
  split_and!.
  - intros d g. split.
    + intros Hs. split; [by eapply (t_nonempty _ _ Ht)|].
      by apply (wf_schedulers _ Hwf).
    + intros (Hne & grp & Hg & <-). apply (wf_registered _ Hwf _ _ Hg).
      by rewrite (callbacks_of_lookup _ _ _ Hg) in Hne.
  - intros g. unfold callbacks_of.
    destruct (groups st !! g) as [grp|] eqn:Hg; simpl; [|constructor].
    apply StronglySorted_NoDup. by apply (wf_sorted _ Hwf g).
  - intros d g Hs. destruct (wf_schedulers _ Hwf _ _ Hs) as (grp & Hg & Hms).
    destruct (t_armed _ _ Ht _ _ _ Hs Hg) as (t & Hto & Htm); [done|].
    exists t. split; [done|]. intros t' tm Ht' Htask.
    destruct (t_single _ _ Ht _ _ _ Ht' Htask) as (_ & grp' & Hg' & Hto').
    congruence.
Qed.

Lemma reachable_registry_invariant_witness :
  NoDup (callbacks_of 0 twice).
Proof.
  refine (proj1 (proj2 (reachable_registry_invariant example 3
    [Mount 0; Mount 1; User (Schedule 0 1 every100 []);
     User (Schedule 1 1 every100 [])] twice _)) 0).
  vm_compute. reflexivity.
Defined.

(** X6: a call of [schedule] or [cancel] through a manager, and its effect
    cleanup, leave in its array every callback that is not the manager's
    own registration. *)
Theorem other_registrations_survive h g c st :
  wf st → c ∈ callbacks_of g st →
  (∀ g', manager_of st h ≠ Effect (Some (g', c))) →
  (∀ k, handle_of k = h → c ∈ callbacks_of g (run_call k st)) ∧
  c ∈ callbacks_of g (cleanup h st).
Proof.
  intros Hwf Hin Hm. split.
  - intros [h' cb ms args|h'] <-; simpl.
    + by apply doSchedule_keeps.
    + by apply doCancel_keeps.
  - unfold cleanup. rewrite callbacks_of_set_manager. by apply doCancel_keeps.
Qed.

Lemma other_registrations_survive_witness :
  1 ∈ callbacks_of 0 (cleanup 0 twice).
Proof.
  refine (proj2 (other_registrations_survive 0 0 1 twice _ _ _)).
  - apply wf_doSchedule, wf_doSchedule, wf_mounted.
  - compute_done.
  - intros g'. vm_compute. congruence.
Defined.

(** ** Schedule and cancel, step by step *)

Lemma indexOf_snoc c l : c ∉ l → indexOf c (l ++ [c]) = Some (length l).
Proof.
  induction l as [|x l IH]; simpl; intros Hc.
  - by rewrite decide_True.
  - apply not_elem_of_cons in Hc as [Hne Hc].
    rewrite decide_False by done. by rewrite IH.
Qed.

Lemma delete_snoc {A} (l : list A) x : delete (length l) (l ++ [x]) = l.
Proof. induction l as [|y l IH]; simpl; [done|]. by rewrite IH. Qed.

Lemma doSchedule_unfold h cb ms args st o :
  manager_of st h = Effect o →
  let r := getOrCreateScheduler (delay_key ms) (doCancel h st) in
  let st3 :=
    State (schedulers r.2) (groups r.2) (next_gid r.2)
          (<[next_cid r.2 := (cb, args)]> (closures r.2)) (S (next_cid r.2))
          (timers r.2) (next_tid r.2) (managers r.2) (log r.2) in
  doSchedule h cb ms args st =
  set_manager h (Effect (Some (r.1, next_cid r.2)))
    (scheduler r.1 (next_cid r.2) st3).2.
Proof.
  intros Hm. cbv zeta. unfold doSchedule. rewrite Hm.
  destruct (getOrCreateScheduler (delay_key ms) (doCancel h st)) as [g st2].
  cbn [fst snd].
  pose proof (scheduler_fst g (next_cid st2)
    (State (schedulers st2) (groups st2) (next_gid st2)
       (<[next_cid st2 := (cb, args)]> (closures st2)) (S (next_cid st2))
       (timers st2) (next_tid st2) (managers st2) (log st2))) as Hfst.
  destruct (scheduler g (next_cid st2) _) as [a st4]. simpl in Hfst. by subst a.
Qed.

(** [doSchedule] when no scheduler is registered for the delay once the
    manager's previous registration is cancelled. *)
Lemma doSchedule_miss h cb ms args st o :
  wf st → manager_of st h = Effect o →
  schedulers (doCancel h st) !! delay_key ms = None →
  let st1 := doCancel h st in
  let st' := doSchedule h cb ms args st in
  let g := next_gid st1 in
  schedulers st' = <[delay_key ms := g]> (schedulers st1) ∧
  timers st' = <[next_tid st1 := Timer (InvokeCallbacks g) (delay_key ms)]>
                 (timers st1) ∧
  groups st' !! g = Some (Group (delay_key ms) [next_cid st1] (Some (next_tid st1))) ∧
  (∀ g', g' ≠ g → groups st' !! g' = groups st1 !! g') ∧
  managers st' = <[h := Effect (Some (g, next_cid st1))]> (managers st1).
Proof.
  intros Hwf Hm Hs. cbv zeta. rewrite (doSchedule_unfold h cb ms args st o Hm).
  cbv zeta. unfold getOrCreateScheduler. rewrite Hs.
  cbn [fst snd next_cid schedulers groups next_gid closures timers next_tid
       managers log].
  set (st1 := doCancel h st) in *.
  set (g := next_gid st1).
  set (st3 := State _ _ _ _ _ _ _ _ _).
  assert (groups st3 !! g = Some (Group (delay_key ms) [] None)) as Hg.
  { subst st3. simpl. by rewrite lookup_insert_eq. }
  rewrite (scheduler_unfold g (next_cid st1) st3 _ Hg eq_refl).
  cbv zeta. simpl. split_and!; try done.
  - by rewrite lookup_insert_eq.
  - intros g' Hne. by rewrite !lookup_insert_ne.
Qed.

(** [doSchedule] when a scheduler with callbacks is registered for the
    delay. *)
Lemma doSchedule_hit h cb ms args st o g grp :
  wf st → manager_of st h = Effect o →
  schedulers (doCancel h st) !! delay_key ms = Some g →
  groups (doCancel h st) !! g = Some grp → g_callbacks grp ≠ [] →
  let st1 := doCancel h st in
  let st' := doSchedule h cb ms args st in
  schedulers st' = schedulers st1 ∧
  timers st' = timers st1 ∧
  groups st' !! g = Some (Group (g_ms grp) (g_callbacks grp ++ [next_cid st1])
                            (g_timeout grp)) ∧
  (∀ g', g' ≠ g → groups st' !! g' = groups st1 !! g') ∧
  managers st' = <[h := Effect (Some (g, next_cid st1))]> (managers st1).
Proof.
  intros Hwf Hm Hs Hg Hne. cbv zeta.
  rewrite (doSchedule_unfold h cb ms args st o Hm).
  cbv zeta. unfold getOrCreateScheduler. rewrite Hs.
  cbn [fst snd next_cid schedulers groups next_gid closures timers next_tid
       managers log].
  set (st1 := doCancel h st) in *.
  set (st3 := State _ _ _ _ _ _ _ _ _).
  assert (indexOf (next_cid st1) (g_callbacks grp) = None) as Hi.
  { apply indexOf_None. intros Hin.
    pose proof (wf_cfresh _ (wf_doCancel h st Hwf) _ _ _ Hg Hin) as Hlt.
    change (doCancel h st) with st1 in Hlt. lia. }
  rewrite (scheduler_unfold g (next_cid st1) st3 grp Hg Hi).
  cbv zeta. simpl.
  assert (length (g_callbacks grp ++ [next_cid st1]) ≠ 1) as Hlen.
  { rewrite length_app. simpl. destruct (g_callbacks grp); [done|simpl; lia]. }
  rewrite !(decide_False _ _ Hlen). split_and!; try done.
  - by rewrite lookup_insert_eq.
  - intros g' Hgg. by rewrite lookup_insert_ne.
Qed.

Lemma doCancel_unfold h g c st grp i :
  manager_of st h = Effect (Some (g, c)) →
  groups st !! g = Some grp → indexOf c (g_callbacks grp) = Some i →
  let cbs := delete i (g_callbacks grp) in
  doCancel h st =
  State (if decide (length cbs = 0) then delete (g_ms grp) (schedulers st)
         else schedulers st)
        (<[g := Group (g_ms grp) cbs (g_timeout grp)]> (groups st))
        (next_gid st) (closures st) (next_cid st)
        (if decide (length cbs = 0)
         then from_option (λ t, delete t (timers st)) (timers st) (g_timeout grp)
         else timers st)
        (next_tid st) (<[h := Effect None]> (managers st))
        (log st ++ [Spliced g c]).
Proof.
  intros Hm Hg Hi. cbv zeta. unfold doCancel. rewrite Hm.
  by rewrite (abort_unfold g c st grp i Hg Hi).
Qed.


(** X7: on a mounted manager with nothing scheduled, [schedule] followed at
    once by [cancel] leaves the registry, the pending timers and every
    callbacks array as they were. *)
Theorem schedule_then_cancel_restores o h cb ms args st :
  wf st → timed o st → manager_of st h = Effect None →
  let st' := doCancel h (doSchedule h cb ms args st) in
  schedulers st' = schedulers st ∧ timers st' = timers st ∧
  (∀ g, callbacks_of g st' = callbacks_of g st) ∧
  manager_of st' h = Effect None.
Proof.
  intros Hwf Ht Hm. cbv zeta.
  assert (doCancel h st = st) as Hc by (unfold doCancel; by rewrite Hm).
  set (st2 := doSchedule h cb ms args st).
  destruct (schedulers st !! delay_key ms) as [g|] eqn:Hs.
  - destruct (wf_schedulers _ Hwf _ _ Hs) as (grp & Hg & Hms).
    pose proof (t_nonempty _ _ Ht _ _ Hs) as Hne.
    rewrite (callbacks_of_lookup _ _ _ Hg) in Hne.
    destruct (doSchedule_hit h cb ms args st _ g grp Hwf Hm)
      as (Hs2 & Ht2 & Hg2 & Ho2 & Hm2); rewrite ?Hc; try done.
    rewrite Hc in *. fold st2 in Hs2, Ht2, Hg2, Ho2, Hm2.
    assert (next_cid st ∉ g_callbacks grp) as Hfresh.
    { intros Hin. pose proof (wf_cfresh _ Hwf _ _ _ Hg Hin). lia. }
    assert (manager_of st2 h = Effect (Some (g, next_cid st))) as Hm3.
    { unfold manager_of. by rewrite Hm2, lookup_insert_eq. }
    rewrite (doCancel_unfold h g (next_cid st) st2 _ (length (g_callbacks grp))
               Hm3 Hg2 (indexOf_snoc _ _ Hfresh)).
    cbv zeta. simpl. rewrite delete_snoc.
    assert (length (g_callbacks grp) ≠ 0) as Hlen
      by (by destruct (g_callbacks grp)).
    rewrite !(decide_False _ _ Hlen). split_and!; try done.
    + intros g'. unfold callbacks_of. simpl.
      destruct (decide (g' = g)) as [->|Hgg].
      * by rewrite lookup_insert_eq, Hg.
      * by rewrite lookup_insert_ne, (Ho2 _ Hgg).
    + unfold manager_of. simpl. by rewrite lookup_insert_eq.
  - destruct (doSchedule_miss h cb ms args st _ Hwf Hm)
      as (Hs2 & Ht2 & Hg2 & Ho2 & Hm2); rewrite ?Hc; try done.
    rewrite Hc in *. fold st2 in Hs2, Ht2, Hg2, Ho2, Hm2.
    assert (manager_of st2 h = Effect (Some (next_gid st, next_cid st))) as Hm3.
    { unfold manager_of. by rewrite Hm2, lookup_insert_eq. }
    rewrite (doCancel_unfold h (next_gid st) (next_cid st) st2 _ 0
               Hm3 Hg2 (indexOf_snoc _ [] (not_elem_of_nil _))).
    cbv zeta. simpl. split_and!.
    + rewrite Hs2. by apply delete_insert_id.
    + rewrite Ht2. apply delete_insert_id.
      destruct (timers st !! next_tid st) as [tm|] eqn:Htm; [|done].
      pose proof (wf_tfresh _ Hwf _ _ Htm). lia.
    + intros g'. unfold callbacks_of. simpl.
      destruct (decide (g' = next_gid st)) as [->|Hgg].
      * rewrite lookup_insert_eq. simpl.
        destruct (groups st !! next_gid st) as [grp|] eqn:Hgrp; [|done].
        pose proof (wf_gfresh _ Hwf _ _ Hgrp). lia.
      * by rewrite lookup_insert_ne, (Ho2 _ Hgg).
    + unfold manager_of. simpl. by rewrite lookup_insert_eq.
Qed.

Lemma schedule_then_cancel_restores_witness :
  timers (doCancel 0 (doSchedule 0 1 (Finite 250 0) [] mounted)) = timers mounted.
Proof.
  refine (proj1 (proj2 (schedule_then_cancel_restores None 0 1 (Finite 250 0) []
                          mounted _ _ _))).
  - apply wf_mounted.
  - apply timed_effect, timed_effect, timed_init.
  - vm_compute. reflexivity.
Defined.

(** What [doCancel] leaves when the manager held the only callback of its
    scheduler, in a state between two host events. *)
Lemma doCancel_last h g c st :
  wf st → timed None st → manager_of st h = Effect (Some (g, c)) →
  callbacks_of g st = [c] →
  let st' := doCancel h st in
  callbacks_of g st' = [] ∧
  (∀ d, schedulers st' !! d ≠ Some g) ∧
  (∀ t tm, timers st' !! t = Some tm → t_task tm ≠ InvokeCallbacks g) ∧
  (∀ t tm, timers st !! t = Some tm → t_task tm ≠ InvokeCallbacks g →
           timers st' !! t = Some tm) ∧
  (∀ d g', g' ≠ g → schedulers st !! d = Some g' →
           schedulers st' !! d = Some g').
Proof.
  intros Hwf Ht Hm Hcb. cbv zeta.
  assert (∃ grp, groups st !! g = Some grp ∧ g_callbacks grp = [c])
    as (grp & Hg & Hl).
  { unfold callbacks_of in Hcb. destruct (groups st !! g) as [grp|]; [|done].
    by exists grp. }
  assert (schedulers st !! g_ms grp = Some g) as Hs.
  { apply (wf_registered _ Hwf _ _ Hg). by rewrite Hl. }
  destruct (t_armed _ _ Ht _ _ _ Hs Hg) as (t0 & Hto & Htm0); [done|].
  rewrite (doCancel_unfold h g c st grp 0 Hm Hg);
    [|by rewrite Hl; simpl; rewrite decide_True].
  cbv zeta. rewrite Hl, Hto. simpl. split_and!.
  - unfold callbacks_of. simpl. by rewrite lookup_insert_eq.
  - intros d Hd. apply lookup_delete_Some in Hd as [Hne Hd].
    destruct (wf_schedulers _ Hwf _ _ Hd) as (grp' & Hg' & Hms). congruence.
  - intros t tm Htm Htask. apply lookup_delete_Some in Htm as [Hne Htm].
    destruct (t_single _ _ Ht _ _ _ Htm Htask) as (_ & grp' & Hg' & Hto').
    congruence.
  - intros t tm Htm Htask. apply lookup_delete_Some. split; [|done].
    intros <-. rewrite Htm0 in Htm. injection Htm as <-. by apply Htask.
  - intros d g' Hgg Hd. apply lookup_delete_Some. split; [|done].
    intros <-. congruence.
Qed.

(** X8: between two host events, [cancel()] on the manager that holds the
    only callback of a scheduler empties the array, takes the scheduler out
    of the registry and clears its timer: no pending timer runs that
    scheduler any more, and the timers and registry entries of the other
    schedulers stay. *)
Theorem last_cancel_releases_timer h g c st :
  wf st → timed None st → manager_of st h = Effect (Some (g, c)) →
  callbacks_of g st = [c] →
  let st' := doCancel h st in
  callbacks_of g st' = [] ∧
  (∀ d, schedulers st' !! d ≠ Some g) ∧
  (∀ t tm, timers st' !! t = Some tm → t_task tm ≠ InvokeCallbacks g) ∧
  (∀ t tm, timers st !! t = Some tm → t_task tm ≠ InvokeCallbacks g →
           timers st' !! t = Some tm) ∧
  (∀ d g', g' ≠ g → schedulers st !! d = Some g' →
           schedulers st' !! d = Some g').
Proof. apply doCancel_last. Qed.

Lemma last_cancel_releases_timer_witness :
  callbacks_of 0 (doCancel 0 adding) = [].
Proof.
  refine (proj1 (last_cancel_releases_timer 0 0 0 adding _ _ _ _)).
  - apply wf_adding.
  - apply timed_doSchedule; [apply wf_mounted|].
    apply timed_effect, timed_effect, timed_init.
  - vm_compute. reflexivity.
  - vm_compute. reflexivity.
Defined.



(** ** Delays outside the 32-bit integers *)

Lemma truncate_fraction m k :
  (0 < k)%Z → truncate m (- k) = (m ÷ 2 ^ k)%Z.
Proof.
  intros Hk. unfold truncate. destruct (Z.leb_spec 0 (- k)); [lia|].
  by rewrite Z.opp_involutive.
Qed.

(** X10: a delay with a fractional part is cut to its integral part: every
    delay from [n] up to, but not including, [n + 1] has the key [n], so it
    shares the scheduler of the delay [n]. *)
Theorem fractional_delay_is_truncated n k r :
  (0 ≤ n < 2 ^ 31)%Z → (0 < k)%Z → (0 ≤ r < 2 ^ k)%Z →
  delay_key (Finite (n * 2 ^ k + r) (- k)) = n ∧
  delay_key (Finite (n * 2 ^ k + r) (- k)) = delay_key (Finite n 0).
Proof.
  intros Hn Hk Hr.
  assert (delay_key (Finite (n * 2 ^ k + r) (- k)) = n) as H.
  { rewrite delay_key_max. unfold ToInt32. rewrite truncate_fraction by done.
    assert (0 < 2 ^ k)%Z as Hp by (apply Z.pow_pos_nonneg; lia).
    rewrite Z.quot_div_nonneg by nia.
    rewrite Z.div_add_l, Z.div_small, Z.add_0_r by lia.
    cbv zeta. rewrite Z.mod_small by lia.
    destruct (Z.leb_spec (2 ^ 31) n); lia. }
  split; [done|]. rewrite H, delay_key_int32 by lia. lia.
Qed.

Lemma fractional_delay_is_truncated_witness :
  delay_key (Finite 201 (-1)) = 100%Z.
Proof.
  refine (proj1 (fractional_delay_is_truncated 100 1 1 _ _ _)); lia.
Defined.

(** X11: the key of an integral delay depends on the delay modulo 2^32 only:
    it is the residue when that is below 2^31 and 0 otherwise, so a delay of
    2^31 ms or more does not give a longer interval. *)
Theorem integral_delay_wraps n :
  delay_key (Finite n 0) = delay_key (Finite (n mod 2 ^ 32) 0) ∧
  ((n mod 2 ^ 32 < 2 ^ 31)%Z → delay_key (Finite n 0) = (n mod 2 ^ 32)%Z) ∧
  ((2 ^ 31 ≤ n mod 2 ^ 32)%Z → delay_key (Finite n 0) = 0%Z).
Proof.
  pose proof (Z.mod_pos_bound n (2 ^ 32) ltac:(lia)) as Hb.
  rewrite !delay_key_max. unfold ToInt32. rewrite !truncate_integer. cbv zeta.
  rewrite Z.mod_mod by lia.
  split_and!; [done| |]; intros H;
    destruct (Z.leb_spec (2 ^ 31) (n mod 2 ^ 32)); lia.
Qed.

(** * The hover manager *)

Section HoverFacts.
Import Hover.

Lemma set_hovered_app l1 l2 :
  set_hovered (l1 ++ l2) = set_hovered l1 ++ set_hovered l2.
Proof. apply omap_app. Qed.

Lemma set_hovered_optional b c :
  (∀ x, c ≠ SetHovered x) → set_hovered (optional b c) = [].
Proof. intros Hc. destruct b; [|done]. destruct c; try done. by destruct (Hc isHovered0). Qed.

Lemma set_hovered_start p l :
  set_hovered (l ++ [SetHovered true] ++
               optional (onHoverChange p) (OnHoverChange true) ++
               optional (onHoverStart p) OnHoverStart)
  = set_hovered l ++ [true].
Proof.
  rewrite !set_hovered_app, !set_hovered_optional by done. done.
Qed.

Lemma set_hovered_end p l :
  set_hovered (l ++ [SetHovered false] ++
               optional (onHoverChange p) (OnHoverChange false) ++
               optional (onHoverEnd p) OnHoverEnd)
  = set_hovered l ++ [false].
Proof.
  rewrite !set_hovered_app, !set_hovered_optional by done. done.
Qed.

Lemma toggled_quiet m n s :
  toggled m n → s ≠ STATUS_HOVERED → m_status m ≠ STATUS_HOVERED →
  toggled (Manager s (m_props m) (calls m)) n.
Proof. intros [Hl Hs] Hne Hm. split; [done|]. simpl. tauto. Qed.

Lemma toggled_cancel m n : toggled m n → ∃ n', toggled (cancel m) n'.
Proof.
  intros [Hl Hs]. unfold cancel. case_decide as Hd.
  - exists n. split; [done|]. simpl. split; [done|]. intros Ho. tauto.
  - exists (S n). apply Hs in Hd as Ho. split; cbn [calls m_status].
    + rewrite set_hovered_end, Hl, seq_S, fmap_app. simpl.
      rewrite <- Nat.negb_odd, Ho. done.
    + rewrite Nat.odd_succ, <- Nat.negb_odd, Ho. done.
Qed.

Lemma toggled_handlePointerHover m n e :
  toggled m n → ∃ n', toggled (handlePointerHover e m) n'.
Proof.
  intros [Hl Hs]. unfold handlePointerHover.
  case_decide as H1.
  { exists n. split; [done|]. simpl. destruct H1 as [_ H1].
    rewrite <- Hs, H1. done. }
  case_decide as H2.
  { exists n. split; [done|]. simpl. destruct H2 as [_ H2].
    rewrite <- Hs, H2. done. }
  destruct (_ || _) eqn:Hor; [by exists n|].
  repeat (apply orb_false_elim in Hor as [Hor ?]).
  assert (m_status m = STATUS_NOT_HOVERED) as Hst.
  { match goal with H : bool_decide (m_status m ≠ _) = false |- _ =>
      apply bool_decide_eq_false in H; by apply dec_stable in H end. }
  assert (Nat.odd n = false) as Ho.
  { destruct (Nat.odd n); [|done]. destruct Hs as [_ Hs].
    specialize (Hs eq_refl). congruence. }
  exists (S n). split; cbn [calls m_status].
  - rewrite set_hovered_start, Hl, seq_S, fmap_app. simpl.
    by rewrite <- Nat.negb_odd, Ho.
  - split; [intros _|done]. by rewrite Nat.odd_succ, <- Nat.negb_odd, Ho.
Qed.

Lemma toggled_step m n ev : toggled m n → ∃ n', toggled (step m ev) n'.
Proof.
  intros Ht. destruct ev as [p|e|e|e|]; simpl.
  - unfold render, handleUpdate. simpl.
    assert (toggled (Manager (m_status m) p (calls m)) n) as Ht' by done.
    destruct (isDisabled p); [by apply (toggled_cancel _ n)|by exists n].
  - by apply (toggled_handlePointerHover m n).
  - by apply (toggled_handlePointerHover m n).
  - unfold handlePointerLeave. destruct (_ || _); [by exists n|].
    by apply (toggled_cancel m n).
  - by apply (toggled_cancel m n).
Qed.

Lemma toggled_run evs m n : toggled m n → ∃ n', toggled (run evs m) n'.
Proof.
  revert m n. induction evs as [|ev evs IH]; intros m n Ht; simpl; [by exists n|].
  destruct (toggled_step m n ev Ht) as (n' & Ht'). by eapply IH.
Qed.

Lemma toggled_isHovered m n :
  toggled m n → (isHovered m = true ↔ m_status m = STATUS_HOVERED).
Proof.
  intros [Hl Hs]. unfold isHovered. rewrite Hl, Hs. destruct n as [|n]; [done|].
  rewrite seq_S, fmap_app.
  change (Nat.even <$> [0 + n]) with [Nat.even n].
  rewrite last_snoc. simpl. by rewrite Nat.odd_succ.
Qed.

Lemma cancel_quiet m :
  m_status m ≠ STATUS_HOVERED →
  calls (cancel m) = calls m ∧ m_status (cancel m) = STATUS_NOT_HOVERED ∧
  m_props (cancel m) = m_props m.
Proof. intros Hs. unfold cancel. by rewrite decide_True. Qed.

Lemma handlePointerHover_quiet m e :
  m_status m ≠ STATUS_HOVERED →
  isDisabled (m_props m) = true ∨ starts_hover e = false →
  calls (handlePointerHover e m) = calls m ∧
  m_status (handlePointerHover e m) ≠ STATUS_HOVERED ∧
  m_props (handlePointerHover e m) = m_props m.
Proof.
  intros Hs Hq. unfold handlePointerHover.
  case_decide; [done|]. case_decide; [done|].
  destruct (_ || _) eqn:Hor; [done|]. exfalso.
  repeat (apply orb_false_elim in Hor as [Hor ?]).
  destruct Hq as [Hd|Hst]; [congruence|]. unfold starts_hover in Hst.
  repeat match goal with H : bool_decide (_ ≠ _) = false |- _ =>
    apply bool_decide_eq_false in H; apply dec_stable in H end.
  rewrite !bool_decide_eq_true_2 in Hst by done. simpl in Hst.
  destruct (isPortalEvent e); done.
Qed.

(** Events that cannot start a hover leave the calls as they are. *)
Lemma step_quiet m ev :
  m_status m ≠ STATUS_HOVERED →
  (isDisabled (m_props m) = true ∧ (∀ p, ev = Render p → isDisabled p = true)) ∨
  ((∀ e, hover_event ev = Some e → starts_hover e = false)) →
  calls (step m ev) = calls m ∧ m_status (step m ev) ≠ STATUS_HOVERED ∧
  (isDisabled (m_props m) = true → (∀ p, ev = Render p → isDisabled p = true) →
   isDisabled (m_props (step m ev)) = true).
Proof.
  intros Hs Hq. destruct ev as [p|e|e|e|]; simpl.
  - unfold render, handleUpdate. simpl. destruct (isDisabled p) eqn:Hp.
    + destruct (cancel_quiet (Manager (m_status m) p (calls m)) Hs)
        as (-> & -> & ->). simpl. split_and!; try done.
    + simpl. split_and!; try done. intros _ H. specialize (H p eq_refl). congruence.
  - destruct (handlePointerHover_quiet m e Hs) as (-> & ? & ->); [|done].
    destruct Hq as [[? _]|Hq]; [by left|right; by apply Hq].
  - destruct (handlePointerHover_quiet m e Hs) as (-> & ? & ->); [|done].
    destruct Hq as [[? _]|Hq]; [by left|right; by apply Hq].
  - unfold handlePointerLeave. by rewrite bool_decide_eq_true_2.
  - destruct (cancel_quiet m Hs) as (-> & -> & ->). done.
Qed.

Lemma run_quiet evs m :
  m_status m ≠ STATUS_HOVERED →
  (isDisabled (m_props m) = true ∧ (∀ p, Render p ∈ evs → isDisabled p = true)) ∨
  (∀ ev e, ev ∈ evs → hover_event ev = Some e → starts_hover e = false) →
  calls (run evs m) = calls m ∧ m_status (run evs m) ≠ STATUS_HOVERED.
Proof.
  revert m. induction evs as [|ev evs IH]; intros m Hs Hq; simpl; [done|].
  destruct (step_quiet m ev Hs) as (Hc & Hs' & Hd).
  { destruct Hq as [[Hd Hr]|Hq].
    - left. split; [done|]. intros p ->. apply Hr. by left.
    - right. intros e. apply Hq. by left. }
  destruct (IH (step m ev) Hs') as [Hc' Hs''].
  { destruct Hq as [[Hd0 Hr]|Hq].
    - left. split.
      + apply Hd; [done|]. intros p ->. apply Hr. by left.
      + intros p Hp. apply Hr. by right.
    - right. intros ev' e Hin. apply Hq. by right. }
  split; [congruence|done].
Qed.

Lemma hover_state_follows_calls_aux evs p :
  let m := run evs (createHoverManager p) in
  (isHovered m = true ↔ m_status m = STATUS_HOVERED) ∧
  ∃ n, set_hovered (calls m) = Nat.even <$> seq 0 n.
Proof.
  assert (toggled (createHoverManager p) 0) as H0 by done.
  destruct (toggled_run evs _ _ H0) as (n & Ht). split.
  - by apply (toggled_isHovered _ n).
  - exists n. by destruct Ht.
Qed.

(** X12: after any sequence of renders, pointer events and [cancelHover]
    calls, the [setHovered] calls the manager has made are [true], [false],
    [true], ... in turn, and the React state they leave is [true] exactly
    when the manager is in [STATUS_HOVERED]. *)
Theorem hover_state_follows_calls p evs :
  let m := run evs (createHoverManager p) in
  (isHovered m = true ↔ m_status m = STATUS_HOVERED) ∧
  ∃ n, set_hovered (calls m) = Nat.even <$> seq 0 n.
Proof. apply hover_state_follows_calls_aux. Qed.

(** X13: a hover starts only by a pointer event of a mouse with no button
    pressed that does not come from a portal: a run in which no
    [pointerenter] or [pointermove] event is one calls neither [setHovered]
    nor a handler of the props. *)
Theorem hover_needs_idle_mouse p evs :
  (∀ ev e, ev ∈ evs → hover_event ev = Some e → starts_hover e = false) →
  calls (run evs (createHoverManager p)) = [].
Proof.
  intros Hq. by destruct (run_quiet evs (createHoverManager p)) as [-> _]; [|right|].
Qed.

Lemma hover_needs_idle_mouse_witness :
  calls (run [PointerEnter (PointerEvent Touch 0 false);
              PointerMove (PointerEvent Mouse 1 false);
              PointerLeave (PointerEvent Mouse 0 false)]
             (createHoverManager (Props false true true true))) = [].
Proof.
  apply hover_needs_idle_mouse. intros ev e Hin He.
  repeat (apply elem_of_cons in Hin as [->|Hin]); simpl in He;
    try (by apply elem_of_nil in Hin); try done; by injection He as <-.
Defined.



(** X15: a render with [isDisabled] ends the hover: after its layout effect
    the manager is not hovered and the React state is [false], and until a
    render without [isDisabled] no event calls [setHovered] or a handler. *)
Theorem disabling_ends_hover p0 evs p evs' :
  isDisabled p = true →
  (∀ p', Render p' ∈ evs' → isDisabled p' = true) →
  let m := run (evs ++ [Render p]) (createHoverManager p0) in
  isHovered m = false ∧ m_status m = STATUS_NOT_HOVERED ∧
  calls (run evs' m) = calls m.
Proof.
  intros Hp Hr m.
  assert (m = cancel (Manager (m_status (run evs (createHoverManager p0))) p
                        (calls (run evs (createHoverManager p0))))) as Hm.
  { subst m. unfold run. rewrite foldl_snoc. simpl.
    unfold render, handleUpdate. simpl. by rewrite Hp. }
  assert (m_status m = STATUS_NOT_HOVERED ∧ isDisabled (m_props m) = true)
    as [Hs Hd].
  { rewrite Hm. unfold cancel. by case_decide. }
  split_and!; [|done|].
  - destruct (hover_state_follows_calls_aux (evs ++ [Render p]) p0) as [Hi _].
    fold m in Hi. destruct (isHovered m); [|done].
    destruct Hi as [Hi _]. specialize (Hi eq_refl). congruence.
  - apply run_quiet; [congruence|]. by left.
Qed.

Lemma disabling_ends_hover_witness :
  isHovered (run ([PointerEnter (PointerEvent Mouse 0 false)] ++
                  [Render (Props true true true true)])
               (createHoverManager (Props false true true true))) = false.
Proof.
  refine (proj1 (disabling_ends_hover (Props false true true true)
                   [PointerEnter (PointerEvent Mouse 0 false)]
                   (Props true true true true) [] _ _)).
  - reflexivity.
  - intros p' Hin. by apply elem_of_nil in Hin.
Defined.

Lemma filter_ne_id (l : list nat) i : i ∉ l → filter (λ j, j ≠ i) l = l.
Proof.
  induction l as [|x l IH]; intros Hi; [done|].
  apply not_elem_of_cons in Hi as [Hne Hi].
  rewrite filter_cons_True by done. by rewrite IH.
Qed.

Lemma length_filter_ne (l : list nat) i :
  NoDup l → i ∈ l → S (length (filter (λ j, j ≠ i) l)) = length l.
Proof.
  induction l as [|x l IH]; intros Hnd Hin; [by apply elem_of_nil in Hin|].
  apply NoDup_cons in Hnd as [Hx Hnd].
  destruct (decide (x = i)) as [->|Hne].
  - rewrite filter_cons_False by (intros H; by apply H).
    by rewrite filter_ne_id.
  - rewrite filter_cons_True by done. simpl. f_equal. apply IH; [done|].
    apply elem_of_cons in Hin as [->|]; done.
Qed.

(** [hoverManagerCount] is the number of subscribed managers, and the
    [blur] listener is there exactly when there is one. *)
Lemma counted_step pg ev :
  hoverManagerCount pg = Z.of_nat (length (subscribed pg)) →
  (blur_listener pg = true ↔ subscribed pg ≠ []) →
  NoDup (subscribed pg) →
  paired (subscribed pg) [ev] →
  let pg' := mount_step pg ev in
  hoverManagerCount pg' = Z.of_nat (length (subscribed pg')) ∧
  (blur_listener pg' = true ↔ subscribed pg' ≠ []) ∧
  NoDup (subscribed pg').
Proof.
  intros Hc Hb Hnd Hp. destruct ev as [i|i]; simpl in *; destruct Hp as [Hi _].
  - split_and!.
    + rewrite length_app. simpl. lia.
    + case_decide as Hd.
      * split; [|done]. intros _. by destruct (subscribed pg).
      * rewrite Hb. split; [intros _; by destruct (subscribed pg)|].
        intros _ He. rewrite He in Hc. simpl in Hc. lia.
    + apply NoDup_app. split_and!; [done| |apply NoDup_singleton].
      intros x Hx ->%list_elem_of_singleton. done.
  - pose proof (length_filter_ne _ _ Hnd Hi) as Hl. split_and!.
    + lia.
    + case_decide as Hd.
      * split; [done|]. intros Hne. destruct (filter _ _); [done|].
        simpl in Hl. lia.
      * rewrite Hb. split.
        -- intros _ He. rewrite He in Hl. simpl in Hl. lia.
        -- intros _ He. rewrite He in Hi. by apply elem_of_nil in Hi.
    + by apply NoDup_filter.
Qed.

(** X16: when the host runs the mount effect of a manager that is not
    mounted and the cleanup of one that is, [hoverManagerCount] is the number
    of mounted managers, and [window] has the [blur] listener exactly when
    at least one manager is mounted. *)
Theorem blur_listener_follows_mounts evs :
  paired [] evs →
  let pg := foldl mount_step page0 evs in
  hoverManagerCount pg = Z.of_nat (length (subscribed pg)) ∧
  (blur_listener pg = true ↔ subscribed pg ≠ []) ∧
  NoDup (subscribed pg).
Proof.
  assert (∀ pg,
    hoverManagerCount pg = Z.of_nat (length (subscribed pg)) →
    (blur_listener pg = true ↔ subscribed pg ≠ []) →
    NoDup (subscribed pg) →
    paired (subscribed pg) evs →
    let pg' := foldl mount_step pg evs in
    hoverManagerCount pg' = Z.of_nat (length (subscribed pg')) ∧
    (blur_listener pg' = true ↔ subscribed pg' ≠ []) ∧
    NoDup (subscribed pg')) as Hgen.
  { induction evs as [|ev evs IH]; intros pg Hc Hb Hnd Hp; simpl; [done|].
    destruct (counted_step pg ev Hc Hb Hnd) as (Hc' & Hb' & Hnd').
    { destruct ev; simpl in *; tauto. }
    apply IH; try done. destruct ev; simpl in *; tauto. }
  intros Hp. apply Hgen; try done. apply NoDup_nil_2.
Qed.

Lemma blur_listener_follows_mounts_witness :
  blur_listener (foldl mount_step page0
                   [Mounted 0; Mounted 1; Unmounted 0]) = true ↔
  subscribed (foldl mount_step page0 [Mounted 0; Mounted 1; Unmounted 0]) ≠ [].
Proof.
  refine (proj1 (proj2 (blur_listener_follows_mounts
                          [Mounted 0; Mounted 1; Unmounted 0] _))).
  simpl. split_and!; try done.
  - apply not_elem_of_nil.
  - compute_done.
  - compute_done.
Defined.
End HoverFacts.

(** * The debounce manager *)

Section DebounceFacts.
Import Debounce.

Lemma wf_cancel st : wf st → wf (cancel st).
Proof.
  intros Hwf. unfold cancel. destruct (timeout st) as [t|] eqn:E; [|done].
  destruct Hwf as [H1 H2]. constructor; simpl.
  - intros t' a Ht'. apply lookup_delete_Some in Ht' as [_ Ht']. eauto.
  - intros t' Ht'. apply H2. congruence.
Qed.

Lemma wf_step st ev : wf st → wf (step st ev).
Proof.
  intros Hwf. destruct ev as [a| |t|a|t]; simpl.
  - unfold debounce. destruct (wf_cancel st Hwf) as [H1 H2].
    constructor; simpl.
    + intros t a'. rewrite lookup_insert_Some. intros [[<- _]|[_ Ht]]; [lia|].
      apply H1 in Ht. lia.
    + intros t [= <-]. lia.
  - by apply wf_cancel.
  - destruct Hwf as [H1 H2]. unfold fire.
    destruct (timers st !! t) as [a|]; [|done]. constructor; simpl; [|done].
    intros t' a' Ht'. apply lookup_delete_Some in Ht' as [_ Ht']. eauto.
  - destruct Hwf as [H1 H2]. constructor; simpl.
    + intros t a'. rewrite lookup_insert_Some. intros [[<- _]|[_ Ht]]; [lia|].
      apply H1 in Ht. lia.
    + intros t Ht. apply H2 in Ht. lia.
  - destruct Hwf as [H1 H2]. constructor; simpl; [|done].
    intros t' a' Ht'. apply lookup_delete_Some in Ht' as [_ Ht']. eauto.
Qed.

(** A timer that is not pending and whose identifier has been handed out
    is never pending again, and never fires. *)
Lemma gone_step st ev t :
  timers st !! t = None → t < next_tid st →
  timers (step st ev) !! t = None ∧ t < next_tid (step st ev) ∧
  ∀ x, (t, x) ∈ fired (step st ev) → (t, x) ∈ fired st.
Proof.
  intros Ht Hlt. destruct ev as [a| |t'|a|t']; simpl.
  - unfold debounce, cancel. destruct (timeout st) as [t0|]; simpl.
    + rewrite lookup_insert_ne by lia. rewrite lookup_delete_None.
      split_and!; [by right|lia|done].
    + rewrite lookup_insert_ne by lia. split_and!; [done|lia|done].
  - unfold cancel. destruct (timeout st) as [t0|]; simpl; [|done].
    rewrite lookup_delete_None. split_and!; [by right|done|done].
  - unfold fire. destruct (timers st !! t') as [a|] eqn:Ht'; [|done]. simpl.
    rewrite lookup_delete_None. split_and!; [by right|done|].
    intros x [Hx|Hx]%elem_of_app; [done|].
    apply list_elem_of_singleton in Hx as [= <- <-]. congruence.
  - rewrite lookup_insert_ne by lia. split_and!; [done|lia|done].
  - rewrite lookup_delete_None. split_and!; [by right|done|done].
Qed.

Lemma gone_run evs st t :
  timers st !! t = None → t < next_tid st →
  timers (run evs st) !! t = None ∧
  ∀ x, (t, x) ∈ fired (run evs st) → (t, x) ∈ fired st.
Proof.
  revert st. induction evs as [|ev evs IH]; intros st Ht Hlt; simpl; [done|].
  destruct (gone_step st ev t Ht Hlt) as (Ht' & Hlt' & Hf).
  destruct (IH _ Ht' Hlt') as [Ht'' Hf']. split; [done|]. eauto.
Qed.

Lemma fired_cancel st : fired (cancel st) = fired st.
Proof. unfold cancel. by destruct (timeout st). Qed.

Lemma fired_debounce a st : fired (debounce a st) = fired st.
Proof. unfold debounce, cancel. by destruct (timeout st). Qed.

Lemma debounce_superseded_never_fires_aux st t a evs :
  wf st → timeout st = Some t →
  timers (run evs (debounce a st)) !! t = None ∧
  ∀ x, (t, x) ∈ fired (run evs (debounce a st)) → (t, x) ∈ fired st.
Proof.
  intros Hwf Ht. pose proof (wf_timeout _ Hwf _ Ht) as Hlt.
  rewrite <- (fired_debounce a st).
  apply (gone_run evs (debounce a st) t).
  - unfold debounce, cancel. rewrite Ht. simpl.
    rewrite lookup_insert_ne by lia. by rewrite lookup_delete_eq.
  - unfold debounce, cancel. rewrite Ht. simpl. lia.
Qed.

(** X18: once [cancel] has returned, be it called by the user or as the
    effect cleanup, or once a further [debounce] call has returned, the
    timer the manager held does not fire any more, whatever happens next. *)
Theorem debounce_superseded_never_fires st t a evs :
  wf st → timeout st = Some t →
  (timers (run evs (cancel st)) !! t = None ∧
   ∀ x, (t, x) ∈ fired (run evs (cancel st)) → (t, x) ∈ fired st) ∧
  (timers (run evs (debounce a st)) !! t = None ∧
   ∀ x, (t, x) ∈ fired (run evs (debounce a st)) → (t, x) ∈ fired st).
Proof.
  intros Hwf Ht. pose proof (wf_timeout _ Hwf _ Ht) as Hlt. split.
  - rewrite <- (fired_cancel st).
    apply gone_run; [|by unfold cancel; rewrite Ht].
    unfold cancel. rewrite Ht. simpl. by rewrite lookup_delete_eq.
  - by apply debounce_superseded_never_fires_aux.
Qed.

Lemma debounce_superseded_never_fires_witness :
  timers (run [Fire 0; Fire 1]
            (debounce (Args 2 None [])
               (debounce (Args 1 None []) (State ∅ 0 None [])))) !! 0 = None.
Proof.
  refine (proj1 (proj2 (debounce_superseded_never_fires
    (debounce (Args 1 None []) (State ∅ 0 None [])) 0 (Args 2 None [])
    [Fire 0; Fire 1] _ _))).
  - apply (wf_step (State ∅ 0 None []) (CallDebounce (Args 1 None []))).
    constructor; simpl; [intros t a; by rewrite lookup_empty|done].
  - reflexivity.
Defined.

(** X19: [debounce] followed at once by [cancel] leaves the pending timers
    as [cancel] alone leaves them. *)
Theorem debounce_then_cancel_restores st a :
  wf st → timers (cancel (debounce a st)) = timers (cancel st).
Proof.
  intros Hwf. pose proof (wf_cancel st Hwf) as [H1 _].
  unfold debounce. simpl. unfold cancel at 1. simpl.
  apply delete_insert_id.
  destruct (timers (cancel st) !! next_tid (cancel st)) as [x|] eqn:Hx; [|done].
  apply H1 in Hx. lia.
Qed.

Lemma debounce_then_cancel_restores_witness :
  timers (cancel (debounce (Args 1 None []) (State ∅ 0 None []))) =
  timers (cancel (State ∅ 0 None [])).
Proof.
  apply debounce_then_cancel_restores.
  constructor; simpl; [intros t a; by rewrite lookup_empty|done].
Defined.

Lemma spared_step st ev t a :
  timers st !! t = Some a → timeout st = Some t → t < next_tid st →
  spares t ev →
  timers (step st ev) !! t = Some a ∧ timeout (step st ev) = Some t ∧
  t < next_tid (step st ev).
Proof.
  intros Ht Hto Hlt Hs. destruct ev as [a'| |t'|a'|t']; simpl in *; try done.
  - unfold fire. destruct (timers st !! t'); [|done]. simpl.
    by rewrite lookup_delete_ne.
  - rewrite lookup_insert_ne by lia. split_and!; [done|done|lia].
  - by rewrite lookup_delete_ne.
Qed.

(** X20: after [debounce(cb, ms, ...args)] the manager holds one timer,
    pending with these arguments, and every timer it held before is gone;
    the timer stays pending until it fires, the manager is called again or
    other code clears it, and when it fires it runs with these arguments. *)
Theorem debounce_last_call_wins st a evs :
  wf st → Forall (spares (next_tid st)) evs →
  let t := next_tid st in
  let st' := run evs (debounce a st) in
  (∀ t0, timeout st = Some t0 → timers st' !! t0 = None) ∧
  timeout st' = Some t ∧ timers st' !! t = Some a ∧
  fired (fire t st') = fired st' ++ [(t, a)].
Proof.
  intros Hwf Hs. cbv zeta.
  assert (next_tid (cancel st) = next_tid st) as Hn.
  { unfold cancel. by destruct (timeout st). }
  assert (timers (debounce a st) !! next_tid st = Some a ∧
          timeout (debounce a st) = Some (next_tid st) ∧
          next_tid st < next_tid (debounce a st)) as (H1 & H2 & H3).
  { unfold debounce. simpl. rewrite Hn, lookup_insert_eq. split_and!; [done|done|lia]. }
  assert (∀ st1, timers st1 !! next_tid st = Some a →
            timeout st1 = Some (next_tid st) → next_tid st < next_tid st1 →
            timers (run evs st1) !! next_tid st = Some a ∧
            timeout (run evs st1) = Some (next_tid st)) as Hrun.
  { induction Hs as [|ev evs Hev Hs IH]; intros st1 Ha Hb Hc; simpl; [done|].
    destruct (spared_step st1 ev _ _ Ha Hb Hc Hev) as (? & ? & ?).
    by apply IH. }
  destruct (Hrun _ H1 H2 H3) as [Ha Hb]. split_and!; try done.
  - intros t0 Ht0.
    by destruct (debounce_superseded_never_fires_aux st t0 a evs Hwf Ht0).
  - unfold fire. by rewrite Ha.
Qed.

Lemma debounce_last_call_wins_witness :
  timers (run [OtherSet (Args 7 None []); Fire 0]
            (debounce (Args 2 None [])
               (debounce (Args 1 None []) (State ∅ 0 None [])))) !! 1
  = Some (Args 2 None []).
Proof.
  refine (proj1 (proj2 (proj2 (debounce_last_call_wins
    (debounce (Args 1 None []) (State ∅ 0 None [])) (Args 2 None [])
    [OtherSet (Args 7 None []); Fire 0] _ _)))).
  - apply (wf_step (State ∅ 0 None []) (CallDebounce (Args 1 None []))).
    constructor; simpl; [intros t a; by rewrite lookup_empty|done].
  - repeat constructor. simpl. lia.
Defined.
End DebounceFacts.
